(** * streamEye: the frame segmenter, the main loop and the client registry

    A shallow embedding of [streameye.c]: the option parser at the top of
    [main], the stdin loop that carves the input into JPEG frames, the
    locking it performs around [jpeg_buf], the shutdown sequence and
    [on_client_exit].

    The header [streameye.h] and the client thread ([client.c]) are not part
    of the sources at hand.  The two buffer sizes [INPUT_BUF_LEN] and
    [JPEG_BUF_LEN] are therefore Section variables, and the remaining
    constants are taken from the specification where it fixes them. *)

From Stdlib Require Import ZArith Lia Bool.
From Stdlib Require Import Strings.Byte Strings.Ascii.
From stdpp Require Import base tactics option list numbers strings.

Open Scope Z_scope.

(* ================================================================== *)
(** * Bytes and [memmem] *)
(* ================================================================== *)

#[global] Instance byte_eq_dec : EqDecision byte := Byte.byte_eq_dec.

(** [memcmp (h, n, length n) == 0], for a haystack at least as long as the
    needle; [false] when the haystack is shorter. *)
Fixpoint starts_with (n h : list byte) : bool :=
  match n, h with
  | [], _ => true
  | _ :: _, [] => false
  | a :: n', b :: h' => Byte.eqb a b && starts_with n' h'
  end.

(** [memmem (haystack, haystacklen, needle, needlelen)] of the C library:
    the offset of the first occurrence of [needle] in [haystack], [None] for
    the NULL result.  An empty needle is found at offset 0. *)
Fixpoint memmem (haystack needle : list byte) : option nat :=
  if starts_with needle haystack then Some 0%nat
  else match haystack with
       | [] => None
       | _ :: h' => S <$> memmem h' needle
       end.

(** [needle] occurs in [buf] at offset [k]. *)
Definition occurs_at (needle buf : list byte) (k : nat) : Prop :=
  take (length needle) (drop k buf) = needle.

(** Modelled from the spec: the macros [JPEG_START] and [JPEG_END] of the
    absent [streameye.h]; the specification gives the start-of-image marker
    as [FF D8] and the end-of-image marker as [FF D9]. *)
Definition JPEG_START : list byte := [xff; xd8].
Definition JPEG_END : list byte := [xff; xd9].

(** Modelled from the spec: the macro [DEF_TCP_PORT] of the absent
    [streameye.h]; the specification gives the default port as 8080. *)
Definition DEF_TCP_PORT : Z := 8080.

(* ================================================================== *)
(** * The separator (lines 338-348 of [main]) *)
(* ================================================================== *)

Record sep_config := {
  auto_separator : bool;
  input_separator : list byte
}.

Definition input_separator_len (cfg : sep_config) : Z :=
  Z.of_nat (length (input_separator cfg)).

(** [opt_s] is the argument of [-s] ([None] when the option is absent).  In
    the automatic mode the separator is [JPEG_END] followed by
    [JPEG_START], four bytes. *)
Definition separator_setup (opt_s : option (list byte)) : sep_config :=
  match opt_s with
  | None => {| auto_separator := true; input_separator := JPEG_END ++ JPEG_START |}
  | Some s => {| auto_separator := false; input_separator := s |}
  end.

(* ================================================================== *)
(** * The client registry ([clients], [num_clients]) *)
(* ================================================================== *)

(** The address of a [client_t]; 0 is [NULL]. *)
Definition client_ptr := Z.
Definition NULL : client_ptr := 0.

Record registry := {
  clients : list client_ptr;
  num_clients : Z
}.

(** [realloc (clients, sizeof (client_t * ) * n)]: the first [n] entries
    are kept, new entries are unspecified (written [NULL] here).  For
    [n <= 0] the result is the empty array: [realloc (p, 0)] frees [p], and a
    negative [n] turns into a size no allocation can satisfy, so that
    [clients] becomes [NULL]. *)
Definition realloc (cl : list client_ptr) (n : Z) : list client_ptr :=
  resize (Z.to_nat n) NULL cl.

(** Lines 160-162: [for (j = i; j < num_clients - 1; j++)
    clients[j] = clients[j + 1];], [count] being the number of iterations
    left, [num_clients - 1 - j]. *)
Fixpoint shift_back (count j : nat) (cl : list client_ptr) : list client_ptr :=
  match count with
  | O => cl
  | S count' => shift_back count' (S j) (<[j := default NULL (cl !! S j)]> cl)
  end.

(** Lines 157-166: the search loop, [count] being [num_clients - i]. *)
Fixpoint find_and_shift (count i : nat) (client : client_ptr) (n : Z)
    (cl : list client_ptr) : list client_ptr :=
  match count with
  | O => cl
  | S count' =>
      if decide (default NULL (cl !! i) = client)
      then shift_back (Z.to_nat (n - 1 - Z.of_nat i)) i cl
      else find_and_shift count' (S i) client n cl
  end.

(** [on_client_exit], between its lock and its unlock of [clients_mutex]. *)
Definition on_client_exit (client : client_ptr) (r : registry) : registry :=
  let cl := find_and_shift (Z.to_nat (num_clients r)) 0 client
              (num_clients r) (clients r) in
  {| clients := realloc cl (num_clients r - 1);
     num_clients := num_clients r - 1 |}.

(** The registry is well formed when [num_clients] is the length of the
    array. *)
Definition registry_wf (r : registry) : Prop :=
  num_clients r = Z.of_nat (length (clients r)).

(* ================================================================== *)
(** * The main loop (lines 328-442 of [main]) *)
(* ================================================================== *)

Inductive mutex := jpeg_mutex | clients_mutex.

#[global] Instance mutex_eq_dec : EqDecision mutex.
Proof. solve_decision. Defined.

(** What the main thread does, in program order. *)
Inductive event :=
| EvLock (m : mutex)              (* pthread_mutex_lock succeeded *)
| EvUnlock (m : mutex)            (* pthread_mutex_unlock succeeded *)
| EvRead                          (* read (STDIN_FILENO, input_buf, INPUT_BUF_LEN) *)
| EvFrame (frame : list byte)     (* jpeg_buf[0 .. jpeg_size) is a complete frame *)
| EvJpegReady (c : client_ptr)    (* clients[i]->jpeg_ready = 1 *)
| EvBroadcast                     (* pthread_cond_broadcast (&jpeg_cond) succeeded *)
| EvUsleep                        (* usleep (1000) *)
| EvAccept                        (* wait_for_client (socket_fd) *)
| EvCreate (c : client_ptr)       (* pthread_create (&client->thread, ...) succeeded *)
| EvClose                         (* close (socket_fd) *)
| EvStopClient (c : client_ptr)   (* clients[i]->running = 0, jpeg_ready = 1 *)
| EvJoin (c : client_ptr)         (* pthread_join (clients[i]->thread, NULL) *)
| EvDestroy (m : mutex)           (* pthread_mutex_destroy succeeded *)
| EvCondDestroy.                  (* pthread_cond_destroy succeeded *)

Definition errno := Z.
Definition EINTR : errno := 4.

(** The result of [read]: [size < 0] with [errno], or the [size] bytes
    stored in [input_buf]. *)
Inductive read_result :=
| ReadError (e : errno)
| ReadBytes (input_buf : list byte).

(** What the environment hands to one iteration of the loop: the result of
    [read], the return codes of the pthread calls, the result of
    [wait_for_client], and whether [bye_handler] ran. *)
Record iter_input := {
  in_read : read_result;
  in_broadcast_rc : Z;
  in_unlock_rc : Z;
  in_lock_rc : Z;
  in_accept : option client_ptr;
  in_create_rc : Z;
  in_clients_lock_rc : Z;
  in_clients_unlock_rc : Z;
  in_signal : bool
}.

(** [if (pthread_...(...))]: any return code other than 0 is a failure. *)
Definition failed (rc : Z) : bool := negb (rc =? 0).

(** The globals the loop works on.  [jpeg_buf] holds the bytes
    [jpeg_buf[0 .. jpeg_size)] of the C array: [main] never reads the array
    at or beyond [jpeg_size], so that [jpeg_size] is the length of the
    list. *)
Record state := {
  jpeg_buf : list byte;
  running : bool;
  reg : registry
}.

Definition jpeg_size (st : state) : Z := Z.of_nat (length (jpeg_buf st)).

Definition set_jpeg_buf (b : list byte) (st : state) : state :=
  {| jpeg_buf := b; running := running st; reg := reg st |}.

Definition set_running (r : bool) (st : state) : state :=
  {| jpeg_buf := jpeg_buf st; running := r; reg := reg st |}.

Definition set_reg (r : registry) (st : state) : state :=
  {| jpeg_buf := jpeg_buf st; running := running st; reg := r |}.

(** [bye_handler]: a second signal leaves [running] as it is. *)
Definition bye_handler (st : state) : state :=
  if negb (running st) then st else set_running false st.

(** How one iteration, or the loop, is left. *)
Inductive outcome :=
| Continue (st : state)   (* on to the next test of [running] *)
| Break (st : state)      (* [break]: on to the shutdown sequence *)
| Return (rc : Z).        (* [return rc] from [main] *)

(** The entries [clients[0 .. num_clients)] the loops over the registry
    visit. *)
Definition live_clients (st : state) : list client_ptr :=
  take (Z.to_nat (num_clients (reg st))) (clients (reg st)).

Section MainLoop.

(** The two macros of the absent [streameye.h] the loop depends on. *)
Variables INPUT_BUF_LEN JPEG_BUF_LEN : Z.
Variable cfg : sep_config.

(** Lines 376-377: the search in the last [MIN (2 * INPUT_BUF_LEN,
    jpeg_size)] bytes of the buffer [buf]; the result is the offset
    [sep - jpeg_buf], [None] for [sep == NULL]. *)
Definition find_separator (buf : list byte) : option Z :=
  let jpeg_size := Z.of_nat (length buf) in
  let window := Z.min (2 * INPUT_BUF_LEN) jpeg_size in
  let start := jpeg_size - window in
  match memmem (take (Z.to_nat window) (drop (Z.to_nat start) buf))
               (input_separator cfg) with
  | Some off => Some (start + Z.of_nat off)
  | None => None
  end.

(** The buffer offset the search starts at. *)
Definition window_start (buf : list byte) : nat :=
  let jpeg_size := Z.of_nat (length buf) in
  Z.to_nat (jpeg_size - Z.min (2 * INPUT_BUF_LEN) jpeg_size).

(** Lines 380-387: the size of the frame left in [jpeg_buf], and the
    length of the remainder. *)
Definition frame_size (k : Z) : Z :=
  if auto_separator cfg then k + 2 else k.

Definition rem_len (jpeg_size k : Z) : Z :=
  if auto_separator cfg then jpeg_size - k - 2
  else jpeg_size - k - input_separator_len cfg.

(** Line 415: the offset the remainder is copied from. *)
Definition rem_start (k : Z) : Z :=
  k + (if auto_separator cfg then 2 else input_separator_len cfg).

(** Lines 379-417, [buf] being the buffer after the [memcpy] and [k] the
    offset of [sep].  The result is the state after the [memmove], or the
    value [main] returns. *)
Definition frame_ready (inp : iter_input) (st : state) (buf : list byte)
    (k : Z) : list event * (state + Z) :=
  let size := Z.of_nat (length buf) in
  let ready := EvFrame (take (Z.to_nat (frame_size k)) buf)
               :: map EvJpegReady (live_clients st) in
  if failed (in_broadcast_rc inp) then (ready, inr (-1)) else
  if failed (in_unlock_rc inp) then (ready ++ [EvBroadcast], inr (-1)) else
  if failed (in_lock_rc inp)
  then (ready ++ [EvBroadcast; EvUnlock jpeg_mutex; EvUsleep], inr (-1)) else
  (ready ++ [EvBroadcast; EvUnlock jpeg_mutex; EvUsleep; EvLock jpeg_mutex],
   inl (set_jpeg_buf (take (Z.to_nat (rem_len size k))
                           (drop (Z.to_nat (rem_start k)) buf)) st)).

(** Lines 419-441. *)
Definition accept_client (inp : iter_input) (st : state)
    : list event * outcome :=
  match in_accept inp with
  | None => ([EvAccept], Continue st)
  | Some client =>
      if failed (in_create_rc inp) then ([EvAccept], Return (-1)) else
      if failed (in_clients_lock_rc inp)
      then ([EvAccept; EvCreate client], Return (-1)) else
      let r := reg st in
      let cl := <[Z.to_nat (num_clients r) := client]>
                  (realloc (clients r) (num_clients r + 1)) in
      let st' := set_reg {| clients := cl;
                            num_clients := num_clients r + 1 |} st in
      if failed (in_clients_unlock_rc inp)
      then ([EvAccept; EvCreate client; EvLock clients_mutex], Return (-1))
      else ([EvAccept; EvCreate client; EvLock clients_mutex;
             EvUnlock clients_mutex], Continue st')
  end.

(** Lines 351-441: one iteration of [while (running)]. *)
Definition loop_body (inp : iter_input) (st : state) : list event * outcome :=
  match in_read inp with
  | ReadError e =>
      if e =? EINTR then ([EvRead], Break st) else ([EvRead], Return (-1))
  | ReadBytes input_buf =>
      let size := Z.of_nat (length input_buf) in
      if size =? 0 then ([EvRead], Break (set_running false st)) else
      if size >? JPEG_BUF_LEN - 1 - jpeg_size st
      then ([EvRead], Continue (set_jpeg_buf [] st)) else
      let buf := jpeg_buf st ++ input_buf in
      let '(tr, r) :=
        match find_separator buf with
        | Some k => frame_ready inp st buf k
        | None => ([], inl (set_jpeg_buf buf st))
        end in
      match r with
      | inr rc => (EvRead :: tr, Return rc)
      | inl st' =>
          let '(tr', o) := accept_client inp st' in (EvRead :: tr ++ tr', o)
      end
  end.

(** [while (running) { ... }] against the inputs the environment provides.
    When they are used up the loop is still running, blocked in the next
    [read]: the outcome is [Continue].  A signal handled during an
    iteration shows at the next test of [running]; when the iteration
    leaves the loop itself (the [read] it interrupts fails with [EINTR]),
    the handler has set [running] all the same. *)
Fixpoint main_loop (inputs : list iter_input) (st : state)
    : list event * outcome :=
  match inputs with
  | [] => ([], if running st then Continue st else Break st)
  | inp :: rest =>
      if running st then
        let '(tr, o) := loop_body inp st in
        match o with
        | Continue st' =>
            let st'' := if in_signal inp then bye_handler st' else st' in
            let '(tr', o') := main_loop rest st'' in (tr ++ tr', o')
        | Break st' =>
            (tr, Break (if in_signal inp then bye_handler st' else st'))
        | Return rc => (tr, Return rc)
        end
      else ([], Break st)
  end.

End MainLoop.

(** An iteration in which [read] returns [input_buf], every pthread call
    succeeds, no client connects and no signal arrives. *)
Definition feed (input_buf : list byte) : iter_input :=
  {| in_read := ReadBytes input_buf;
     in_broadcast_rc := 0; in_unlock_rc := 0; in_lock_rc := 0;
     in_accept := None;
     in_create_rc := 0; in_clients_lock_rc := 0; in_clients_unlock_rc := 0;
     in_signal := false |}.

(** As [feed], with the connection of the client at address [client]
    accepted in the same iteration. *)
Definition feed_accept (input_buf : list byte) (client : client_ptr)
    : iter_input :=
  {| in_read := ReadBytes input_buf;
     in_broadcast_rc := 0; in_unlock_rc := 0; in_lock_rc := 0;
     in_accept := Some client;
     in_create_rc := 0; in_clients_lock_rc := 0; in_clients_unlock_rc := 0;
     in_signal := false |}.



(** No pthread call of the iteration fails. *)
Definition no_failure (inp : iter_input) : Prop :=
  in_broadcast_rc inp = 0 /\ in_unlock_rc inp = 0 /\ in_lock_rc inp = 0 /\
  in_create_rc inp = 0 /\ in_clients_lock_rc inp = 0 /\
  in_clients_unlock_rc inp = 0.

(** The registered clients: the entries [clients[0 .. num_clients)]. *)
Definition registered (r : registry) : list client_ptr :=
  take (Z.to_nat (num_clients r)) (clients r).

(** The registry after the client threads [cs] went through
    [on_client_exit], in this order. *)
Definition exits (cs : list client_ptr) (r : registry) : registry :=
  foldl (fun r c => on_client_exit c r) r cs.

(** One of the two loops [for (i = 0; i < num_clients; i++) ...
    clients[i] ...] of the shutdown (lines 448-451 and 463-465).  [main]
    runs them without [clients_mutex] and reads [num_clients] and
    [clients[i]] again on every pass, so the client threads that leave
    meanwhile change what the loop sees: the head of [leaving] are the
    clients that went through [on_client_exit] before the test of the pass
    (for the second loop: while [main] was in the [pthread_join] of the
    pass before).  The result is the clients the loop visits and the
    registry it leaves.  [fuel] bounds the number of passes. *)
Fixpoint walk (leaving : list (list client_ptr)) (fuel i : nat)
    (r : registry) : list client_ptr * registry :=
  match fuel with
  | O => ([], r)
  | S fuel' =>
      let r1 := exits (default [] (head leaving)) r in
      match registered r1 !! i with
      | Some c =>
          let '(cs, r') := walk (tail leaving) fuel' (S i) r1 in (c :: cs, r')
      | None => ([], r1)
      end
  end.

(** [i] is incremented on every pass and [num_clients] only decreases
    while [main] shuts down, so [S num_clients] passes are enough. *)
Definition walk_fuel (r : registry) : nat := S (Z.to_nat (num_clients r)).

(** What the environment does during the shutdown sequence: the return
    codes of the pthread calls, and the clients that leave during the two
    loops over the registry. *)
Record shutdown_input := {
  sd_broadcast_rc : Z;
  sd_unlock_rc : Z;
  sd_destroy_clients_rc : Z;
  sd_destroy_jpeg_rc : Z;
  sd_cond_destroy_rc : Z;
  sd_stop_exits : list (list client_ptr);
  sd_join_exits : list (list client_ptr)
}.

(** The clients the loop of lines 448-451 visits, and the registry it
    leaves. *)
Definition stopped (sd : shutdown_input) (st : state)
    : list client_ptr * registry :=
  walk (sd_stop_exits sd) (walk_fuel (reg st)) 0 (reg st).

(** The clients the loop of lines 463-465 joins. *)
Definition joined (sd : shutdown_input) (st : state) : list client_ptr :=
  (walk (sd_join_exits sd) (walk_fuel (stopped sd st).2) 0
        (stopped sd st).2).1.

(** No client thread leaves while [main] shuts down. *)
Definition no_client_exits (sd : shutdown_input) : Prop :=
  Forall (fun cs => cs = []) (sd_stop_exits sd ++ sd_join_exits sd).

(** Lines 444-482: what [main] does after the loop, and the value it
    returns. *)
Definition shutdown (sd : shutdown_input) (st : state) : list event * Z :=
  let stop := EvClose :: map EvStopClient (stopped sd st).1 in
  if failed (sd_broadcast_rc sd) then (stop, -1) else
  if failed (sd_unlock_rc sd) then (stop ++ [EvBroadcast], -1) else
  let joins := stop ++ [EvBroadcast; EvUnlock jpeg_mutex]
                    ++ map EvJoin (joined sd st) in
  if failed (sd_destroy_clients_rc sd) then (joins, -1) else
  if failed (sd_destroy_jpeg_rc sd)
  then (joins ++ [EvDestroy clients_mutex], -1) else
  if failed (sd_cond_destroy_rc sd)
  then (joins ++ [EvDestroy clients_mutex; EvDestroy jpeg_mutex], -1) else
  (joins ++ [EvDestroy clients_mutex; EvDestroy jpeg_mutex; EvCondDestroy], 0).

(** Lines 328-482: [main] from "start with the mutex locked" on.  [lock_rc]
    is the return code of that first [pthread_mutex_lock]; the result is the
    trace of the main thread and its exit status, [None] while the loop is
    still running. *)
Definition main_from_lock (INPUT_BUF_LEN JPEG_BUF_LEN : Z)
    (opt_s : option (list byte)) (lock_rc : Z) (inputs : list iter_input)
    (sd : shutdown_input) (st : state) : list event * option Z :=
  if failed lock_rc then ([], Some (-1)) else
  let cfg := separator_setup opt_s in
  let '(tr, o) := main_loop INPUT_BUF_LEN JPEG_BUF_LEN cfg inputs st in
  match o with
  | Continue _ => (EvLock jpeg_mutex :: tr, None)
  | Return rc => (EvLock jpeg_mutex :: tr, Some rc)
  | Break st' =>
      let '(tr', rc) := shutdown sd st' in
      (EvLock jpeg_mutex :: tr ++ tr', Some rc)
  end.

(** The globals as they are when [main] starts. *)
Definition initial_state : state :=
  {| jpeg_buf := []; running := true;
     reg := {| clients := []; num_clients := 0 |} |}.

(** ** Reading a trace *)

(** The frames the segmenter handed to the clients. *)
Fixpoint frames_of (tr : list event) : list (list byte) :=
  match tr with
  | [] => []
  | EvFrame f :: tr' => f :: frames_of tr'
  | _ :: tr' => frames_of tr'
  end.

(** Whether the main thread holds [m] after the events of [tr]. *)
Fixpoint holds (m : mutex) (tr : list event) (held : bool) : bool :=
  match tr with
  | [] => held
  | EvLock m' :: tr' => holds m tr' (if decide (m' = m) then true else held)
  | EvUnlock m' :: tr' => holds m tr' (if decide (m' = m) then false else held)
  | _ :: tr' => holds m tr' held
  end.

Definition held_after (m : mutex) (tr : list event) : bool := holds m tr false.

(** The locking discipline of the main thread, checked along a trace from
    the state in which [jpeg_mutex] is held iff [j] and [clients_mutex] iff
    [c]: [read] is called with [jpeg_mutex] held; [clients_mutex] is taken
    with [jpeg_mutex] held; [jpeg_mutex] is neither taken nor released with
    [clients_mutex] held. *)
Fixpoint disciplined (tr : list event) (j c : bool) : bool :=
  match tr with
  | [] => true
  | EvRead :: tr' => j && disciplined tr' j c
  | EvLock jpeg_mutex :: tr' => negb c && disciplined tr' true c
  | EvUnlock jpeg_mutex :: tr' => negb c && disciplined tr' false c
  | EvLock clients_mutex :: tr' => j && disciplined tr' j true
  | EvUnlock clients_mutex :: tr' => disciplined tr' j false
  | _ :: tr' => disciplined tr' j c
  end.

(** What it means for a piece of [main] to keep the discipline: entered
    with [jpeg_mutex] held and [clients_mutex] free, its trace is
    disciplined, and unless [main] returns it is left in the same lock
    state. *)
Definition keeps_locks (tr : list event) (returns : bool) : Prop :=
  disciplined tr true false = true /\
  (returns = false ->
   holds jpeg_mutex tr true = true /\ holds clients_mutex tr false = false).

(** The events that are neither a [read] nor a lock operation. *)
Definition neutral (e : event) : bool :=
  match e with
  | EvRead | EvLock _ | EvUnlock _ => false
  | _ => true
  end.

(* ================================================================== *)
(** * The command line (lines 219-274 of [main]) *)
(* ================================================================== *)

Module Cli.

(** Modelled from the spec: the macro [DEF_CLIENT_READ_TIMEOUT] of the
    absent [streameye.h]; the specification gives the default timeout as
    10 seconds. *)
Definition DEF_CLIENT_READ_TIMEOUT : Z := 10.

(** The file-scope variables the options set. *)
Record globals := {
  log_level : Z;
  listen_localhost : Z;
  tcp_port : Z;
  input_separator : option string;
  client_read_timeout : Z
}.

Definition initial : globals :=
  {| log_level := 1; listen_localhost := 0; tcp_port := 0;
     input_separator := None;
     client_read_timeout := DEF_CLIENT_READ_TIMEOUT |}.

Definition set_log_level (v : Z) (g : globals) : globals :=
  {| log_level := v; listen_localhost := listen_localhost g;
     tcp_port := tcp_port g; input_separator := input_separator g;
     client_read_timeout := client_read_timeout g |}.

Definition set_listen_localhost (v : Z) (g : globals) : globals :=
  {| log_level := log_level g; listen_localhost := v;
     tcp_port := tcp_port g; input_separator := input_separator g;
     client_read_timeout := client_read_timeout g |}.

Definition set_tcp_port (v : Z) (g : globals) : globals :=
  {| log_level := log_level g; listen_localhost := listen_localhost g;
     tcp_port := v; input_separator := input_separator g;
     client_read_timeout := client_read_timeout g |}.

Definition set_input_separator (v : option string) (g : globals) : globals :=
  {| log_level := log_level g; listen_localhost := listen_localhost g;
     tcp_port := tcp_port g; input_separator := v;
     client_read_timeout := client_read_timeout g |}.

Definition set_client_read_timeout (v : Z) (g : globals) : globals :=
  {| log_level := log_level g; listen_localhost := listen_localhost g;
     tcp_port := tcp_port g; input_separator := input_separator g;
     client_read_timeout := v |}.

(** ** [strtol (nptr, &err, 10)] of the C library (LP64) *)

Definition LONG_MAX : Z := 2 ^ 63 - 1.
Definition LONG_MIN : Z := - 2 ^ 63.

Definition isspace (c : ascii) : bool :=
  let n := nat_of_ascii c in
  (n =? 32)%nat || ((9 <=? n)%nat && (n <=? 13)%nat).

Definition digit_of (c : ascii) : option Z :=
  let n := nat_of_ascii c in
  if ((48 <=? n)%nat && (n <=? 57)%nat) then Some (Z.of_nat n - 48) else None.

Fixpoint skip_spaces (s : string) : string :=
  match s with
  | String c s' => if isspace c then skip_spaces s' else s
  | EmptyString => s
  end.

(** The digits at the head of [s], read into [acc]; the rest of [s]. *)
Fixpoint read_digits (s : string) (acc : Z) : Z * string :=
  match s with
  | String c s' =>
      match digit_of c with
      | Some d => read_digits s' (10 * acc + d)
      | None => (acc, s)
      end
  | EmptyString => (acc, s)
  end.

Definition clamp_long (v : Z) : Z := Z.max LONG_MIN (Z.min LONG_MAX v).

(** The value and the text [err] points to.  Without a digit no
    conversion is performed: the value is 0 and [err] is [nptr]. *)
Definition strtol (nptr : string) : Z * string :=
  let s := skip_spaces nptr in
  let '(neg, s1) :=
    match s with
    | String "-" r => (true, r)
    | String "+" r => (false, r)
    | _ => (false, s)
    end in
  match s1 with
  | String c _ =>
      match digit_of c with
      | Some _ =>
          let '(v, rest) := read_digits s1 0 in
          (clamp_long (if neg then - v else v), rest)
      | None => (0, nptr)
      end
  | EmptyString => (0, nptr)
  end.

(** The conversion of the [long] to the [int] it is assigned to. *)
Definition int_of_long (v : Z) : Z :=
  (v + 2 ^ 31) mod 2 ^ 32 - 2 ^ 31.

(** What [main] does once the options are read: go on, or return. *)
Inductive parsed :=
| Go (g : globals)
| Exit (rc : Z).

(** Lines 224-270: the [getopt] loop.  Each element of [opts] is one
    result of [getopt (argc, argv, "dhlp:qs:t:")] with the [optarg] it
    set. *)
Fixpoint read_options (opts : list (ascii * string)) (g : globals) : parsed :=
  match opts with
  | [] => Go g
  | (c, optarg) :: rest =>
      if Ascii.eqb c "d" then read_options rest (set_log_level 2 g)
      else if Ascii.eqb c "h" then Exit 0
      else if Ascii.eqb c "l" then read_options rest (set_listen_localhost 1 g)
      else if Ascii.eqb c "p" then
        let '(v, err) := strtol optarg in
        match err with
        | EmptyString => read_options rest (set_tcp_port (int_of_long v) g)
        | String _ _ => Exit (-1)
        end
      else if Ascii.eqb c "q" then read_options rest (set_log_level 0 g)
      else if Ascii.eqb c "s" then
        read_options rest (set_input_separator (Some optarg) g)
      else if Ascii.eqb c "t" then
        let '(v, err) := strtol optarg in
        match err with
        | EmptyString =>
            read_options rest (set_client_read_timeout (int_of_long v) g)
        | String _ _ => Exit (-1)
        end
      else Exit (-1)
  end.

(** Lines 224-274: the options, then the default of the port. *)
Definition main_options (opts : list (ascii * string)) (g : globals)
    : parsed :=
  match read_options opts g with
  | Go g' =>
      Go (if tcp_port g' =? 0 then set_tcp_port DEF_TCP_PORT g' else g')
  | Exit rc => Exit rc
  end.

(** The option [-p PORT]. *)
Definition opt_p (port : string) : ascii * string := ("p"%char, port).

Definition is_opt_p (o : ascii * string) : bool := Ascii.eqb (fst o) "p".

End Cli.

(* ================================================================== *)
(** * Streams of frames *)
(* ================================================================== *)

(** A frame as the segmenter needs it in the automatic mode: it begins with
    [FF D8], ends with [FF D9], and has no [FF D9 FF D8] inside. *)
Definition jpeg_frame (f : list byte) : Prop :=
  (exists body, f = JPEG_START ++ body ++ JPEG_END) /\
  forall j, ~ occurs_at (JPEG_END ++ JPEG_START) f j.

(** The offsets in the file at which its frames begin, the first one at
    [n]. *)
Fixpoint frame_starts (n : nat) (frames : list (list byte)) : list nat :=
  match frames with
  | [] => []
  | f :: fs => n :: frame_starts (n + length f) fs
  end.

(** Whether the [len] bytes read from offset [n] of the file on hold the
    byte at offset [b + 1]: the [D8] of the frame that begins at [b], the
    last byte of the separator between this frame and the one before. *)
Definition brings_start (n len b : nat) : bool :=
  ((n <=? b + 1) && (b + 1 <? n + len))%nat.

(** The reads cut the file where they will, frames or not, but none of
    them brings the beginning of two frames.  [starts] are the offsets at
    which the frames after the first one begin, [n] the offset of the first
    of the [chunks]. *)
Fixpoint one_start_per_read (starts : list nat) (n : nat)
    (chunks : list (list byte)) : bool :=
  match chunks with
  | [] => true
  | c :: cs =>
      (length (List.filter (brings_start n (length c)) starts) <=? 1)%nat
      && one_start_per_read starts (n + length c) cs
  end.

(* ================================================================== *)
(** * Concrete inputs *)
(* ================================================================== *)

(** The buffer sizes the specification recommends: 16 KiB for
    [INPUT_BUF_LEN], 2 MiB for [JPEG_BUF_LEN]. *)
Definition input_buf_16k : Z := 16384.
Definition jpeg_buf_2m : Z := 2097152.

(** Every pthread call of the shutdown succeeds, and no client leaves
    meanwhile. *)
Definition sd_ok : shutdown_input :=
  {| sd_broadcast_rc := 0; sd_unlock_rc := 0; sd_destroy_clients_rc := 0;
     sd_destroy_jpeg_rc := 0; sd_cond_destroy_rc := 0;
     sd_stop_exits := []; sd_join_exits := [] |}.

Definition shutdown_succeeds (sd : shutdown_input) : Prop :=
  sd_broadcast_rc sd = 0 /\ sd_unlock_rc sd = 0 /\
  sd_destroy_clients_rc sd = 0 /\ sd_destroy_jpeg_rc sd = 0 /\
  sd_cond_destroy_rc sd = 0.

(** One client, at address 1, is registered from the start. *)
Definition one_client : state :=
  {| jpeg_buf := []; running := true;
     reg := {| clients := [1]; num_clients := 1 |} |}.

(** The two frames of the specification's second scenario, with 0A 0B 0C
    and 0D 0E for the payload bytes. *)
Definition frame_F1 : list byte := [xff; xd8; x0a; x0b; x0c; xff; xd9].
Definition frame_F2 : list byte := [xff; xd8; x0d; x0e; xff; xd9].

(** The smallest frame, and a full [read] of 4096 of them. *)
Definition tiny_jpeg : list byte := JPEG_START ++ JPEG_END.
Definition burst : list byte := concat (replicate 4096 tiny_jpeg).

(** The accumulator the search runs on after three reads of [burst]. *)
Definition acc_third_burst : list byte :=
  match (main_loop input_buf_16k jpeg_buf_2m (separator_setup None)
           [feed burst; feed burst] one_client).2 with
  | Continue st => jpeg_buf st ++ burst
  | _ => []
  end.

(** A frame of exactly [jpeg_buf_2m - 1] bytes, [FF D8], zeros, [FF D9],
    as 128 reads bring it: 127 reads of 16384 bytes and one of 16383. *)
Definition zeros (n : Z) : list byte := replicate (Z.to_nat n) x00.

Definition full_size_frame_reads : list (list byte) :=
  (JPEG_START ++ zeros 16382)
    :: replicate 126 (zeros 16384) ++ [zeros 16381 ++ JPEG_END].

(** The bytes of a C string, as [strdup (optarg)] stores them. *)
Definition bytes_of_string (s : string) : list byte :=
  String.list_byte_of_string s.

(* ================================================================== *)
(** * [init_server] *)
(* ================================================================== *)

(** The address the socket is bound to: [inet_addr ("127.0.0.1")] or
    [INADDR_ANY]. *)
Inductive bind_addr := Loopback | INADDR_ANY.

(** The system calls of [init_server], in program order; a call that fails
    is part of the trace. *)
Inductive sys_event :=
| SysSocket                                   (* socket (AF_INET, SOCK_STREAM, 0) *)
| SysReuseAddr (fd : Z)                       (* setsockopt (fd, SOL_SOCKET, SO_REUSEADDR, ...) *)
| SysBind (fd : Z) (a : bind_addr) (port : Z) (* bind (fd, &server_addr, ...) *)
| SysListen (fd backlog : Z)                  (* listen (fd, 5) *)
| SysNonblock (fd : Z)                        (* fcntl (fd, F_SETFL, O_NONBLOCK) *)
| SysClose (fd : Z).                          (* close (fd) *)

(** What the five calls return. *)
Record server_env := {
  socket_rc : Z;
  setsockopt_rc : Z;
  bind_rc : Z;
  listen_rc : Z;
  fcntl_rc : Z
}.

(** The port number [htons (tcp_port)] stands for: the [int] is converted
    to the [uint16_t] parameter of [htons]. *)
Definition port_of (tcp_port : Z) : Z := tcp_port mod 2 ^ 16.

(** Lines 68-110, with the globals [listen_localhost] and [tcp_port] as
    arguments: the calls made and the value returned. *)
Definition init_server (listen_localhost tcp_port : Z) (env : server_env)
    : list sys_event * Z :=
  let socket_fd := socket_rc env in
  if socket_fd <? 0 then ([SysSocket], -1) else
  if setsockopt_rc env <? 0
  then ([SysSocket; SysReuseAddr socket_fd], -1) else
  let a := if listen_localhost =? 0 then INADDR_ANY else Loopback in
  let bound := [SysSocket; SysReuseAddr socket_fd;
                SysBind socket_fd a (port_of tcp_port)] in
  if bind_rc env <? 0 then (bound ++ [SysClose socket_fd], -1) else
  if listen_rc env <? 0
  then (bound ++ [SysListen socket_fd 5; SysClose socket_fd], -1) else
  if fcntl_rc env <? 0
  then (bound ++ [SysListen socket_fd 5; SysNonblock socket_fd;
                  SysClose socket_fd], -1) else
  (bound ++ [SysListen socket_fd 5; SysNonblock socket_fd], socket_fd).

(** Every call of [init_server] succeeds. *)
Definition server_env_ok (env : server_env) : Prop :=
  0 <= socket_rc env /\ 0 <= setsockopt_rc env /\ 0 <= bind_rc env /\
  0 <= listen_rc env /\ 0 <= fcntl_rc env.

(* ================================================================== *)
(** * Reading a run of the loop *)
(* ================================================================== *)

(** What lies between a frame and the bytes kept for the next one: nothing
    in the automatic mode (the frame keeps [FF D9], the remainder [FF D8]),
    the separator with [-s]. *)
Definition gap (cfg : sep_config) : list byte :=
  if auto_separator cfg then [] else input_separator cfg.

(** The frames put back end to end, each followed by the gap. *)
Definition rejoin (cfg : sep_config) (frames : list (list byte)) : list byte :=
  concat (map (fun f => f ++ gap cfg) frames).

(** The bytes the [read]s of the iterations returned. *)
Definition bytes_read (inputs : list iter_input) : list byte :=
  concat (map (fun inp => match in_read inp with
                          | ReadBytes input_buf => input_buf
                          | ReadError _ => []
                          end) inputs).

(** The clients whose thread [main] created, in order. *)
Definition created (tr : list event) : list client_ptr :=
  omap (fun e => match e with EvCreate c => Some c | _ => None end) tr.

(** The use the main thread makes of its mutexes, checked along a trace from
    the state in which [jpeg_mutex] is held iff [j] and [clients_mutex] iff
    [c]: a mutex is locked only when free and unlocked only when held; the
    frame, the clients' flags and the broadcast are set with [jpeg_mutex]
    held; [usleep] and [pthread_join] are called with [jpeg_mutex] free; a
    mutex is destroyed only when free; and the loops over [clients] (the
    flags, the joins) run with [clients_mutex] free. *)
Fixpoint orderly (tr : list event) (j c : bool) : bool :=
  match tr with
  | [] => true
  | EvLock jpeg_mutex :: tr' => negb j && orderly tr' true c
  | EvUnlock jpeg_mutex :: tr' => j && orderly tr' false c
  | EvLock clients_mutex :: tr' => negb c && orderly tr' j true
  | EvUnlock clients_mutex :: tr' => c && orderly tr' j false
  | EvFrame _ :: tr' | EvBroadcast :: tr' => j && orderly tr' j c
  | EvJpegReady _ :: tr' | EvStopClient _ :: tr' =>
      (j && negb c) && orderly tr' j c
  | EvUsleep :: tr' => negb j && orderly tr' j c
  | EvJoin _ :: tr' => (negb j && negb c) && orderly tr' j c
  | EvDestroy jpeg_mutex :: tr' => negb j && orderly tr' j c
  | EvDestroy clients_mutex :: tr' => negb c && orderly tr' j c
  | _ :: tr' => orderly tr' j c
  end.

(** The log level an option asks for. *)
Definition verbosity_of (o : ascii * string) : option Z :=
  if Ascii.eqb (fst o) "d" then Some 2
  else if Ascii.eqb (fst o) "q" then Some 0
  else None.

(** The separator an option asks for, and whether it is [-l], [-h]. *)
Definition separator_of (o : ascii * string) : option string :=
  if Ascii.eqb (fst o) "s" then Some (snd o) else None.

Definition is_opt_l (o : ascii * string) : bool := Ascii.eqb (fst o) "l".

Definition is_opt_h (o : ascii * string) : bool := Ascii.eqb (fst o) "h".

(** The macros [DEBUG], [INFO] and [ERROR] of [common.h]: a message is
    written when [log_level] is at least 2, 1 and 0. *)
Inductive severity := SevDebug | SevInfo | SevError.

Definition logged (log_level : Z) (s : severity) : bool :=
  match s with
  | SevDebug => log_level >=? 2
  | SevInfo => log_level >=? 1
  | SevError => log_level >=? 0
  end.

(* ================================================================== *)
(** * Facts about [memmem] *)
(* ================================================================== *)

Lemma starts_with_spec n h :
  starts_with n h = true <-> take (length n) h = n.
Proof.
  revert h; induction n as [|a n IH]; intros [|b h]; simpl; try easy.
  rewrite andb_true_iff, IH. split.
  - intros [Hb Hn]. apply Byte.byte_dec_bl in Hb. by rewrite Hn, Hb.
  - intros [= -> Hn]. split; [apply Byte.byte_dec_lb; reflexivity | exact Hn].
Qed.

Lemma occurs_at_0 n h : occurs_at n h 0 <-> starts_with n h = true.
Proof. unfold occurs_at. rewrite drop_0. symmetry. apply starts_with_spec. Qed.

Lemma occurs_at_S n b h k : occurs_at n (b :: h) (S k) <-> occurs_at n h k.
Proof. reflexivity. Qed.

Lemma occurs_at_nil n k : occurs_at n [] k <-> n = [].
Proof.
  unfold occurs_at. rewrite drop_nil, take_nil. split; [done|].
  by intros ->.
Qed.

(** [memmem] returns the first occurrence. *)
Lemma memmem_Some h n k :
  memmem h n = Some k <->
  occurs_at n h k /\ forall j, (j < k)%nat -> ~ occurs_at n h j.
Proof.
  revert k; induction h as [|b h IH]; intros k; simpl;
    destruct (starts_with _ _) eqn:E.
  - split.
    + intros [= <-]. split; [by apply occurs_at_0 | lia].
    + intros [_ Hmin]. destruct k; [done|].
      exfalso. apply (Hmin 0%nat); [lia | by apply occurs_at_0].
  - split; [done|]. intros [->%occurs_at_nil _]. discriminate.
  - split.
    + intros [= <-]. split; [by apply occurs_at_0 | lia].
    + intros [_ Hmin]. destruct k; [done|].
      exfalso. apply (Hmin 0%nat); [lia | by apply occurs_at_0].
  - destruct k as [|k].
    + split.
      * destruct (memmem h n); discriminate.
      * intros [Hocc _]. apply occurs_at_0 in Hocc. congruence.
    + rewrite occurs_at_S, fmap_Some. split.
      * intros (k' & Hk' & [= ->]). apply IH in Hk' as [Ho Hm]. split; [done|].
        intros [|j] Hj; [rewrite occurs_at_0; congruence|].
        rewrite occurs_at_S. apply Hm. lia.
      * intros [Ho Hm]. exists k. split; [|done].
        apply IH. split; [done|]. intros j Hj.
        rewrite <- (occurs_at_S n b). apply Hm. lia.
Qed.

Lemma memmem_None h n :
  memmem h n = None <-> forall j, ~ occurs_at n h j.
Proof.
  induction h as [|b h IH]; simpl; destruct (starts_with _ _) eqn:E.
  - split; [done|]. intros Hno. exfalso. apply (Hno 0%nat). by apply occurs_at_0.
  - split; [|done]. intros _ j ->%occurs_at_nil. discriminate.
  - split; [done|]. intros Hno. exfalso. apply (Hno 0%nat). by apply occurs_at_0.
  - rewrite fmap_None, IH. split.
    + intros Hno [|j]; [rewrite occurs_at_0; congruence|].
      rewrite occurs_at_S. apply Hno.
    + intros Hno j. rewrite <- (occurs_at_S n b). apply Hno.
Qed.

(* ================================================================== *)
(** * Facts about the separator search *)
(* ================================================================== *)

Lemma occurs_at_drop n buf s i :
  occurs_at n (drop s buf) i <-> occurs_at n buf (s + i).
Proof. unfold occurs_at. by rewrite drop_drop. Qed.

Lemma occurs_at_length n buf k :
  n <> [] -> occurs_at n buf k -> (k + length n <= length buf)%nat.
Proof.
  unfold occurs_at. intros Hn Ho.
  apply (f_equal length) in Ho. rewrite length_take, length_drop in Ho.
  assert (0 < length n)%nat by (destruct n; [done | simpl; lia]).
  lia.
Qed.

Lemma occurs_at_app_l n buf tail k :
  (k + length n <= length buf)%nat ->
  occurs_at n (buf ++ tail) k <-> occurs_at n buf k.
Proof.
  intros Hk. unfold occurs_at.
  rewrite drop_app_le by lia. rewrite take_app_le; [done|].
  rewrite length_drop. lia.
Qed.

Lemma occurs_at_app_r n buf tail k :
  occurs_at n (buf ++ tail) (length buf + k) <-> occurs_at n tail k.
Proof. unfold occurs_at. by rewrite drop_app_add. Qed.

Section Search.

Variable INPUT_BUF_LEN : Z.
Variable cfg : sep_config.
Hypothesis INPUT_BUF_LEN_nonneg : 0 <= INPUT_BUF_LEN.

Local Abbreviation find_sep := (find_separator INPUT_BUF_LEN cfg).
Local Abbreviation w_start := (window_start INPUT_BUF_LEN).
Local Abbreviation sep := (input_separator cfg).

Lemma window_start_le buf : (w_start buf <= length buf)%nat.
Proof using INPUT_BUF_LEN_nonneg. unfold window_start. lia. Qed.

Lemma window_start_spec buf :
  Z.of_nat (w_start buf) = Z.max 0 (Z.of_nat (length buf) - 2 * INPUT_BUF_LEN).
Proof using INPUT_BUF_LEN_nonneg. unfold window_start. lia. Qed.

Lemma find_separator_memmem buf :
  find_sep buf =
  (fun off => Z.of_nat (w_start buf + off)) <$> memmem (drop (w_start buf) buf) sep.
Proof using INPUT_BUF_LEN_nonneg.
  unfold find_separator. fold (w_start buf).
  rewrite take_ge.
  2:{ rewrite length_drop. unfold window_start. lia. }
  destruct (memmem _ _); simpl; [|done].
  f_equal. unfold window_start. lia.
Qed.

(** The search returns the first occurrence at or after the start of the
    window. *)
Lemma find_separator_Some buf k :
  find_sep buf = Some k <->
  exists j, k = Z.of_nat j /\ (w_start buf <= j)%nat /\ occurs_at sep buf j /\
            forall i, (w_start buf <= i < j)%nat -> ~ occurs_at sep buf i.
Proof using INPUT_BUF_LEN_nonneg.
  rewrite find_separator_memmem, fmap_Some. split.
  - intros (off & Hm & ->). apply memmem_Some in Hm as [Ho Hmin].
    exists (w_start buf + off)%nat. split; [done|]. split; [lia|].
    split; [by apply occurs_at_drop|].
    intros i Hi Hoi. apply (Hmin (i - w_start buf)%nat); [lia|].
    apply occurs_at_drop. by replace (w_start buf + (i - w_start buf))%nat with i by lia.
  - intros (j & -> & Hj & Ho & Hmin). exists (j - w_start buf)%nat. split.
    + apply memmem_Some. split.
      * apply occurs_at_drop. by replace (w_start buf + (j - w_start buf))%nat with j by lia.
      * intros i Hi Hoi. apply occurs_at_drop in Hoi. apply (Hmin (w_start buf + i)%nat); [lia|done].
    + f_equal. lia.
Qed.

Lemma find_separator_None buf :
  find_sep buf = None <->
  forall i, (w_start buf <= i)%nat -> ~ occurs_at sep buf i.
Proof using INPUT_BUF_LEN_nonneg.
  rewrite find_separator_memmem, fmap_None, memmem_None. split.
  - intros Hno i Hi Hoi. apply (Hno (i - w_start buf)%nat).
    apply occurs_at_drop. by replace (w_start buf + (i - w_start buf))%nat with i by lia.
  - intros Hno i Hoi. apply occurs_at_drop in Hoi. apply (Hno (w_start buf + i)%nat); [lia|done].
Qed.

(** As long as the accumulator has at most [2 * INPUT_BUF_LEN] bytes the
    window is the whole accumulator. *)
Lemma find_separator_whole buf :
  Z.of_nat (length buf) <= 2 * INPUT_BUF_LEN ->
  find_sep buf = Z.of_nat <$> memmem buf sep.
Proof using INPUT_BUF_LEN_nonneg.
  intros Hsmall. rewrite find_separator_memmem.
  replace (w_start buf) with 0%nat by (unfold window_start; lia).
  by rewrite drop_0.
Qed.

Lemma find_separator_bounds buf k :
  find_sep buf = Some k ->
  0 <= k /\ k + input_separator_len cfg <= Z.of_nat (length buf).
Proof using INPUT_BUF_LEN_nonneg.
  intros (j & -> & Hj & Ho & Hmin)%find_separator_Some. split; [lia|].
  unfold input_separator_len.
  destruct (decide (sep = [])) as [E|E].
  - rewrite E in *. simpl.
    destruct (decide (j = w_start buf)) as [->|Hne].
    + pose proof (window_start_le buf). lia.
    + exfalso. apply (Hmin (w_start buf)); [lia|]. reflexivity.
  - apply occurs_at_length in Ho; [lia|done].
Qed.

End Search.

(* ================================================================== *)
(** * Facts about traces *)
(* ================================================================== *)

Lemma frames_of_app tr1 tr2 :
  frames_of (tr1 ++ tr2) = frames_of tr1 ++ frames_of tr2.
Proof.
  induction tr1 as [|e tr1 IH]; [done|].
  destruct e; simpl; by rewrite ?IH.
Qed.

Lemma frames_of_jpeg_ready cl : frames_of (map EvJpegReady cl) = [].
Proof. by induction cl. Qed.

Lemma holds_app m tr1 tr2 held :
  holds m (tr1 ++ tr2) held = holds m tr2 (holds m tr1 held).
Proof.
  revert held; induction tr1 as [|e tr1 IH]; intros held; [done|].
  destruct e; simpl; by rewrite ?IH.
Qed.

(* ================================================================== *)
(** * One iteration of the loop *)
(* ================================================================== *)

Section Iteration.

Variables INPUT_BUF_LEN JPEG_BUF_LEN : Z.
Variable cfg : sep_config.
Hypothesis INPUT_BUF_LEN_nonneg : 0 <= INPUT_BUF_LEN.

Local Abbreviation find_sep := (find_separator INPUT_BUF_LEN cfg).
Local Abbreviation body := (loop_body INPUT_BUF_LEN JPEG_BUF_LEN cfg).

(** The remainder copied by the [memmove] is everything from
    [rem_start] to the end of the buffer. *)
Lemma remainder_is_suffix buf k :
  find_sep buf = Some k ->
  take (Z.to_nat (rem_len cfg (Z.of_nat (length buf)) k))
       (drop (Z.to_nat (rem_start cfg k)) buf)
  = drop (Z.to_nat (rem_start cfg k)) buf.
Proof using INPUT_BUF_LEN_nonneg.
  intros Hk. apply find_separator_bounds in Hk as [Hk0 Hk1]; [|done].
  apply take_ge. rewrite length_drop.
  unfold rem_len, rem_start. destruct (auto_separator cfg); lia.
Qed.

Lemma frame_ready_ok inp st buf k :
  in_broadcast_rc inp = 0 -> in_unlock_rc inp = 0 -> in_lock_rc inp = 0 ->
  find_sep buf = Some k ->
  frame_ready cfg inp st buf k =
  (EvFrame (take (Z.to_nat (frame_size cfg k)) buf)
     :: map EvJpegReady (live_clients st)
     ++ [EvBroadcast; EvUnlock jpeg_mutex; EvUsleep; EvLock jpeg_mutex],
   inl (set_jpeg_buf (drop (Z.to_nat (rem_start cfg k)) buf) st)).
Proof using INPUT_BUF_LEN_nonneg.
  intros Hb Hu Hl Hk. unfold frame_ready. rewrite Hb, Hu, Hl. simpl.
  by rewrite remainder_is_suffix.
Qed.

Lemma accept_client_ok inp st :
  no_failure inp ->
  exists tr st', accept_client inp st = (tr, Continue st') /\
                 frames_of tr = [] /\
                 jpeg_buf st' = jpeg_buf st /\ running st' = running st.
Proof.
  intros (_ & _ & _ & Hc & Hl & Hu). unfold accept_client.
  destruct (in_accept inp) as [client|]; [|by eexists _, _].
  rewrite Hc, Hl, Hu. simpl. by eexists _, _.
Qed.

(** An iteration whose [read] returns data that fits and in which the
    search finds the separator at offset [k]. *)
Lemma loop_body_hit inp st chunk k :
  in_read inp = ReadBytes chunk -> chunk <> [] ->
  Z.of_nat (length chunk) <= JPEG_BUF_LEN - 1 - jpeg_size st ->
  no_failure inp ->
  find_sep (jpeg_buf st ++ chunk) = Some k ->
  exists tr st',
    body inp st = (tr, Continue st') /\
    frames_of tr = [take (Z.to_nat (frame_size cfg k)) (jpeg_buf st ++ chunk)] /\
    jpeg_buf st' = drop (Z.to_nat (rem_start cfg k)) (jpeg_buf st ++ chunk) /\
    running st' = running st.
Proof using INPUT_BUF_LEN_nonneg.
  intros Hr Hne Hfit Hok Hk. unfold loop_body. rewrite Hr.
  assert ((Z.of_nat (length chunk) =? 0) = false) as ->.
  { destruct chunk; [done|]. simpl. lia. }
  assert ((Z.of_nat (length chunk) >? JPEG_BUF_LEN - 1 - jpeg_size st) = false) as ->
    by lia.
  rewrite Hk.
  destruct Hok as (Hb & Hu & Hl & Hrest).
  rewrite frame_ready_ok by done.
  set (st1 := set_jpeg_buf _ st).
  destruct (accept_client_ok inp st1) as (tr' & st' & -> & Hf & Hbuf & Hrun);
    [done|].
  eexists _, st'. split; [done|]. split; [|by rewrite Hbuf, Hrun].
  simpl. by rewrite !frames_of_app, frames_of_jpeg_ready, Hf.
Qed.

Lemma loop_body_no_hit inp st chunk :
  in_read inp = ReadBytes chunk -> chunk <> [] ->
  Z.of_nat (length chunk) <= JPEG_BUF_LEN - 1 - jpeg_size st ->
  no_failure inp ->
  find_sep (jpeg_buf st ++ chunk) = None ->
  exists tr st',
    body inp st = (tr, Continue st') /\
    frames_of tr = [] /\
    jpeg_buf st' = jpeg_buf st ++ chunk /\
    running st' = running st.
Proof using INPUT_BUF_LEN_nonneg.
  intros Hr Hne Hfit Hok Hk. unfold loop_body. rewrite Hr.
  assert ((Z.of_nat (length chunk) =? 0) = false) as ->.
  { destruct chunk; [done|]. simpl. lia. }
  assert ((Z.of_nat (length chunk) >? JPEG_BUF_LEN - 1 - jpeg_size st) = false) as ->
    by lia.
  rewrite Hk.
  set (st1 := set_jpeg_buf _ st).
  destruct (accept_client_ok inp st1) as (tr' & st' & -> & Hf & Hbuf & Hrun);
    [done|].
  eexists _, st'. split; [done|]. split; [|by rewrite Hbuf, Hrun].
  simpl. by rewrite Hf.
Qed.

Lemma loop_body_discard inp st chunk :
  in_read inp = ReadBytes chunk -> chunk <> [] ->
  Z.of_nat (length chunk) > JPEG_BUF_LEN - 1 - jpeg_size st ->
  body inp st = ([EvRead], Continue (set_jpeg_buf [] st)).
Proof.
  intros Hr Hne Hbig. unfold loop_body. rewrite Hr.
  assert ((Z.of_nat (length chunk) =? 0) = false) as ->.
  { destruct chunk; [done|]. simpl. lia. }
  assert ((Z.of_nat (length chunk) >? JPEG_BUF_LEN - 1 - jpeg_size st) = true) as ->
    by lia.
  done.
Qed.

End Iteration.

(* ================================================================== *)
(** * The loop *)
(* ================================================================== *)

Section Loop.

Variables INPUT_BUF_LEN JPEG_BUF_LEN : Z.
Variable cfg : sep_config.
Hypothesis INPUT_BUF_LEN_nonneg : 0 <= INPUT_BUF_LEN.

Local Abbreviation find_sep := (find_separator INPUT_BUF_LEN cfg).
Local Abbreviation body := (loop_body INPUT_BUF_LEN JPEG_BUF_LEN cfg).
Local Abbreviation loop := (main_loop INPUT_BUF_LEN JPEG_BUF_LEN cfg).

Lemma main_loop_step inp rest st tr st' :
  running st = true ->
  body inp st = (tr, Continue st') ->
  loop (inp :: rest) st =
  (tr ++ (loop rest (if in_signal inp then bye_handler st' else st')).1,
   (loop rest (if in_signal inp then bye_handler st' else st')).2).
Proof.
  intros Hrun Hb. simpl. rewrite Hrun, Hb.
  by destruct (loop rest _).
Qed.


Lemma feed_no_failure c : no_failure (feed c).
Proof. by repeat split. Qed.

Lemma loop_body_feed_no_hit st c :
  c <> [] ->
  Z.of_nat (length c) <= JPEG_BUF_LEN - 1 - jpeg_size st ->
  find_sep (jpeg_buf st ++ c) = None ->
  body (feed c) st =
  ([EvRead; EvAccept], Continue (set_jpeg_buf (jpeg_buf st ++ c) st)).
Proof using INPUT_BUF_LEN_nonneg.
  intros Hne Hfit Hk. unfold loop_body. simpl.
  assert ((Z.of_nat (length c) =? 0) = false) as ->.
  { destruct c; [done|]. simpl. lia. }
  assert ((Z.of_nat (length c) >? JPEG_BUF_LEN - 1 - jpeg_size st) = false) as ->
    by lia.
  by rewrite Hk.
Qed.

Lemma loop_body_feed_hit st c k :
  c <> [] ->
  Z.of_nat (length c) <= JPEG_BUF_LEN - 1 - jpeg_size st ->
  find_sep (jpeg_buf st ++ c) = Some k ->
  body (feed c) st =
  (EvRead :: EvFrame (take (Z.to_nat (frame_size cfg k)) (jpeg_buf st ++ c))
     :: map EvJpegReady (live_clients st)
     ++ [EvBroadcast; EvUnlock jpeg_mutex; EvUsleep; EvLock jpeg_mutex;
         EvAccept],
   Continue (set_jpeg_buf (drop (Z.to_nat (rem_start cfg k))
                                (jpeg_buf st ++ c)) st)).
Proof using INPUT_BUF_LEN_nonneg.
  intros Hne Hfit Hk. unfold loop_body. cbn [in_read feed].
  assert ((Z.of_nat (length c) =? 0) = false) as ->.
  { destruct c; [done|]. simpl. lia. }
  assert ((Z.of_nat (length c) >? JPEG_BUF_LEN - 1 - jpeg_size st) = false) as ->
    by lia.
  rewrite Hk.
  rewrite (frame_ready_ok INPUT_BUF_LEN) by done.
  simpl. by rewrite <- app_assoc.
Qed.

Lemma main_loop_feed_eof rest st :
  running st = true ->
  loop (feed [] :: rest) st = ([EvRead], Break (set_running false st)).
Proof. intros Hrun. simpl. by rewrite Hrun. Qed.

(** Chunks that neither overflow the buffer nor complete a separator
    pile up in [jpeg_buf]: no frame is emitted. *)
Lemma main_loop_accumulate cs rest st :
  running st = true ->
  Forall (fun c => c <> []) cs ->
  Z.of_nat (length (jpeg_buf st ++ concat cs)) <= JPEG_BUF_LEN - 1 ->
  input_separator cfg <> [] ->
  (forall i, ~ occurs_at (input_separator cfg) (jpeg_buf st ++ concat cs) i) ->
  exists tr,
    frames_of tr = [] /\
    loop (map feed cs ++ rest) st =
    (tr ++ (loop rest (set_jpeg_buf (jpeg_buf st ++ concat cs) st)).1,
     (loop rest (set_jpeg_buf (jpeg_buf st ++ concat cs) st)).2).
Proof using INPUT_BUF_LEN_nonneg.
  revert st; induction cs as [|c cs IH]; intros st Hrun Hne Hfit Hsep Hno.
  - exists []. split; [done|]. simpl. rewrite app_nil_r.
    replace (set_jpeg_buf (jpeg_buf st) st) with st by by destruct st.
    by destruct (loop rest st).
  - apply Forall_cons in Hne as [Hc Hne]. simpl in Hfit, Hno.
    rewrite app_assoc in Hfit, Hno. rewrite length_app in Hfit.
    assert (find_sep (jpeg_buf st ++ c) = None) as Hnone.
    { apply find_separator_None; [done|]. intros i _ Ho.
      apply (Hno i). apply occurs_at_app_l; [|done].
      by apply occurs_at_length. }
    assert (Z.of_nat (length c) <= JPEG_BUF_LEN - 1 - jpeg_size st) as Hfit1.
    { rewrite length_app in Hfit. unfold jpeg_size. lia. }
    pose proof (loop_body_feed_no_hit st c Hc Hfit1 Hnone) as Hb.
    set (st1 := set_jpeg_buf (jpeg_buf st ++ c) st) in *.
    destruct (IH st1) as (tr & Hf & Hl); try done.
    { simpl. rewrite length_app. lia. }
    exists ([EvRead; EvAccept] ++ tr). split; [by rewrite frames_of_app, Hf|].
    cbn [map app]. rewrite (main_loop_step _ _ _ _ _ Hrun Hb).
    cbn [in_signal feed]. fold st1. rewrite Hl.
    cbn [fst snd jpeg_buf st1 set_jpeg_buf].
    rewrite <- !app_assoc. unfold set_jpeg_buf. simpl. done.
Qed.

End Loop.

(* ================================================================== *)
(** * The split at the separator *)
(* ================================================================== *)

(** C1.  When the search finds the separator at offset [k] of the
    accumulator (the buffer after the chunk just read was appended): in the
    automatic mode the frame handed to the clients is bytes [0, k+2) of the
    accumulator and the bytes kept for the next frame are [k+2, end); with a
    separator [s] given by [-s] the frame is bytes [0, k) and the bytes kept
    are [k + length s, end). *)
Theorem separator_hit_splits_accumulator
    (INPUT_BUF_LEN JPEG_BUF_LEN : Z) (opt_s : option (list byte))
    (inp : iter_input) (st : state) (chunk : list byte) (k : Z) :
  0 <= INPUT_BUF_LEN ->
  in_read inp = ReadBytes chunk -> chunk <> [] ->
  Z.of_nat (length chunk) <= JPEG_BUF_LEN - 1 - jpeg_size st ->
  no_failure inp ->
  find_separator INPUT_BUF_LEN (separator_setup opt_s) (jpeg_buf st ++ chunk)
    = Some k ->
  exists tr st',
    loop_body INPUT_BUF_LEN JPEG_BUF_LEN (separator_setup opt_s) inp st
      = (tr, Continue st') /\
    occurs_at (input_separator (separator_setup opt_s)) (jpeg_buf st ++ chunk)
              (Z.to_nat k) /\
    match opt_s with
    | None =>
        frames_of tr = [take (Z.to_nat (k + 2)) (jpeg_buf st ++ chunk)] /\
        jpeg_buf st' = drop (Z.to_nat (k + 2)) (jpeg_buf st ++ chunk)
    | Some s =>
        frames_of tr = [take (Z.to_nat k) (jpeg_buf st ++ chunk)] /\
        jpeg_buf st' =
          drop (Z.to_nat (k + Z.of_nat (length s))) (jpeg_buf st ++ chunk)
    end.
Proof.
  intros Hpos Hr Hne Hfit Hok Hk.
  destruct (loop_body_hit INPUT_BUF_LEN JPEG_BUF_LEN (separator_setup opt_s)
              Hpos inp st chunk k)
    as (tr & st' & Hb & Hf & Hbuf & _); try done.
  exists tr, st'. split; [done|]. split.
  - apply find_separator_Some in Hk as (j & -> & _ & Ho & _); [|done].
    by rewrite Nat2Z.id.
  - destruct opt_s as [s|]; by rewrite Hf, Hbuf.
Qed.

(** The two frames of the second scenario in the automatic mode, and the
    text of the third scenario with the separator [--XYZ--] split between
    two reads. *)
Lemma separator_hit_splits_accumulator_witness :
  (exists tr st',
     loop_body input_buf_16k jpeg_buf_2m (separator_setup None)
               (feed frame_F2) (set_jpeg_buf frame_F1 one_client)
       = (tr, Continue st') /\
     occurs_at (JPEG_END ++ JPEG_START) (frame_F1 ++ frame_F2) 5 /\
     frames_of tr = [frame_F1] /\ jpeg_buf st' = frame_F2) /\
  (exists tr st',
     loop_body input_buf_16k jpeg_buf_2m
               (separator_setup (Some (bytes_of_string "--XYZ--")))
               (feed (bytes_of_string "--bbbb"))
               (set_jpeg_buf (bytes_of_string "aaaa--XYZ") one_client)
       = (tr, Continue st') /\
     occurs_at (bytes_of_string "--XYZ--") (bytes_of_string "aaaa--XYZ--bbbb") 4 /\
     frames_of tr = [bytes_of_string "aaaa"] /\
     jpeg_buf st' = bytes_of_string "bbbb").
Proof.
  split.
  - apply (separator_hit_splits_accumulator input_buf_16k jpeg_buf_2m None
             (feed frame_F2) (set_jpeg_buf frame_F1 one_client) frame_F2 5).
    + unfold input_buf_16k. lia.
    + reflexivity.
    + discriminate.
    + vm_compute. discriminate.
    + repeat split.
    + vm_compute. reflexivity.
  - apply (separator_hit_splits_accumulator input_buf_16k jpeg_buf_2m
             (Some (bytes_of_string "--XYZ--"))
             (feed (bytes_of_string "--bbbb"))
             (set_jpeg_buf (bytes_of_string "aaaa--XYZ") one_client)
             (bytes_of_string "--bbbb") 4).
    + unfold input_buf_16k. lia.
    + reflexivity.
    + discriminate.
    + vm_compute. discriminate.
    + repeat split.
    + vm_compute. reflexivity.
Defined.

(* ================================================================== *)
(** * The overflow of the accumulator *)
(* ================================================================== *)

(** C4.  When [read] returns a chunk that would take the accumulator above
    [JPEG_BUF_LEN - 1] bytes, the iteration empties the accumulator
    ([jpeg_size] is 0), emits no frame, and the loop goes on with the next
    [read] from the empty accumulator. *)
Theorem oversized_chunk_discards_accumulator
    (INPUT_BUF_LEN JPEG_BUF_LEN : Z) (cfg : sep_config)
    (inp : iter_input) (rest : list iter_input) (st : state)
    (chunk : list byte) :
  running st = true ->
  in_read inp = ReadBytes chunk -> chunk <> [] ->
  Z.of_nat (length chunk) > JPEG_BUF_LEN - 1 - jpeg_size st ->
  let emptied := set_jpeg_buf [] st in
  let next := if in_signal inp then bye_handler emptied else emptied in
  loop_body INPUT_BUF_LEN JPEG_BUF_LEN cfg inp st = ([EvRead], Continue emptied) /\
  frames_of (loop_body INPUT_BUF_LEN JPEG_BUF_LEN cfg inp st).1 = [] /\
  jpeg_size emptied = 0 /\ jpeg_buf next = [] /\
  main_loop INPUT_BUF_LEN JPEG_BUF_LEN cfg (inp :: rest) st =
    (EvRead :: (main_loop INPUT_BUF_LEN JPEG_BUF_LEN cfg rest next).1,
     (main_loop INPUT_BUF_LEN JPEG_BUF_LEN cfg rest next).2).
Proof.
  intros Hrun Hr Hne Hbig emptied next.
  pose proof (loop_body_discard INPUT_BUF_LEN JPEG_BUF_LEN cfg inp st chunk
                Hr Hne Hbig) as Hb.
  split; [done|]. split; [by rewrite Hb|]. split; [done|]. split.
  - unfold next, bye_handler.
    destruct (in_signal inp); [destruct (negb _)|]; done.
  - by rewrite (main_loop_step _ _ _ _ _ _ _ _ Hrun Hb).
Qed.

(** With room for 11 bytes, 7 of them taken, a read of 6 bytes. *)
Lemma oversized_chunk_discards_accumulator_witness :
  let st := set_jpeg_buf frame_F1 one_client in
  loop_body 8 12 (separator_setup None) (feed frame_F2) st
    = ([EvRead], Continue (set_jpeg_buf [] st)) /\
  frames_of (loop_body 8 12 (separator_setup None) (feed frame_F2) st).1 = [] /\
  jpeg_size (set_jpeg_buf [] st) = 0 /\
  jpeg_buf (set_jpeg_buf [] st) = [] /\
  main_loop 8 12 (separator_setup None) [feed frame_F2; feed [xff; xd8]] st =
    (EvRead :: (main_loop 8 12 (separator_setup None) [feed [xff; xd8]]
                  (set_jpeg_buf [] st)).1,
     (main_loop 8 12 (separator_setup None) [feed [xff; xd8]]
        (set_jpeg_buf [] st)).2).
Proof.
  apply (oversized_chunk_discards_accumulator 8 12 (separator_setup None)
           (feed frame_F2) [feed [xff; xd8]]
           (set_jpeg_buf frame_F1 one_client) frame_F2).
  - reflexivity.
  - reflexivity.
  - discriminate.
  - vm_compute. reflexivity.
Defined.

(* ================================================================== *)
(** * The client registry *)
(* ================================================================== *)

(** The inner loop moves every entry after position [length l1] one place
    down; the last entry stays where it was, too. *)
Lemma shift_back_spec (l2 l1 : list client_ptr) (x : client_ptr) :
  shift_back (length l2) (length l1) (l1 ++ x :: l2)
  = l1 ++ l2 ++ [default x (last l2)].
Proof.
  revert l1 x; induction l2 as [|y l2 IH]; intros l1 x; [done|].
  cbn [length shift_back].
  replace ((l1 ++ x :: y :: l2) !! S (length l1)) with (Some y).
  2:{ rewrite lookup_app_r by lia.
      by replace (S (length l1) - length l1)%nat with 1%nat by lia. }
  replace (<[length l1:=default NULL (Some y)]> (l1 ++ x :: y :: l2))
    with ((l1 ++ [y]) ++ y :: l2).
  2:{ rewrite insert_app_r_alt by lia. rewrite Nat.sub_diag. simpl.
      by rewrite <- app_assoc. }
  replace (S (length l1)) with (length (l1 ++ [y]))
    by (rewrite length_app; simpl; lia).
  rewrite IH, <- app_assoc. simpl. do 3 f_equal.
  rewrite last_cons. by destruct (last l2).
Qed.

Lemma find_and_shift_found (client : client_ptr) (n : Z)
    (l1 l2 pre : list client_ptr) (count : nat) :
  (length l1 < count)%nat ->
  client ∉ l1 ->
  n = Z.of_nat (length (pre ++ l1 ++ client :: l2)) ->
  find_and_shift count (length pre) client n (pre ++ l1 ++ client :: l2)
  = pre ++ l1 ++ l2 ++ [default client (last l2)].
Proof.
  revert pre count; induction l1 as [|y l1 IH]; intros pre count Hc Hni Hn.
  - destruct count as [|count]; [simpl in Hc; lia|].
    cbn [find_and_shift app].
    rewrite lookup_app_r, Nat.sub_diag by lia. simpl.
    rewrite decide_True by done.
    replace (Z.to_nat (n - 1 - Z.of_nat (length pre))) with (length l2).
    2:{ subst n. rewrite length_app. simpl. lia. }
    apply shift_back_spec.
  - destruct count as [|count]; [simpl in Hc; lia|].
    apply not_elem_of_cons in Hni as [Hy Hni].
    cbn [find_and_shift].
    rewrite lookup_app_r, Nat.sub_diag by lia. simpl.
    rewrite decide_False by done.
    replace (S (length pre)) with (length (pre ++ [y]))
      by (rewrite length_app; simpl; lia).
    replace (pre ++ y :: l1 ++ client :: l2)
      with ((pre ++ [y]) ++ l1 ++ client :: l2) by by rewrite <- app_assoc.
    rewrite IH; [by rewrite <- app_assoc| simpl in Hc; lia | done |].
    subst n. by rewrite <- app_assoc.
Qed.

Lemma find_and_shift_absent (client : client_ptr) (n : Z)
    (l pre : list client_ptr) (count : nat) :
  (count <= length l)%nat ->
  client ∉ l ->
  find_and_shift count (length pre) client n (pre ++ l) = pre ++ l.
Proof.
  revert pre count; induction l as [|y l IH]; intros pre count Hc Hni.
  - simpl in Hc. by replace count with 0%nat by lia.
  - destruct count as [|count]; [done|].
    apply not_elem_of_cons in Hni as [Hy Hni].
    cbn [find_and_shift].
    rewrite lookup_app_r, Nat.sub_diag by lia. simpl.
    rewrite decide_False by done.
    replace (S (length pre)) with (length (pre ++ [y]))
      by (rewrite length_app; simpl; lia).
    replace (pre ++ y :: l) with ((pre ++ [y]) ++ l) by by rewrite <- app_assoc.
    apply IH; [simpl in Hc; lia | done].
Qed.

(** C9.  On a registry whose [num_clients] is the length of [clients]:
    [on_client_exit] with a pointer that is registered removes that entry
    (the first one holding the pointer), keeps the other entries in their
    order and decrements [num_clients]; with a pointer that is not
    registered it still decrements [num_clients] and drops the last entry. *)
Theorem on_client_exit_removes_entry (client : client_ptr) (r : registry) :
  registry_wf r ->
  (forall l1 l2,
     clients r = l1 ++ client :: l2 -> client ∉ l1 ->
     on_client_exit client r =
     {| clients := l1 ++ l2; num_clients := num_clients r - 1 |}) /\
  (client ∉ clients r ->
     on_client_exit client r =
     {| clients := removelast (clients r); num_clients := num_clients r - 1 |}).
Proof.
  intros Hwf. unfold registry_wf in Hwf. unfold on_client_exit. split.
  - intros l1 l2 Hcl Hni. f_equal.
    rewrite Hwf, Nat2Z.id, Hcl.
    rewrite (find_and_shift_found client _ l1 l2 []); [|rewrite length_app; simpl; lia|done|done].
    simpl. unfold realloc.
    replace (Z.to_nat (Z.of_nat (length (l1 ++ client :: l2)) - 1))
      with (length (l1 ++ l2)) by (rewrite !length_app; simpl; lia).
    rewrite app_assoc. by rewrite resize_app.
  - intros Hni. f_equal.
    rewrite Hwf, Nat2Z.id.
    rewrite (find_and_shift_absent client _ (clients r) []); [|done..].
    simpl. unfold realloc.
    rewrite resize_le by lia.
    rewrite removelast_firstn_len. f_equal. lia.
Qed.

(** Four clients; the second one leaves, or a stranger does. *)
Lemma on_client_exit_removes_entry_witness :
  on_client_exit 5 {| clients := [3; 5; 7; 9]; num_clients := 4 |}
    = {| clients := [3] ++ [7; 9]; num_clients := 4 - 1 |} /\
  on_client_exit 6 {| clients := [3; 5; 7; 9]; num_clients := 4 |}
    = {| clients := removelast [3; 5; 7; 9]; num_clients := 4 - 1 |}.
Proof.
  pose proof (on_client_exit_removes_entry 5
                {| clients := [3; 5; 7; 9]; num_clients := 4 |} eq_refl)
    as [Hin _].
  pose proof (on_client_exit_removes_entry 6
                {| clients := [3; 5; 7; 9]; num_clients := 4 |} eq_refl)
    as [_ Hout].
  split.
  - apply (Hin [3] [7; 9]); [reflexivity|].
    apply (bool_decide_unpack _). vm_compute. exact I.
  - apply Hout. apply (bool_decide_unpack _). vm_compute. exact I.
Defined.

(* ================================================================== *)
(** * The port option *)
(* ================================================================== *)

Lemma set_tcp_port_same (g : Cli.globals) :
  Cli.set_tcp_port (Cli.tcp_port g) g = g.
Proof. by destruct g. Qed.

(** What one option other than [-p] does: it ends [main], or it changes
    globals other than [tcp_port]. *)
Lemma read_options_other (c : ascii) (optarg : string) :
  Cli.is_opt_p (c, optarg) = false ->
  (exists rc, forall rest' g',
      Cli.read_options ((c, optarg) :: rest') g' = Cli.Exit rc) \/
  (exists f : Cli.globals -> Cli.globals,
      (forall g', Cli.tcp_port (f g') = Cli.tcp_port g') /\
      forall rest' g', Cli.read_options ((c, optarg) :: rest') g'
                       = Cli.read_options rest' (f g')).
Proof.
  unfold Cli.is_opt_p. cbn [fst]. intros Hp.
  cbn [Cli.read_options]. rewrite Hp.
  destruct (Ascii.eqb c "d"); [right; by exists (Cli.set_log_level 2)|].
  destruct (Ascii.eqb c "h"); [left; by exists 0|].
  destruct (Ascii.eqb c "l"); [right; by exists (Cli.set_listen_localhost 1)|].
  destruct (Ascii.eqb c "q"); [right; by exists (Cli.set_log_level 0)|].
  destruct (Ascii.eqb c "s");
    [right; by exists (Cli.set_input_separator (Some optarg))|].
  destruct (Ascii.eqb c "t"); [|left; by exists (-1)].
  destruct (Cli.strtol optarg) as [v [|a err]].
  - right. by exists (Cli.set_client_read_timeout (Cli.int_of_long v)).
  - left. by exists (-1).
Qed.

Lemma read_options_skip_port_zero pre post g :
  Cli.tcp_port g = 0 ->
  Forall (fun o => Cli.is_opt_p o = false) pre ->
  Cli.read_options (pre ++ Cli.opt_p "0" :: post) g
  = Cli.read_options (pre ++ post) g.
Proof.
  revert g; induction pre as [|[c optarg] pre IH]; intros g Hg Hpre.
  - change (Cli.read_options ([] ++ Cli.opt_p "0" :: post) g)
      with (Cli.read_options post (Cli.set_tcp_port 0 g)).
    by rewrite <- Hg, set_tcp_port_same.
  - apply Forall_cons in Hpre as [Hc Hpre].
    destruct (read_options_other c optarg Hc)
      as [[rc Hexit]|(f & Hf & Hgo)].
    + cbn [app]. by rewrite !Hexit.
    + cbn [app]. rewrite !Hgo. apply IH; [|done]. by rewrite Hf.
Qed.

Lemma read_options_keeps_port opts g g' :
  Forall (fun o => Cli.is_opt_p o = false) opts ->
  Cli.read_options opts g = Cli.Go g' ->
  Cli.tcp_port g' = Cli.tcp_port g.
Proof.
  revert g; induction opts as [|[c optarg] opts IH]; intros g Hopts.
  - by intros [= ->].
  - apply Forall_cons in Hopts as [Hc Hopts].
    destruct (read_options_other c optarg Hc)
      as [[rc Hexit]|(f & Hf & Hgo)].
    + by rewrite Hexit.
    + rewrite Hgo. intros Hr. by rewrite (IH _ Hopts Hr), Hf.
Qed.

(** C10.  With no other [-p] before it, [-p 0] leaves [main] with the same
    globals as the command line without it; and when no [-p] follows
    either, the port [main] goes on with is the default port, 8080. *)
Theorem port_zero_means_default_port
    (pre post : list (ascii * string)) (g : Cli.globals) :
  Cli.tcp_port g = 0 ->
  Forall (fun o => Cli.is_opt_p o = false) pre ->
  Cli.main_options (pre ++ Cli.opt_p "0" :: post) g
    = Cli.main_options (pre ++ post) g /\
  (Forall (fun o => Cli.is_opt_p o = false) post ->
   forall g', Cli.main_options (pre ++ Cli.opt_p "0" :: post) g = Cli.Go g' ->
              Cli.tcp_port g' = DEF_TCP_PORT /\ DEF_TCP_PORT = 8080).
Proof.
  intros Hg Hpre. unfold Cli.main_options.
  rewrite read_options_skip_port_zero by done. split; [done|].
  intros Hpost g'.
  destruct (Cli.read_options (pre ++ post) g) as [g1|rc] eqn:Hr; [|done].
  apply read_options_keeps_port in Hr; [|by apply Forall_app].
  rewrite Hr, Hg. by intros [= <-].
Qed.

(** [streameye -l -p 0 -d] against [streameye -l -d]. *)
Lemma port_zero_means_default_port_witness :
  Cli.main_options [("l"%char, ""); Cli.opt_p "0"; ("d"%char, "")] Cli.initial
    = Cli.main_options [("l"%char, ""); ("d"%char, "")] Cli.initial /\
  Cli.main_options [("l"%char, ""); Cli.opt_p "0"; ("d"%char, "")] Cli.initial
    = Cli.Go {| Cli.log_level := 2; Cli.listen_localhost := 1;
                Cli.tcp_port := 8080; Cli.input_separator := None;
                Cli.client_read_timeout := 10 |}.
Proof.
  pose proof (port_zero_means_default_port
                [("l"%char, ""%string)] [("d"%char, ""%string)] Cli.initial)
    as H.
  destruct H as [Heq Hport].
  - reflexivity.
  - repeat constructor.
  - split; [exact Heq|]. vm_compute. reflexivity.
Defined.

(* ================================================================== *)
(** * The locks of the main thread *)
(* ================================================================== *)

Lemma holds_neutral m tr held :
  forallb neutral tr = true -> holds m tr held = held.
Proof.
  induction tr as [|e tr IH]; [done|]. simpl.
  intros [He Htr]%andb_true_iff. destruct e; try done; by apply IH.
Qed.

Lemma disciplined_neutral tr j c :
  forallb neutral tr = true -> disciplined tr j c = true.
Proof.
  induction tr as [|e tr IH]; [done|]. simpl.
  intros [He Htr]%andb_true_iff. destruct e; try done; by apply IH.
Qed.

Lemma disciplined_app tr1 tr2 j c :
  disciplined (tr1 ++ tr2) j c =
  disciplined tr1 j c
  && disciplined tr2 (holds jpeg_mutex tr1 j) (holds clients_mutex tr1 c).
Proof.
  revert j c; induction tr1 as [|e tr1 IH]; intros j c; [done|].
  destruct e as [[]|[]| | | | | | | | | | | |]; simpl;
    rewrite ?IH, ?andb_assoc; done.
Qed.

Lemma neutral_map (f : client_ptr -> event) cl :
  (forall c, neutral (f c) = true) -> forallb neutral (map f cl) = true.
Proof. intros Hf. induction cl; simpl; [done|]. by rewrite Hf. Qed.

(** A [read] of a disciplined trace happens with [jpeg_mutex] held. *)
Lemma disciplined_read tr j c pre post :
  disciplined tr j c = true ->
  tr = pre ++ EvRead :: post ->
  holds jpeg_mutex pre j = true.
Proof.
  intros Hd ->. rewrite disciplined_app in Hd.
  apply andb_true_iff in Hd as [_ Hd]. simpl in Hd.
  by apply andb_true_iff in Hd as [? _].
Qed.

(** Along a disciplined trace [clients_mutex] is held only inside
    [jpeg_mutex]. *)
Lemma disciplined_nested tr j c :
  disciplined tr j c = true -> (c = true -> j = true) ->
  holds clients_mutex tr c = true -> holds jpeg_mutex tr j = true.
Proof.
  revert j c; induction tr as [|e tr IH]; intros j c Hd Hjc; [done|].
  destruct e as [[]|[]| | | | | | | | | | | |]; simpl in *;
    try (by apply IH);
    apply andb_true_iff in Hd as [H1 Hd]; apply (IH _ _ Hd); try done.
  by destruct c.
Qed.

Lemma disciplined_prefix tr1 tr2 j c :
  disciplined (tr1 ++ tr2) j c = true -> disciplined tr1 j c = true.
Proof. rewrite disciplined_app. by intros [? _]%andb_true_iff. Qed.

(** [jpeg_mutex] is not taken with [clients_mutex] held. *)
Lemma disciplined_lock_jpeg tr j c pre post :
  disciplined tr j c = true ->
  tr = pre ++ EvLock jpeg_mutex :: post ->
  holds clients_mutex pre c = false.
Proof.
  intros Hd ->. rewrite disciplined_app in Hd.
  apply andb_true_iff in Hd as [_ Hd]. simpl in Hd.
  apply andb_true_iff in Hd as [Hc _]. by destruct (holds _ _ _).
Qed.

Section Locks.

Variables INPUT_BUF_LEN JPEG_BUF_LEN : Z.
Variable cfg : sep_config.

Local Abbreviation body := (loop_body INPUT_BUF_LEN JPEG_BUF_LEN cfg).
Local Abbreviation loop := (main_loop INPUT_BUF_LEN JPEG_BUF_LEN cfg).

Lemma frame_ready_locks inp st buf k :
  keeps_locks (frame_ready cfg inp st buf k).1
              (match (frame_ready cfg inp st buf k).2 with
               | inl _ => false | inr _ => true end).
Proof.
  unfold frame_ready, keeps_locks.
  assert (forallb neutral (map EvJpegReady (live_clients st)) = true) as Hn
    by by apply neutral_map.
  destruct (failed (in_broadcast_rc inp)); [|destruct (failed (in_unlock_rc inp));
    [|destruct (failed (in_lock_rc inp))]]; cbn [fst snd];
    rewrite ?disciplined_app, ?holds_app; cbn [disciplined holds];
    rewrite ?disciplined_app, ?holds_app, ?disciplined_neutral, ?holds_neutral
      by done; done.
Qed.

Lemma accept_client_locks inp st :
  keeps_locks (accept_client inp st).1
              (match (accept_client inp st).2 with
               | Return _ => true | _ => false end).
Proof.
  unfold accept_client, keeps_locks.
  destruct (in_accept inp); [|done].
  destruct (failed (in_create_rc inp)); [done|].
  destruct (failed (in_clients_lock_rc inp)); [done|].
  destruct (failed (in_clients_unlock_rc inp)); done.
Qed.

Lemma keeps_locks_app tr1 tr2 r :
  keeps_locks tr1 false -> keeps_locks tr2 r -> keeps_locks (tr1 ++ tr2) r.
Proof.
  intros [Hd1 Hh1] [Hd2 Hh2]. destruct (Hh1 eq_refl) as [Hj Hc].
  split.
  - by rewrite disciplined_app, Hd1, Hj, Hc.
  - intros Hr. rewrite !holds_app, Hj, Hc. by apply Hh2.
Qed.

Lemma keeps_locks_returns tr : keeps_locks tr false -> keeps_locks tr true.
Proof. intros [Hd _]. by split. Qed.

Lemma loop_body_locks inp st :
  keeps_locks (body inp st).1
              (match (body inp st).2 with Return _ => true | _ => false end).
Proof.
  unfold loop_body.
  destruct (in_read inp) as [e|input_buf].
  { by destruct (e =? EINTR). }
  destruct (Z.of_nat (length input_buf) =? 0); [done|].
  destruct (_ >? _); [done|].
  set (buf := jpeg_buf st ++ input_buf).
  assert (exists tr r,
    match find_separator INPUT_BUF_LEN cfg buf with
    | Some k => frame_ready cfg inp st buf k
    | None => ([], inl (set_jpeg_buf buf st))
    end = (tr, r) /\
    keeps_locks tr (match r with inl _ => false | inr _ => true end))
    as (tr & r & -> & Hk).
  { destruct (find_separator _ _ _) as [k|].
    - pose proof (frame_ready_locks inp st buf k) as H.
      destruct (frame_ready cfg inp st buf k) as [tr r]. by exists tr, r.
    - by exists [], (inl (set_jpeg_buf buf st)). }
  destruct r as [st'|rc].
  - pose proof (accept_client_locks inp st') as Ha.
    destruct (accept_client inp st') as [tr' o]. cbn [fst snd] in *.
    apply (keeps_locks_app [EvRead]); [done|].
    by apply keeps_locks_app.
  - cbn [fst snd]. by apply (keeps_locks_app [EvRead]).
Qed.

Lemma main_loop_locks inputs st :
  keeps_locks (loop inputs st).1
              (match (loop inputs st).2 with Return _ => true | _ => false end).
Proof.
  revert st; induction inputs as [|inp rest IH]; intros st; simpl.
  - by destruct (running st).
  - destruct (running st); [|done].
    pose proof (loop_body_locks inp st) as Hb.
    destruct (body inp st) as [tr o]. cbn [fst snd] in Hb.
    destruct o as [st'| |]; [|done..].
    specialize (IH (if in_signal inp then bye_handler st' else st')).
    destruct (loop rest _) as [tr' o']. cbn [fst snd] in *.
    by apply keeps_locks_app.
Qed.

End Locks.

Lemma shutdown_locks sd st :
  keeps_locks (shutdown sd st).1 true
  /\ holds clients_mutex (shutdown sd st).1 false = false.
Proof.
  unfold shutdown, keeps_locks.
  assert (forallb neutral (map EvStopClient (stopped sd st).1) = true) as Hn
    by by apply neutral_map.
  assert (forallb neutral (map EvJoin (joined sd st)) = true) as Hn'
    by by apply neutral_map.
  destruct (failed (sd_broadcast_rc sd)); [|destruct (failed (sd_unlock_rc sd));
    [|destruct (failed (sd_destroy_clients_rc sd));
      [|destruct (failed (sd_destroy_jpeg_rc sd));
        [|destruct (failed (sd_cond_destroy_rc sd))]]]]; cbn [fst snd];
    rewrite ?disciplined_app, ?holds_app; cbn [disciplined holds];
    rewrite ?disciplined_app, ?holds_app; cbn [disciplined holds];
    rewrite ?disciplined_app, ?holds_app, ?disciplined_neutral, ?holds_neutral
      by done; done.
Qed.

(** The trace of the main thread is disciplined. *)
Lemma main_from_lock_disciplined INPUT_BUF_LEN JPEG_BUF_LEN opt_s lock_rc
    inputs sd st :
  disciplined
    (main_from_lock INPUT_BUF_LEN JPEG_BUF_LEN opt_s lock_rc inputs sd st).1
    false false = true.
Proof.
  unfold main_from_lock. destruct (failed lock_rc); [done|].
  pose proof (main_loop_locks INPUT_BUF_LEN JPEG_BUF_LEN (separator_setup opt_s)
                inputs st) as [Hd Hh].
  destruct (main_loop _ _ _ inputs st) as [tr o]. cbn [fst snd] in *.
  destruct o as [st'|st'|rc]; [done| |done].
  destruct (shutdown_locks sd st') as [[Hs _] _].
  destruct (shutdown sd st') as [tr' rc]. cbn [fst snd] in *.
  destruct (Hh eq_refl) as [Hj Hc].
  cbn [disciplined negb andb]. by rewrite disciplined_app, Hd, Hj, Hc.
Qed.

(** C6.  The main thread holds [jpeg_mutex] at every [read] from stdin: the
    mutex is taken before the loop and every [read] of the trace is made
    with it held. *)
Theorem producer_reads_holding_jpeg_mutex
    (INPUT_BUF_LEN JPEG_BUF_LEN : Z) (opt_s : option (list byte)) (lock_rc : Z)
    (inputs : list iter_input) (sd : shutdown_input) (st : state)
    (pre post : list event) :
  (main_from_lock INPUT_BUF_LEN JPEG_BUF_LEN opt_s lock_rc inputs sd st).1
    = pre ++ EvRead :: post ->
  held_after jpeg_mutex pre = true.
Proof.
  intros Htr. unfold held_after.
  eapply disciplined_read; [|exact Htr].
  apply main_from_lock_disciplined.
Qed.

(** The second [read] of a run that hands out one frame. *)
Lemma producer_reads_holding_jpeg_mutex_witness :
  held_after jpeg_mutex
    [EvLock jpeg_mutex; EvRead; EvFrame frame_F1; EvJpegReady 1; EvBroadcast;
     EvUnlock jpeg_mutex; EvUsleep; EvLock jpeg_mutex; EvAccept] = true.
Proof.
  apply (producer_reads_holding_jpeg_mutex input_buf_16k jpeg_buf_2m None 0
           [feed (frame_F1 ++ frame_F2); feed []] sd_ok one_client
           _ [EvClose; EvStopClient 1; EvBroadcast; EvUnlock jpeg_mutex;
              EvJoin 1; EvDestroy clients_mutex; EvDestroy jpeg_mutex;
              EvCondDestroy]).
  vm_compute. reflexivity.
Defined.

(** C6, as the specification words it, fails at the first [read]: the
    mutex was locked before the loop and is held when [read] is called. *)
Lemma producer_holds_mutex_at_first_read :
  (main_from_lock input_buf_16k jpeg_buf_2m None 0 [feed frame_F1] sd_ok
     one_client).1
    = [EvLock jpeg_mutex] ++ EvRead :: [EvAccept] /\
  held_after jpeg_mutex [EvLock jpeg_mutex] = true.
Proof. split; vm_compute; reflexivity. Qed.

(** C7.  The main thread takes [clients_mutex] only while it holds
    [jpeg_mutex], and never takes [jpeg_mutex] while it holds
    [clients_mutex]: at every point of its trace at which [clients_mutex] is
    held, [jpeg_mutex] is held as well. *)
Theorem main_thread_nests_clients_mutex
    (INPUT_BUF_LEN JPEG_BUF_LEN : Z) (opt_s : option (list byte)) (lock_rc : Z)
    (inputs : list iter_input) (sd : shutdown_input) (st : state)
    (pre post : list event) :
  (main_from_lock INPUT_BUF_LEN JPEG_BUF_LEN opt_s lock_rc inputs sd st).1
    = pre ++ post ->
  (held_after clients_mutex pre = true -> held_after jpeg_mutex pre = true) /\
  (forall post', post = EvLock jpeg_mutex :: post' ->
                 held_after clients_mutex pre = false) /\
  (forall post', post = EvLock clients_mutex :: post' ->
                 held_after jpeg_mutex pre = true).
Proof.
  intros Htr.
  pose proof (main_from_lock_disciplined INPUT_BUF_LEN JPEG_BUF_LEN opt_s
                lock_rc inputs sd st) as Hd.
  rewrite Htr in Hd. unfold held_after. split; [|split].
  - apply disciplined_nested; [|done]. by apply disciplined_prefix in Hd.
  - intros post' ->. by eapply disciplined_lock_jpeg.
  - intros post' ->. rewrite disciplined_app in Hd.
    apply andb_true_iff in Hd as [_ Hd]. simpl in Hd.
    by apply andb_true_iff in Hd as [? _].
Qed.

(** The iteration in which the client at address 7 connects. *)
Lemma main_thread_nests_clients_mutex_witness :
  (held_after clients_mutex
     [EvLock jpeg_mutex; EvRead; EvAccept; EvCreate 7; EvLock clients_mutex]
     = true ->
   held_after jpeg_mutex
     [EvLock jpeg_mutex; EvRead; EvAccept; EvCreate 7; EvLock clients_mutex]
     = true) /\
  (forall post', [EvUnlock clients_mutex] = EvLock jpeg_mutex :: post' ->
     held_after clients_mutex
       [EvLock jpeg_mutex; EvRead; EvAccept; EvCreate 7; EvLock clients_mutex]
       = false) /\
  (forall post', [EvUnlock clients_mutex] = EvLock clients_mutex :: post' ->
     held_after jpeg_mutex
       [EvLock jpeg_mutex; EvRead; EvAccept; EvCreate 7; EvLock clients_mutex]
       = true).
Proof.
  apply (main_thread_nests_clients_mutex input_buf_16k jpeg_buf_2m None 0
           [feed_accept frame_F1 7] sd_ok initial_state).
  vm_compute. reflexivity.
Defined.

(** C7, as the specification words it, fails when a client connects: the
    main thread locks [clients_mutex] while it still holds [jpeg_mutex]. *)
Lemma main_thread_holds_both_mutexes :
  (main_from_lock input_buf_16k jpeg_buf_2m None 0 [feed_accept frame_F1 7]
     sd_ok initial_state).1
    = [EvLock jpeg_mutex; EvRead; EvAccept; EvCreate 7; EvLock clients_mutex]
      ++ [EvUnlock clients_mutex] /\
  held_after jpeg_mutex
    [EvLock jpeg_mutex; EvRead; EvAccept; EvCreate 7; EvLock clients_mutex]
    = true /\
  held_after clients_mutex
    [EvLock jpeg_mutex; EvRead; EvAccept; EvCreate 7; EvLock clients_mutex]
    = true.
Proof. split; [|split]; vm_compute; reflexivity. Qed.

(* ================================================================== *)
(** * The end of the input *)
(* ================================================================== *)

Lemma shutdown_all_ok sd st :
  shutdown_succeeds sd ->
  shutdown sd st =
  (EvClose :: map EvStopClient (stopped sd st).1
     ++ [EvBroadcast; EvUnlock jpeg_mutex]
     ++ map EvJoin (joined sd st)
     ++ [EvDestroy clients_mutex; EvDestroy jpeg_mutex; EvCondDestroy], 0).
Proof.
  intros (Hb & Hu & Hc & Hj & Hd). unfold shutdown.
  rewrite Hb, Hu, Hc, Hj, Hd. cbn [failed Z.eqb negb].
  f_equal. cbn [app]. f_equal. by rewrite <- !app_assoc.
Qed.

(** [num_clients] only decreases when clients leave. *)
Lemma num_clients_exits cs r : num_clients (exits cs r) <= num_clients r.
Proof.
  revert r; induction cs as [|c cs IH]; intros r; [done|].
  cbn [exits foldl]. fold (exits cs (on_client_exit c r)).
  specialize (IH (on_client_exit c r)). cbn [on_client_exit num_clients] in IH.
  lia.
Qed.

Lemma registered_lookup r i c :
  registered r !! i = Some c -> (i < Z.to_nat (num_clients r))%nat.
Proof.
  unfold registered. intros H%lookup_lt_Some.
  rewrite length_take in H. lia.
Qed.

(** The loops end within [walk_fuel] passes: more fuel changes nothing. *)
Lemma walk_enough_fuel leaving fuel fuel' i r :
  (Z.to_nat (num_clients r) - i < fuel)%nat ->
  (Z.to_nat (num_clients r) - i < fuel')%nat ->
  walk leaving fuel i r = walk leaving fuel' i r.
Proof.
  revert leaving fuel' i r.
  induction fuel as [|fuel IH]; intros leaving fuel' i r Hf Hf'; [lia|].
  destruct fuel' as [|fuel']; [lia|]. cbn [walk].
  pose proof (num_clients_exits (default [] (head leaving)) r) as Hle.
  destruct (registered _ !! i) as [c|] eqn:Hi; [|done].
  apply registered_lookup in Hi.
  by rewrite (IH (tail leaving) fuel' (S i)) by lia.
Qed.

(** A loop no client leaves during visits every registered client. *)
Lemma walk_no_exits leaving fuel i r :
  Forall (fun cs => cs = []) leaving ->
  (length (registered r) - i < fuel)%nat ->
  walk leaving fuel i r = (drop i (registered r), r).
Proof.
  revert leaving i. induction fuel as [|fuel IH]; intros leaving i Hl Hf; [lia|].
  cbn [walk].
  assert (default [] (head leaving) = [] /\
          Forall (fun cs => cs = []) (tail leaving)) as [-> Ht].
  { destruct Hl as [|cs leaving -> Hl]; [done|]. by split. }
  cbn [exits foldl].
  destruct (registered r !! i) as [c|] eqn:Hi.
  - pose proof (lookup_lt_Some _ _ _ Hi).
    rewrite (IH (tail leaving) (S i)) by (done || lia).
    by rewrite (drop_S _ _ _ Hi).
  - apply lookup_ge_None in Hi. by rewrite drop_ge.
Qed.

Lemma shutdown_no_exits sd st :
  no_client_exits sd ->
  stopped sd st = (live_clients st, reg st) /\ joined sd st = live_clients st.
Proof.
  unfold no_client_exits. intros [Hs Hj]%Forall_app.
  assert (forall r, (length (registered r) - 0 < walk_fuel r)%nat) as Hfuel.
  { intros r. unfold registered, walk_fuel. rewrite length_take. lia. }
  assert (stopped sd st = (live_clients st, reg st)) as Hst.
  { unfold stopped. by rewrite walk_no_exits. }
  split; [done|].
  unfold joined. rewrite Hst. cbn [fst snd]. by rewrite walk_no_exits.
Qed.

Lemma live_clients_bye_handler st :
  live_clients (bye_handler st) = live_clients st.
Proof. unfold bye_handler. by destruct (negb (running st)). Qed.






(* ================================================================== *)
(** * The search window *)
(* ================================================================== *)

(** C2.  After a chunk of at most [INPUT_BUF_LEN] bytes is appended to the
    accumulator [buf], an occurrence of the separator (of at most
    [INPUT_BUF_LEN + 1] bytes) whose last byte lies in the chunk, be it
    wholly in the chunk or split between the old data and the chunk, lies
    in the search window: the search reports a hit [k], inside the window,
    at an occurrence at or before that one, and no occurrence lies between
    the start of the window and [k]: [k] is the first occurrence inside
    the window.  When no occurrence lies wholly in the old data, the search
    of the window returns what a search of the whole accumulator returns.
    An occurrence that begins before the window is not detected: the hit
    lies after it, and the search of the window does not return what a
    search of the whole accumulator returns. *)
Theorem window_finds_separator_ending_in_chunk
    (INPUT_BUF_LEN : Z) (cfg : sep_config) (buf chunk : list byte) (j : nat) :
  0 <= INPUT_BUF_LEN ->
  Z.of_nat (length chunk) <= INPUT_BUF_LEN ->
  input_separator_len cfg <= INPUT_BUF_LEN + 1 ->
  occurs_at (input_separator cfg) (buf ++ chunk) j ->
  (length buf < j + length (input_separator cfg))%nat ->
  (exists k, find_separator INPUT_BUF_LEN cfg (buf ++ chunk) = Some k /\
             0 <= k <= Z.of_nat j /\
             occurs_at (input_separator cfg) (buf ++ chunk) (Z.to_nat k) /\
             Z.of_nat (window_start INPUT_BUF_LEN (buf ++ chunk)) <= k /\
             (forall i,
                (window_start INPUT_BUF_LEN (buf ++ chunk) <= i)%nat ->
                Z.of_nat i < k ->
                ~ occurs_at (input_separator cfg) (buf ++ chunk) i) /\
             (forall i,
                occurs_at (input_separator cfg) (buf ++ chunk) i ->
                (i < window_start INPUT_BUF_LEN (buf ++ chunk))%nat ->
                Z.of_nat i < k /\
                find_separator INPUT_BUF_LEN cfg (buf ++ chunk)
                <> Z.of_nat <$> memmem (buf ++ chunk) (input_separator cfg))) /\
  ((forall i, occurs_at (input_separator cfg) (buf ++ chunk) i ->
              (length buf < i + length (input_separator cfg))%nat) ->
   find_separator INPUT_BUF_LEN cfg (buf ++ chunk)
   = Z.of_nat <$> memmem (buf ++ chunk) (input_separator cfg)).
Proof.
  intros Hpos Hchunk Hlen Hocc Hend.
  set (acc := buf ++ chunk) in *.
  assert (Hwin : forall i, occurs_at (input_separator cfg) acc i ->
                 (length buf < i + length (input_separator cfg))%nat ->
                 (window_start INPUT_BUF_LEN acc <= i)%nat).
  { intros i _ Hi. pose proof (window_start_spec INPUT_BUF_LEN Hpos acc) as Hw.
    unfold acc in Hw. rewrite length_app in Hw.
    unfold input_separator_len in Hlen. unfold acc. lia. }
  assert (exists k, find_separator INPUT_BUF_LEN cfg acc = Some k)
    as [k Hk].
  { destruct (find_separator INPUT_BUF_LEN cfg acc) as [k|] eqn:E; [by eauto|].
    exfalso. eapply find_separator_None in E; [exact (E Hocc)|done|].
    by apply Hwin. }
  pose proof Hk as (m & -> & Hm & Hom & Hmin)%find_separator_Some; [|done].
  split.
  - exists (Z.of_nat m). split; [done|]. rewrite Nat2Z.id.
    split; [|split; [done|split; [lia|split]]].
    + split; [lia|]. destruct (decide (m <= j)%nat); [lia|].
      exfalso. apply (Hmin j); [|done]. split; [by apply Hwin|lia].
    + intros i Hi Him. apply Hmin. lia.
    + intros i Hoi Hi. split; [lia|]. rewrite Hk.
      destruct (memmem acc (input_separator cfg)) as [i0|] eqn:Hfull.
      * apply memmem_Some in Hfull as [_ Hfirst]. cbn [fmap option_fmap option_map].
        intros [= Heq]. apply (Hfirst i); [lia|done].
      * done.
  - intros Hall. rewrite Hk. symmetry. apply fmap_Some. exists m.
    split; [|done]. apply memmem_Some. split; [done|].
    intros i Hi Hoi. apply (Hmin i); [|done].
    split; [|done]. apply Hwin; [done|]. by apply Hall.
Qed.

(** The separator between F1 and F2, split between two reads after its
    third byte; and, with reads of at most 4 bytes, a separator split
    between two reads when an older one, at offset 0, has left the
    window: the hit is at offset 10, where a search of the whole
    accumulator stops at 0. *)
Lemma window_finds_separator_ending_in_chunk_witness :
  ((exists k, find_separator input_buf_16k (separator_setup None)
                ([xff; xd8; x0a; x0b; x0c; xff; xd9; xff] ++ [xd8; x0d; x0e])
              = Some k /\
              0 <= k <= Z.of_nat 5 /\
              occurs_at (JPEG_END ++ JPEG_START)
                ([xff; xd8; x0a; x0b; x0c; xff; xd9; xff] ++ [xd8; x0d; x0e])
                (Z.to_nat k)) /\
   find_separator input_buf_16k (separator_setup None)
     ([xff; xd8; x0a; x0b; x0c; xff; xd9; xff] ++ [xd8; x0d; x0e])
   = Z.of_nat <$> memmem ([xff; xd8; x0a; x0b; x0c; xff; xd9; xff]
                            ++ [xd8; x0d; x0e]) (JPEG_END ++ JPEG_START)) /\
  (find_separator 4 (separator_setup None)
     ([xff; xd9; xff; xd8; x0a; x0b; x0c; x0d; x0e; x0f; xff; xd9; xff]
        ++ [xd8; x01]) = Some 10 /\
   window_start 4
     ([xff; xd9; xff; xd8; x0a; x0b; x0c; x0d; x0e; x0f; xff; xd9; xff]
        ++ [xd8; x01]) = 7%nat /\
   find_separator 4 (separator_setup None)
     ([xff; xd9; xff; xd8; x0a; x0b; x0c; x0d; x0e; x0f; xff; xd9; xff]
        ++ [xd8; x01])
   <> Z.of_nat <$> memmem
        ([xff; xd9; xff; xd8; x0a; x0b; x0c; x0d; x0e; x0f; xff; xd9; xff]
           ++ [xd8; x01]) (JPEG_END ++ JPEG_START)).
Proof.
  split.
  - pose proof (window_finds_separator_ending_in_chunk input_buf_16k
                  (separator_setup None)
                  [xff; xd8; x0a; x0b; x0c; xff; xd9; xff] [xd8; x0d; x0e] 5)
      as H.
    destruct H as [(k & Hk & Hle & Ho & _) Hsame].
    + unfold input_buf_16k. lia.
    + vm_compute. discriminate.
    + vm_compute. discriminate.
    + vm_compute. reflexivity.
    + vm_compute. lia.
    + split; [by exists k|]. vm_compute. reflexivity.
  - pose proof (window_finds_separator_ending_in_chunk 4
                  (separator_setup None)
                  [xff; xd9; xff; xd8; x0a; x0b; x0c; x0d; x0e; x0f;
                   xff; xd9; xff] [xd8; x01] 10)
      as H.
    destruct H as [(k & Hk & _ & _ & _ & _ & Hbefore) _].
    + lia.
    + vm_compute. discriminate.
    + vm_compute. discriminate.
    + vm_compute. reflexivity.
    + vm_compute. lia.
    + split; [vm_compute; reflexivity|]. split; [vm_compute; reflexivity|].
      apply (Hbefore 0%nat); [vm_compute; reflexivity|vm_compute; lia].
Defined.

(** C2, as the specification words it, fails when reads bring more than
    one separator each.  Three full reads of 4-byte frames: after the
    third, the accumulator (49144 bytes) has a separator at offset 2, which
    a search of the whole accumulator finds, but the window starts at
    offset 16376 and the search returns offset 16378.  The third frame
    handed to the clients has 16380 bytes: it is 4095 frames in one piece,
    beginning with two whole frames, and the separators between them are
    never used to split. *)
Lemma window_misses_earlier_separator :
  Z.of_nat (length acc_third_burst) = 49144 /\
  memmem acc_third_burst (JPEG_END ++ JPEG_START) = Some 2%nat /\
  find_separator input_buf_16k (separator_setup None) acc_third_burst
    = Some 16378 /\
  map (fun f => Z.of_nat (length f))
      (frames_of (main_loop input_buf_16k jpeg_buf_2m (separator_setup None)
                    [feed burst; feed burst; feed burst] one_client).1)
    = [4; 4; 16380] /\
  take 8 (default [] (frames_of
            (main_loop input_buf_16k jpeg_buf_2m (separator_setup None)
               [feed burst; feed burst; feed burst] one_client).1 !! 2%nat))
    = tiny_jpeg ++ tiny_jpeg.
Proof.
  split; [|split; [|split; [|split]]]; vm_compute; reflexivity.
Qed.

(* ================================================================== *)
(** * A stream of whole frames *)
(* ================================================================== *)

Lemma occurs_at_lookup n buf k t x :
  occurs_at n buf k -> n !! t = Some x -> buf !! (k + t)%nat = Some x.
Proof.
  unfold occurs_at. intros H Hx. rewrite <- H in Hx.
  apply lookup_take_Some in Hx as [Hx _]. by rewrite lookup_drop in Hx.
Qed.

Lemma no_occurrence_prefix n pre rest :
  n <> [] ->
  (forall j, ~ occurs_at n (pre ++ rest) j) -> forall j, ~ occurs_at n pre j.
Proof.
  intros Hn Hno j Ho. apply (Hno j).
  apply occurs_at_app_l; [by apply occurs_at_length|done].
Qed.

Lemma frames_of_map (f : client_ptr -> event) cl :
  (forall c, frames_of [f c] = []) -> frames_of (map f cl) = [].
Proof.
  intros Hf. induction cl as [|c cl IH]; [done|].
  change (map f (c :: cl)) with ([f c] ++ map f cl).
  by rewrite frames_of_app, Hf, IH.
Qed.

Lemma frames_of_shutdown sd st : frames_of (shutdown sd st).1 = [].
Proof.
  unfold shutdown.
  assert (frames_of (map EvStopClient (stopped sd st).1) = []) as Hs
    by by apply frames_of_map.
  assert (frames_of (map EvJoin (joined sd st)) = []) as Hj
    by by apply frames_of_map.
  destruct (failed (sd_broadcast_rc sd)); [|destruct (failed (sd_unlock_rc sd));
    [|destruct (failed (sd_destroy_clients_rc sd));
      [|destruct (failed (sd_destroy_jpeg_rc sd));
        [|destruct (failed (sd_cond_destroy_rc sd))]]]]; cbn [fst snd];
    rewrite ?frames_of_app; cbn [frames_of]; rewrite ?Hs, ?Hj; done.
Qed.

(** Where a frame [p] is followed by the start of the next one, the first
    separator is the one made of the last two bytes of [p] and the first
    two of the next frame. *)
Lemma boundary_is_first_separator (p c' : list byte) :
  jpeg_frame p ->
  occurs_at (JPEG_END ++ JPEG_START) (p ++ xff :: xd8 :: c') (length p - 2) /\
  (2 <= length p)%nat /\
  forall i, (i < length p - 2)%nat ->
            ~ occurs_at (JPEG_END ++ JPEG_START) (p ++ xff :: xd8 :: c') i.
Proof.
  intros [[body ->] Hno].
  set (pre0 := JPEG_START ++ body).
  assert (JPEG_START ++ body ++ JPEG_END = pre0 ++ JPEG_END) as Hp
    by (unfold pre0; by rewrite app_assoc).
  rewrite Hp in *. clear Hp. clearbody pre0.
  assert (length (pre0 ++ JPEG_END) - 2 = length pre0)%nat as Hlen
    by (rewrite length_app; simpl; lia).
  rewrite Hlen. split; [|split].
  - rewrite <- app_assoc.
    replace (length pre0) with (length pre0 + 0)%nat by lia.
    apply occurs_at_app_r. by apply occurs_at_0.
  - rewrite length_app. simpl. lia.
  - intros i Hi Ho.
    destruct (decide (i + 4 <= length (pre0 ++ JPEG_END))%nat) as [Hin|Hout].
    + apply (Hno i). by apply occurs_at_app_l in Ho.
    + rewrite length_app in Hout. simpl in Hout.
      assert (i + 1 = length pre0)%nat as Hi1 by lia.
      apply (occurs_at_lookup _ _ _ 1 xd9) in Ho; [|done].
      rewrite Hi1, <- app_assoc in Ho.
      rewrite lookup_app_r, Nat.sub_diag in Ho by lia. discriminate.
Qed.

Section Frames.

Variables INPUT_BUF_LEN JPEG_BUF_LEN : Z.
Hypothesis INPUT_BUF_LEN_nonneg : 0 <= INPUT_BUF_LEN.

Local Abbreviation auto := (separator_setup None).
Local Abbreviation loop := (main_loop INPUT_BUF_LEN JPEG_BUF_LEN auto).

Lemma find_separator_boundary (p c' : list byte) :
  jpeg_frame p ->
  Z.of_nat (length (xff :: xd8 :: c')) <= INPUT_BUF_LEN ->
  find_separator INPUT_BUF_LEN auto (p ++ xff :: xd8 :: c')
  = Some (Z.of_nat (length p) - 2).
Proof using INPUT_BUF_LEN_nonneg.
  intros Hp Hc.
  destruct (boundary_is_first_separator p c' Hp) as (Ho & Hlen & Hmin).
  apply find_separator_Some; [done|].
  exists (length p - 2)%nat. split; [lia|]. split; [|split; [done|]].
  - pose proof (window_start_spec INPUT_BUF_LEN INPUT_BUF_LEN_nonneg
                  (p ++ xff :: xd8 :: c')) as Hw.
    rewrite length_app in Hw. simpl in Hc. cbn [length] in Hw. lia.
  - intros i [_ Hi]. by apply Hmin.
Qed.

Lemma jpeg_frame_shape f :
  jpeg_frame f ->
  (exists c', f = xff :: xd8 :: c') /\ (4 <= length f)%nat.
Proof.
  intros [[body ->] _]. split; [by eexists|].
  rewrite !length_app. simpl. lia.
Qed.

(** Two offsets of a list that pass a test are two entries of the list
    that pass it. *)
Lemma filter_two (P : nat -> bool) (l : list nat) (x y : nat) :
  x ∈ l -> y ∈ l -> x <> y -> P x = true -> P y = true ->
  (2 <= length (List.filter P l))%nat.
Proof.
  intros Hx Hy Hxy Px Py.
  assert (In x (List.filter P l)) as Hx'
    by (apply filter_In; split; [by apply list_elem_of_In|done]).
  assert (In y (List.filter P l)) as Hy'
    by (apply filter_In; split; [by apply list_elem_of_In|done]).
  destruct (List.filter P l) as [|a [|b l']]; simpl in *; [done| |lia].
  destruct Hx' as [<-|[]], Hy' as [<-|[]]. done.
Qed.

(** The file as the reads bring it, whatever the cuts: [acc] is what the
    accumulator holds of the frames [fs] that are still to be handed out,
    [n0] the offset in the file at which the first of them begins. *)
Lemma deliver_file (starts : list nat) (rest : list iter_input)
    (chunks : list (list byte)) :
  3 <= INPUT_BUF_LEN ->
  forall (fs : list (list byte)) (acc : list byte) (n0 : nat) (st : state),
  running st = true ->
  jpeg_buf st = acc ->
  Forall jpeg_frame fs ->
  Forall (fun f => Z.of_nat (length f) + INPUT_BUF_LEN + 1
                   <= JPEG_BUF_LEN - 1) fs ->
  acc ++ concat chunks = concat fs ->
  Forall (fun c => c <> [] /\ Z.of_nat (length c) <= INPUT_BUF_LEN) chunks ->
  one_start_per_read starts (n0 + length acc) chunks = true ->
  (forall b, b ∈ tail (frame_starts n0 fs) -> b ∈ starts) ->
  match fs with
  | f :: _ :: _ => (length acc < length f + 2)%nat
  | _ => True
  end ->
  exists st2,
    frames_of (loop (map feed chunks ++ feed [] :: rest) st).1
      = removelast fs /\
    (loop (map feed chunks ++ feed [] :: rest) st).2 = Break st2 /\
    jpeg_buf st2 = default [] (last fs).
Proof using INPUT_BUF_LEN_nonneg.
  intros Hibl.
  induction chunks as [|c cs IH];
    intros fs acc n0 st Hrun Hbuf Hfs Hfit Hfile Hcs Hone Hsub Hshort.
  - (* the end of the input *)
    cbn [concat] in Hfile. rewrite app_nil_r in Hfile. subst acc.
    cbn [map app]. rewrite main_loop_feed_eof by done. cbn [fst snd].
    exists (set_running false st). split; [|split; [done|]];
      cbn [frames_of jpeg_buf set_running].
    + destruct fs as [|f [|g fs]]; [done..|]. exfalso.
      apply Forall_cons in Hfs as [_ Hfs]. apply Forall_cons in Hfs as [Hg _].
      apply jpeg_frame_shape in Hg as [_ Hg].
      rewrite Hfile in Hshort. cbn [concat] in Hshort.
      rewrite !length_app in Hshort. lia.
    + rewrite Hfile.
      destruct fs as [|f [|g fs]]; [done|by cbn; rewrite app_nil_r|].
      exfalso.
      apply Forall_cons in Hfs as [_ Hfs]. apply Forall_cons in Hfs as [Hg _].
      apply jpeg_frame_shape in Hg as [_ Hg].
      rewrite Hfile in Hshort. cbn [concat] in Hshort.
      rewrite !length_app in Hshort. lia.
  - apply Forall_cons in Hcs as [[Hc Hclen] Hcs].
    cbn [one_start_per_read] in Hone.
    apply andb_true_iff in Hone as [Hone1 Hone].
    apply Nat.leb_le in Hone1.
    cbn [concat] in Hfile. rewrite app_assoc in Hfile.
    replace (n0 + length acc + length c)%nat
      with (n0 + length (acc ++ c))%nat in Hone
      by (rewrite length_app; lia).
    set (acc' := acc ++ c) in *.
    assert (length acc' = length acc + length c)%nat as Hlen'
      by (unfold acc'; by rewrite length_app).
    (* what an iteration without a hit does *)
    assert (forall fs',
              Z.of_nat (length acc') <= JPEG_BUF_LEN - 1 ->
              find_separator INPUT_BUF_LEN auto acc' = None ->
              (exists st2,
                 frames_of (loop (map feed cs ++ feed [] :: rest)
                              (set_jpeg_buf acc' st)).1 = fs' /\
                 (loop (map feed cs ++ feed [] :: rest)
                    (set_jpeg_buf acc' st)).2 = Break st2 /\
                 jpeg_buf st2 = default [] (last fs)) ->
              exists st2,
                frames_of (loop (map feed (c :: cs) ++ feed [] :: rest) st).1
                  = fs' /\
                (loop (map feed (c :: cs) ++ feed [] :: rest) st).2
                  = Break st2 /\
                jpeg_buf st2 = default [] (last fs)) as Hquiet.
    { intros fs' Hroom Hnone (st2 & Hf2 & Ho2 & Hb2).
      pose proof (loop_body_feed_no_hit INPUT_BUF_LEN JPEG_BUF_LEN auto
                    INPUT_BUF_LEN_nonneg st c Hc) as Hb.
      rewrite Hbuf in Hb. fold acc' in Hb.
      specialize (Hb ltac:(unfold jpeg_size; rewrite Hbuf; lia) Hnone).
      cbn [map app]. rewrite (main_loop_step _ _ _ _ _ _ _ _ Hrun Hb).
      cbn [in_signal feed fst snd]. exists st2.
      by rewrite frames_of_app, Hf2. }
    destruct fs as [|f [|g fs]].
    + (* no frame left: no byte left *)
      exfalso. cbn [concat] in Hfile. apply app_eq_nil in Hfile as [Hnil _].
      unfold acc' in Hnil. by apply app_eq_nil in Hnil as [_ ->].
    + (* the last frame: no separator ahead *)
      apply Forall_cons in Hfs as [Hf _]. apply Forall_cons in Hfit as [Hff _].
      cbn [concat] in Hfile. rewrite app_nil_r in Hfile.
      assert (length f = length acc' + length (concat cs))%nat as Hlf
        by (by rewrite <- Hfile, length_app).
      apply Hquiet; [lia| |].
      * apply find_separator_None; [done|]. intros i _.
        apply (no_occurrence_prefix _ acc' (concat cs)); [done|].
        rewrite Hfile. by destruct Hf as [_ Hno].
      * apply (IH [f] acc' n0); try done.
        -- by apply Forall_singleton.
        -- by apply Forall_singleton.
        -- cbn [concat]. by rewrite app_nil_r.
    + (* a frame [f], the frame [g] after it, and the rest *)
      pose proof Hfs as Hfs0.
      apply Forall_cons in Hfs as [Hf Hfs]. apply Forall_cons in Hfs as [Hg Hfs].
      pose proof Hfit as Hfit0.
      apply Forall_cons in Hfit as [Hff Hfit].
      destruct (jpeg_frame_shape g Hg) as [[c' Hgc] Hglen].
      destruct (jpeg_frame_shape f Hf) as [_ Hflen].
      assert (acc' ++ concat cs = f ++ xff :: xd8 :: (c' ++ concat fs))
        as Hfile'.
      { rewrite Hfile. cbn [concat]. by rewrite Hgc. }
      destruct (boundary_is_first_separator f (c' ++ concat fs) Hf)
        as (Hat & _ & Hfirst).
      rewrite <- Hfile' in Hat, Hfirst.
      assert (forall i, (i + 4 <= length acc')%nat ->
                occurs_at (JPEG_END ++ JPEG_START) acc' i <->
                occurs_at (JPEG_END ++ JPEG_START) (acc' ++ concat cs) i)
        as Hlift.
      { intros i Hi. symmetry. by apply occurs_at_app_l. }
      destruct (decide (length acc' < length f + 2)%nat) as [Hstill|Hnow].
      * (* the [D8] of [g] has not come *)
        apply Hquiet; [lia| |].
        -- apply find_separator_None; [done|]. intros i _ Ho.
           pose proof (occurs_at_length (JPEG_END ++ JPEG_START) acc' i
                         ltac:(done) Ho) as Hi.
           change (length (JPEG_END ++ JPEG_START)) with 4%nat in Hi.
           apply (Hfirst i); [lia|]. by apply Hlift.
        -- by apply (IH (f :: g :: fs) acc' n0).
      * (* the [D8] of [g] has come: [f] is handed out *)
        assert (find_separator INPUT_BUF_LEN auto acc'
                = Some (Z.of_nat (length f - 2))) as Hk.
        { apply find_separator_Some; [done|].
          exists (length f - 2)%nat. split; [done|]. split; [|split].
          - pose proof (window_start_spec INPUT_BUF_LEN INPUT_BUF_LEN_nonneg
                          acc') as Hw. lia.
          - apply Hlift; [lia|done].
          - intros i [_ Hi] Ho. apply (Hfirst i); [lia|].
            apply Hlift; [lia|done]. }
        pose proof (loop_body_feed_hit INPUT_BUF_LEN JPEG_BUF_LEN auto
                      INPUT_BUF_LEN_nonneg st c (Z.of_nat (length f - 2)) Hc)
          as Hb.
        rewrite Hbuf in Hb. fold acc' in Hb.
        specialize (Hb ltac:(unfold jpeg_size; rewrite Hbuf; lia) Hk).
        replace (Z.to_nat (frame_size auto (Z.of_nat (length f - 2))))
          with (length f) in Hb by (unfold frame_size; simpl; lia).
        replace (Z.to_nat (rem_start auto (Z.of_nat (length f - 2))))
          with (length f) in Hb by (unfold rem_start; simpl; lia).
        assert (take (length f) acc' = f) as Htake.
        { rewrite <- (take_app_le acc' (concat cs)) by lia.
          by rewrite Hfile', take_app_length. }
        assert (drop (length f) acc' ++ concat cs = concat (g :: fs))
          as Hdrop.
        { rewrite <- drop_app_le by lia.
          rewrite Hfile. cbn [concat]. by rewrite drop_app_length. }
        rewrite Htake in Hb.
        set (acc'' := drop (length f) acc') in *.
        assert (length acc'' = length acc' - length f)%nat as Hlen''
          by (unfold acc''; by rewrite length_drop).
        assert (exists st2,
                  frames_of (loop (map feed cs ++ feed [] :: rest)
                               (set_jpeg_buf acc'' st)).1
                    = removelast (g :: fs) /\
                  (loop (map feed cs ++ feed [] :: rest)
                     (set_jpeg_buf acc'' st)).2 = Break st2 /\
                  jpeg_buf st2 = default [] (last (g :: fs)))
          as (st2 & Hf2 & Ho2 & Hb2); [apply (IH (g :: fs) acc''
                                          (n0 + length f)%nat)| ].
        -- done.
        -- done.
        -- by apply Forall_cons in Hfs0 as [_ ?].
        -- done.
        -- done.
        -- done.
        -- by replace (n0 + length f + length acc'')%nat
             with (n0 + length acc')%nat by lia.
        -- intros b Hb'. apply Hsub. cbn [frame_starts tail] in *.
           by apply list_elem_of_further.
        -- destruct fs as [|h fs']; [done|].
           destruct (decide (length acc'' < length g + 2)%nat); [done|].
           exfalso.
           assert (2 <= length (List.filter
                                  (brings_start (n0 + length acc) (length c))
                                  starts))%nat; [|lia].
           apply (filter_two _ _ (n0 + length f)%nat
                               (n0 + length f + length g)%nat).
           ++ apply Hsub. cbn [frame_starts tail]. apply list_elem_of_here.
           ++ apply Hsub. cbn [frame_starts tail].
              apply list_elem_of_further, list_elem_of_here.
           ++ lia.
           ++ unfold brings_start. apply andb_true_iff.
              split; [apply Nat.leb_le|apply Nat.ltb_lt]; lia.
           ++ unfold brings_start. apply andb_true_iff.
              split; [apply Nat.leb_le|apply Nat.ltb_lt]; lia.
        -- exists st2. cbn [map app].
           rewrite (main_loop_step _ _ _ _ _ _ _ _ Hrun Hb).
           cbn [in_signal feed fst snd]. split; [|split; [done|]].
           ++ rewrite frames_of_app, Hf2. cbn [frames_of].
              rewrite frames_of_app, frames_of_jpeg_ready.
              cbn [frames_of app]. by destruct fs.
           ++ rewrite Hb2. by destruct fs.
Qed.

End Frames.

(** C3.  A file of K frames, each beginning with [FF D8], ending with
    [FF D9] and free of [FF D9 FF D8] inside, and each leaving room in
    [jpeg_buf] for one more read and one more byte, piped in by reads of 1
    to [INPUT_BUF_LEN] bytes that cut the file anywhere, inside a frame,
    at the end of one or across it, but none of which brings the
    beginning of two frames, followed by the end of the input: the
    segmenter hands out the first K - 1 frames, byte for byte and in
    order, and nothing else; the last frame is in the accumulator when
    the end of the input makes [main] shut down and return 0. *)
Theorem segmenter_emits_all_but_last_frame
    (INPUT_BUF_LEN JPEG_BUF_LEN : Z) (frames chunks : list (list byte))
    (rest : list iter_input) (sd : shutdown_input) (st : state) :
  3 <= INPUT_BUF_LEN ->
  Forall jpeg_frame frames ->
  Forall (fun f => Z.of_nat (length f) + INPUT_BUF_LEN + 1
                   <= JPEG_BUF_LEN - 1) frames ->
  concat chunks = concat frames ->
  Forall (fun c => c <> [] /\ Z.of_nat (length c) <= INPUT_BUF_LEN) chunks ->
  one_start_per_read (tail (frame_starts 0 frames)) 0 chunks = true ->
  jpeg_buf st = [] -> running st = true ->
  shutdown_succeeds sd ->
  frames_of (main_from_lock INPUT_BUF_LEN JPEG_BUF_LEN None 0
               (map feed chunks ++ feed [] :: rest) sd st).1
    = removelast frames /\
  (main_from_lock INPUT_BUF_LEN JPEG_BUF_LEN None 0
     (map feed chunks ++ feed [] :: rest) sd st).2 = Some 0 /\
  exists st2,
    (main_loop INPUT_BUF_LEN JPEG_BUF_LEN (separator_setup None)
       (map feed chunks ++ feed [] :: rest) st).2 = Break st2 /\
    jpeg_buf st2 = default [] (last frames).
Proof.
  intros Hibl Hframes Hfit Hfile Hchunks Hone Hbuf Hrun Hsd.
  assert (0 <= INPUT_BUF_LEN) as Hpos by lia.
  pose proof (deliver_file INPUT_BUF_LEN JPEG_BUF_LEN Hpos
                (tail (frame_starts 0 frames)) rest chunks Hibl
                frames [] 0%nat st Hrun Hbuf Hframes Hfit Hfile Hchunks Hone)
    as Hdel.
  destruct Hdel as (st2 & Hf & Ho & Hlast); [done| |].
  { destruct frames as [|f [|g frames]]; [done..|]. simpl. lia. }
  unfold main_from_lock. cbn [failed Z.eqb negb].
  destruct (main_loop _ _ _ _ st) as [tr o]. cbn [fst snd] in Hf, Ho.
  subst o. pose proof (frames_of_shutdown sd st2) as Hfs2.
  rewrite shutdown_all_ok in * by done. cbn [fst snd] in *.
  split; [|split; [done|by exists st2]].
  change (frames_of (EvLock jpeg_mutex :: ?t)) with (frames_of t).
  by rewrite frames_of_app, Hf, Hfs2, app_nil_r.
Qed.

(** The file F1 F2 F3 (F3 the smallest frame), read in three pieces that
    ignore the frames: 8 bytes (F1 and the first byte of F2), 1 byte, and
    the other 8.  F1 and F2 are handed out. *)
Lemma segmenter_emits_all_but_last_frame_witness :
  frames_of (main_from_lock input_buf_16k jpeg_buf_2m None 0
               (map feed [take 8 (frame_F1 ++ frame_F2 ++ tiny_jpeg);
                          take 1 (drop 8 (frame_F1 ++ frame_F2 ++ tiny_jpeg));
                          drop 9 (frame_F1 ++ frame_F2 ++ tiny_jpeg)]
                  ++ feed [] :: [])
               sd_ok one_client).1
    = removelast [frame_F1; frame_F2; tiny_jpeg] /\
  (main_from_lock input_buf_16k jpeg_buf_2m None 0
     (map feed [take 8 (frame_F1 ++ frame_F2 ++ tiny_jpeg);
                take 1 (drop 8 (frame_F1 ++ frame_F2 ++ tiny_jpeg));
                drop 9 (frame_F1 ++ frame_F2 ++ tiny_jpeg)]
        ++ feed [] :: [])
     sd_ok one_client).2 = Some 0 /\
  exists st2,
    (main_loop input_buf_16k jpeg_buf_2m (separator_setup None)
       (map feed [take 8 (frame_F1 ++ frame_F2 ++ tiny_jpeg);
                  take 1 (drop 8 (frame_F1 ++ frame_F2 ++ tiny_jpeg));
                  drop 9 (frame_F1 ++ frame_F2 ++ tiny_jpeg)]
          ++ feed [] :: []) one_client).2 = Break st2 /\
    jpeg_buf st2 = default [] (last [frame_F1; frame_F2; tiny_jpeg]).
Proof.
  apply (segmenter_emits_all_but_last_frame input_buf_16k jpeg_buf_2m
           [frame_F1; frame_F2; tiny_jpeg]
           [take 8 (frame_F1 ++ frame_F2 ++ tiny_jpeg);
            take 1 (drop 8 (frame_F1 ++ frame_F2 ++ tiny_jpeg));
            drop 9 (frame_F1 ++ frame_F2 ++ tiny_jpeg)]
           [] sd_ok one_client).
  - unfold input_buf_16k. lia.
  - repeat apply Forall_cons_2; [| | |apply Forall_nil_2].
    + split; [by exists [x0a; x0b; x0c]|].
      apply memmem_None. vm_compute. reflexivity.
    + split; [by exists [x0d; x0e]|].
      apply memmem_None. vm_compute. reflexivity.
    + split; [by exists []|].
      apply memmem_None. vm_compute. reflexivity.
  - repeat constructor; vm_compute; discriminate.
  - vm_compute. reflexivity.
  - repeat constructor; vm_compute; discriminate.
  - vm_compute. reflexivity.
  - reflexivity.
  - reflexivity.
  - repeat split.
Defined.

(** C3, as the specification words it, fails on its own second scenario:
    the two frames F1 and F2, one per read, then the end of the input.  The
    segmenter hands out F1 only: F2 is never followed by a separator, and
    at the end of the input [main] shuts down with F2 in the accumulator. *)
Lemma second_of_two_frames_is_not_emitted :
  frames_of (main_from_lock input_buf_16k jpeg_buf_2m None 0
               [feed frame_F1; feed frame_F2; feed []] sd_ok one_client).1
    = [frame_F1] /\
  (main_from_lock input_buf_16k jpeg_buf_2m None 0
     [feed frame_F1; feed frame_F2; feed []] sd_ok one_client).2 = Some 0 /\
  (main_loop input_buf_16k jpeg_buf_2m (separator_setup None)
     [feed frame_F1; feed frame_F2; feed []] one_client).2
    = Break (set_running false (set_jpeg_buf frame_F2 one_client)).
Proof. split; [|split]; vm_compute; reflexivity. Qed.

(* ================================================================== *)
(** * The largest frame *)
(* ================================================================== *)

Lemma frames_of_main_from_lock INPUT_BUF_LEN JPEG_BUF_LEN opt_s inputs sd st :
  frames_of (main_from_lock INPUT_BUF_LEN JPEG_BUF_LEN opt_s 0 inputs sd st).1
  = frames_of (main_loop INPUT_BUF_LEN JPEG_BUF_LEN (separator_setup opt_s)
                 inputs st).1.
Proof.
  unfold main_from_lock. cbn [failed Z.eqb negb].
  destruct (main_loop _ _ _ inputs st) as [tr [st'|st'|rc]]; [done| |done].
  pose proof (frames_of_shutdown sd st') as Hs.
  destruct (shutdown sd st') as [tr' rc]. cbn [fst snd] in *.
  change (frames_of (EvLock jpeg_mutex :: ?t)) with (frames_of t).
  by rewrite frames_of_app, Hs, app_nil_r.
Qed.

Section Largest.

Variables INPUT_BUF_LEN JPEG_BUF_LEN : Z.
Variable cfg : sep_config.
Hypothesis INPUT_BUF_LEN_nonneg : 0 <= INPUT_BUF_LEN.

Local Abbreviation body := (loop_body INPUT_BUF_LEN JPEG_BUF_LEN cfg).
Local Abbreviation loop := (main_loop INPUT_BUF_LEN JPEG_BUF_LEN cfg).

Lemma frame_ready_frames inp st buf k :
  frames_of (frame_ready cfg inp st buf k).1
  = [take (Z.to_nat (frame_size cfg k)) buf].
Proof.
  unfold frame_ready.
  destruct (failed (in_broadcast_rc inp)); [|destruct (failed (in_unlock_rc inp));
    [|destruct (failed (in_lock_rc inp))]]; cbn [fst];
    rewrite ?frames_of_app; cbn [frames_of];
    rewrite frames_of_jpeg_ready; done.
Qed.

Lemma accept_client_frames inp st : frames_of (accept_client inp st).1 = [].
Proof.
  unfold accept_client.
  destruct (in_accept inp); [|done].
  destruct (failed (in_create_rc inp)); [done|].
  destruct (failed (in_clients_lock_rc inp)); [done|].
  by destruct (failed (in_clients_unlock_rc inp)).
Qed.

(** The frames of one iteration: none, or the one the search delimits in
    an accumulator that fits. *)
Lemma loop_body_frames inp st :
  frames_of (body inp st).1 = [] \/
  exists chunk k,
    in_read inp = ReadBytes chunk /\
    Z.of_nat (length chunk) <= JPEG_BUF_LEN - 1 - jpeg_size st /\
    find_separator INPUT_BUF_LEN cfg (jpeg_buf st ++ chunk) = Some k /\
    frames_of (body inp st).1
    = [take (Z.to_nat (frame_size cfg k)) (jpeg_buf st ++ chunk)].
Proof.
  unfold loop_body.
  destruct (in_read inp) as [e|chunk] eqn:Hr.
  { left. by destruct (e =? EINTR). }
  destruct (Z.of_nat (length chunk) =? 0); [by left|].
  destruct (_ >? _) eqn:Hfit; [by left|].
  destruct (find_separator INPUT_BUF_LEN cfg (jpeg_buf st ++ chunk))
    as [k|] eqn:Hk.
  - right. exists chunk, k. split; [done|]. split; [lia|]. split; [done|].
    pose proof (frame_ready_frames inp st (jpeg_buf st ++ chunk) k) as Hf.
    destruct (frame_ready cfg inp st (jpeg_buf st ++ chunk) k) as [tr [st'|rc]];
      cbn [fst] in *; [|done].
    pose proof (accept_client_frames inp st') as Ha.
    destruct (accept_client inp st') as [tr' o]. cbn [fst frames_of] in *.
    by rewrite frames_of_app, Hf, Ha.
  - left.
    pose proof (accept_client_frames inp (set_jpeg_buf (jpeg_buf st ++ chunk) st))
      as Ha.
    by destruct (accept_client inp _) as [tr' o].
Qed.

(** Once the accumulator holds [JPEG_BUF_LEN - 1] bytes without a
    separator, whatever the next read brings empties it. *)
Lemma full_accumulator_is_discarded (cs : list (list byte)) (next : list byte)
    (st : state) :
  running st = true -> jpeg_buf st = [] ->
  Forall (fun c => c <> []) cs ->
  Z.of_nat (length (concat cs)) = JPEG_BUF_LEN - 1 ->
  input_separator cfg <> [] ->
  (forall i, ~ occurs_at (input_separator cfg) (concat cs) i) ->
  next <> [] ->
  frames_of (loop (map feed cs ++ [feed next; feed []]) st).1 = [] /\
  (loop (map feed cs ++ [feed next; feed []]) st).2
  = Break (set_running false (set_jpeg_buf [] st)).
Proof using INPUT_BUF_LEN_nonneg.
  intros Hrun Hbuf Hne Hlen Hsep Hno Hnext.
  destruct (main_loop_accumulate INPUT_BUF_LEN JPEG_BUF_LEN cfg
              INPUT_BUF_LEN_nonneg cs [feed next; feed []] st)
    as (tr & Hf & Hl); try done.
  { rewrite Hbuf. simpl. lia. }
  { by rewrite Hbuf. }
  rewrite Hl, Hbuf. cbn [app fst snd].
  set (st1 := set_jpeg_buf (concat cs) st).
  assert (body (feed next) st1 = ([EvRead], Continue (set_jpeg_buf [] st1)))
    as Hb.
  { apply (loop_body_discard _ _ _ _ _ next); [done..|].
    unfold jpeg_size, st1. cbn [jpeg_buf set_jpeg_buf].
    destruct next; [done|]. cbn [length]. lia. }
  assert (running st1 = true) as Hrun1 by done.
  rewrite (main_loop_step _ _ _ _ _ _ _ _ Hrun1 Hb). cbn [in_signal feed].
  rewrite main_loop_feed_eof by done. cbn [fst snd].
  split; [|done]. by rewrite !frames_of_app, Hf.
Qed.

End Largest.

Lemma no_d8_no_separator (tail : list byte) :
  Forall (fun b => b <> xd8) tail ->
  forall j, ~ occurs_at (JPEG_END ++ JPEG_START) (JPEG_START ++ tail) j.
Proof.
  intros Htail j Ho.
  apply (occurs_at_lookup _ _ _ 3 xd8) in Ho; [|done].
  rewrite lookup_app_r in Ho by (simpl; lia).
  by apply (Forall_lookup_1 _ _ _ _ Htail) in Ho.
Qed.

Lemma Forall_concat_replicate {A} (P : A -> Prop) n (l : list A) :
  Forall P l -> Forall P (concat (replicate n l)).
Proof.
  intros Hl. induction n as [|n IH]; [constructor|].
  simpl. by apply Forall_app.
Qed.

Lemma length_concat_replicate {A} n (l : list A) :
  length (concat (replicate n l)) = (n * length l)%nat.
Proof.
  induction n as [|n IH]; [done|]. simpl. rewrite length_app, IH. lia.
Qed.

Lemma length_zeros n : 0 <= n -> Z.of_nat (length (zeros n)) = n.
Proof. intros Hn. unfold zeros. rewrite length_replicate. lia. Qed.

Lemma zeros_no_d8 n : Forall (fun b => b <> xd8) (zeros n).
Proof. unfold zeros. by apply Forall_replicate. Qed.

Lemma concat_full_size_frame_reads :
  concat full_size_frame_reads
  = JPEG_START
      ++ (zeros 16382 ++ concat (replicate 126 (zeros 16384)) ++ zeros 16381)
      ++ JPEG_END.
Proof.
  unfold full_size_frame_reads.
  rewrite concat_cons, concat_app, concat_cons. cbn [concat].
  by rewrite app_nil_r, <- !app_assoc.
Qed.

(** C5.  A frame is handed out only once the separator bytes behind it are
    in the accumulator, and the accumulator takes at most
    [JPEG_BUF_LEN - 1] bytes.  So: a read that would take the accumulator to
    [JPEG_BUF_LEN] bytes or more empties it; every frame handed out leaves
    room for what the search needs behind it (2 bytes in the automatic
    mode, the whole separator with [-s]) within [JPEG_BUF_LEN - 1] bytes;
    and in the automatic mode a frame of exactly [JPEG_BUF_LEN - 3] bytes
    is handed out when the [FF D8] of the next frame arrives. *)
Theorem frame_needs_room_for_separator
    (INPUT_BUF_LEN JPEG_BUF_LEN : Z) (opt_s : option (list byte))
    (inp : iter_input) (st : state) (chunk : list byte) :
  0 <= INPUT_BUF_LEN ->
  in_read inp = ReadBytes chunk -> chunk <> [] ->
  (JPEG_BUF_LEN <= jpeg_size st + Z.of_nat (length chunk) ->
   loop_body INPUT_BUF_LEN JPEG_BUF_LEN (separator_setup opt_s) inp st
   = ([EvRead], Continue (set_jpeg_buf [] st))) /\
  (forall f,
     f ∈ frames_of (loop_body INPUT_BUF_LEN JPEG_BUF_LEN
                      (separator_setup opt_s) inp st).1 ->
     Z.of_nat (length f)
     + match opt_s with None => 2 | Some s => Z.of_nat (length s) end
     <= JPEG_BUF_LEN - 1) /\
  (forall f,
     opt_s = None -> no_failure inp -> 2 <= INPUT_BUF_LEN ->
     jpeg_frame f -> Z.of_nat (length f) = JPEG_BUF_LEN - 3 ->
     jpeg_buf st ++ chunk = f ++ JPEG_START ->
     frames_of (loop_body INPUT_BUF_LEN JPEG_BUF_LEN
                  (separator_setup opt_s) inp st).1 = [f]).
Proof.
  intros Hpos Hr Hne. split; [|split].
  - intros Hbig. apply (loop_body_discard _ _ _ _ _ chunk); [done..|lia].
  - intros f Hf.
    destruct (loop_body_frames INPUT_BUF_LEN JPEG_BUF_LEN (separator_setup opt_s)
                inp st) as [Hnone|(chunk' & k & Hr' & Hfit & Hk & Hfr)].
    { rewrite Hnone in Hf. by apply elem_of_nil in Hf. }
    rewrite Hr in Hr'. injection Hr' as <-.
    rewrite Hfr in Hf. apply list_elem_of_singleton in Hf as ->.
    apply find_separator_bounds in Hk as [Hk0 Hk1]; [|done].
    rewrite length_app in Hk1. unfold jpeg_size in Hfit.
    rewrite length_take, length_app.
    unfold input_separator_len in Hk1. unfold frame_size.
    destruct opt_s as [s|]; simpl in *; lia.
  - intros f -> Hok HIBL Hframe Hlen Hacc.
    destruct (boundary_is_first_separator f [] Hframe) as (_ & Hlen2 & _).
    pose proof (find_separator_boundary INPUT_BUF_LEN Hpos f [] Hframe) as Hk.
    specialize (Hk ltac:(simpl; lia)).
    change (xff :: xd8 :: []) with JPEG_START in Hk. rewrite <- Hacc in Hk.
    destruct (loop_body_hit INPUT_BUF_LEN JPEG_BUF_LEN (separator_setup None)
                Hpos inp st chunk (Z.of_nat (length f) - 2))
      as (tr & st' & Hb & Hf & _); try done.
    { apply (f_equal length) in Hacc. rewrite !length_app in Hacc.
      simpl in Hacc. unfold jpeg_size. lia. }
    rewrite Hb. cbn [fst]. rewrite Hf, Hacc. f_equal.
    replace (Z.to_nat (frame_size (separator_setup None)
                         (Z.of_nat (length f) - 2)))
      with (length f) by (unfold frame_size; simpl; lia).
    apply take_app_length.
Qed.

(** With [JPEG_BUF_LEN] 10: the 7 bytes of F1 and the [FF] behind them are
    in the accumulator; a read of three bytes empties it, a read of the one
    byte [D8] hands out F1. *)
Lemma frame_needs_room_for_separator_witness :
  loop_body 4 10 (separator_setup None) (feed [xd8; x0d; x0e])
            (set_jpeg_buf (frame_F1 ++ [xff]) one_client)
    = ([EvRead], Continue (set_jpeg_buf []
                             (set_jpeg_buf (frame_F1 ++ [xff]) one_client))) /\
  frames_of (loop_body 4 10 (separator_setup None) (feed [xd8])
               (set_jpeg_buf (frame_F1 ++ [xff]) one_client)).1
    = [frame_F1].
Proof.
  split.
  - refine (proj1 (frame_needs_room_for_separator 4 10 None
                     (feed [xd8; x0d; x0e])
                     (set_jpeg_buf (frame_F1 ++ [xff]) one_client)
                     [xd8; x0d; x0e] _ _ _) _).
    + lia.
    + reflexivity.
    + discriminate.
    + vm_compute. discriminate.
  - refine (proj2 (proj2 (frame_needs_room_for_separator 4 10 None
                            (feed [xd8])
                            (set_jpeg_buf (frame_F1 ++ [xff]) one_client)
                            [xd8] _ _ _)) frame_F1 _ _ _ _ _ _).
    + lia.
    + reflexivity.
    + discriminate.
    + reflexivity.
    + repeat split.
    + lia.
    + split; [by exists [x0a; x0b; x0c]|].
      apply memmem_None. vm_compute. reflexivity.
    + vm_compute. reflexivity.
    + reflexivity.
Defined.

(** C5, as the specification words it, fails for the frame of exactly
    [JPEG_BUF_LEN - 1] bytes.  With the buffer sizes the specification
    recommends: the frame fills the accumulator to [JPEG_BUF_LEN - 1]
    bytes, so that the read which brings the [FF D8] of the next frame
    cannot be appended and empties the accumulator instead.  No frame is
    handed out. *)
Lemma frame_of_full_size_is_discarded :
  Z.of_nat (length (concat full_size_frame_reads)) = jpeg_buf_2m - 1 /\
  jpeg_frame (concat full_size_frame_reads) /\
  Forall (fun c => 0 < Z.of_nat (length c) <= input_buf_16k)
         full_size_frame_reads /\
  frames_of (main_from_lock input_buf_16k jpeg_buf_2m None 0
               (map feed full_size_frame_reads ++ [feed tiny_jpeg; feed []])
               sd_ok one_client).1 = [].
Proof.
  assert (Z.of_nat (length (concat full_size_frame_reads)) = jpeg_buf_2m - 1)
    as Hlen.
  { rewrite concat_full_size_frame_reads, !length_app, length_concat_replicate.
    unfold zeros. rewrite !length_replicate.
    change (length JPEG_START) with 2%nat. change (length JPEG_END) with 2%nat.
    unfold jpeg_buf_2m. lia. }
  assert (jpeg_frame (concat full_size_frame_reads)) as Hframe.
  { rewrite concat_full_size_frame_reads. split; [by eexists|].
    apply no_d8_no_separator.
    repeat (apply Forall_app; split);
      try apply zeros_no_d8;
      try (apply Forall_concat_replicate; apply zeros_no_d8).
    all: repeat constructor; discriminate. }
  assert (Forall (fun c => 0 < Z.of_nat (length c) <= input_buf_16k)
                 full_size_frame_reads) as Hreads.
  { unfold full_size_frame_reads, input_buf_16k.
    apply Forall_cons; split; [|apply Forall_app; split].
    - rewrite length_app, Nat2Z.inj_add, length_zeros by lia.
      change (length JPEG_START) with 2%nat. lia.
    - apply Forall_replicate. rewrite length_zeros; lia.
    - apply Forall_singleton.
      rewrite length_app, Nat2Z.inj_add, length_zeros by lia.
      change (length JPEG_END) with 2%nat. lia. }
  split; [done|]. split; [done|]. split; [done|].
  rewrite frames_of_main_from_lock.
  apply (full_accumulator_is_discarded input_buf_16k jpeg_buf_2m
           (separator_setup None)).
  - unfold input_buf_16k. lia.
  - reflexivity.
  - reflexivity.
  - eapply Forall_impl; [exact Hreads|].
    intros c Hc ->. cbn [length] in Hc. lia.
  - exact Hlen.
  - discriminate.
  - apply Hframe.
  - discriminate.
Qed.

(* ================================================================== *)
(** * What an iteration leaves behind *)
(* ================================================================== *)

(** [accept_client] touches neither [jpeg_buf] nor [running]. *)
Lemma accept_client_state inp st :
  match (accept_client inp st).2 with
  | Continue st' | Break st' =>
      jpeg_buf st' = jpeg_buf st /\ running st' = running st
  | Return _ => True
  end.
Proof.
  unfold accept_client.
  destruct (in_accept inp); [|done].
  destruct (failed (in_create_rc inp)); [done|].
  destruct (failed (in_clients_lock_rc inp)); [done|].
  by destruct (failed (in_clients_unlock_rc inp)).
Qed.

Lemma frame_ready_state cfg inp st buf k st1 :
  (frame_ready cfg inp st buf k).2 = inl st1 ->
  st1 = set_jpeg_buf
          (take (Z.to_nat (rem_len cfg (Z.of_nat (length buf)) k))
                (drop (Z.to_nat (rem_start cfg k)) buf)) st.
Proof.
  unfold frame_ready.
  destruct (failed (in_broadcast_rc inp)); [done|].
  destruct (failed (in_unlock_rc inp)); [done|].
  destruct (failed (in_lock_rc inp)); [done|].
  by intros [= <-].
Qed.

Section Aftermath.

Variables INPUT_BUF_LEN JPEG_BUF_LEN : Z.
Variable cfg : sep_config.

Local Abbreviation body := (loop_body INPUT_BUF_LEN JPEG_BUF_LEN cfg).
Local Abbreviation loop := (main_loop INPUT_BUF_LEN JPEG_BUF_LEN cfg).

(** The ways an iteration goes on to the next one: the accumulator was
    emptied, or it took the chunk and no separator was found, or it took
    the chunk and a frame was split off. *)
Lemma loop_body_continue inp st tr st' :
  body inp st = (tr, Continue st') ->
  exists chunk,
    in_read inp = ReadBytes chunk /\ chunk <> [] /\
    running st' = running st /\
    ((Z.of_nat (length chunk) > JPEG_BUF_LEN - 1 - jpeg_size st /\
      frames_of tr = [] /\ jpeg_buf st' = []) \/
     (Z.of_nat (length chunk) <= JPEG_BUF_LEN - 1 - jpeg_size st /\
      find_separator INPUT_BUF_LEN cfg (jpeg_buf st ++ chunk) = None /\
      frames_of tr = [] /\ jpeg_buf st' = jpeg_buf st ++ chunk) \/
     (Z.of_nat (length chunk) <= JPEG_BUF_LEN - 1 - jpeg_size st /\
      exists k,
        find_separator INPUT_BUF_LEN cfg (jpeg_buf st ++ chunk) = Some k /\
        frames_of tr
        = [take (Z.to_nat (frame_size cfg k)) (jpeg_buf st ++ chunk)] /\
        jpeg_buf st'
        = take (Z.to_nat (rem_len cfg
                            (Z.of_nat (length (jpeg_buf st ++ chunk))) k))
               (drop (Z.to_nat (rem_start cfg k)) (jpeg_buf st ++ chunk)))).
Proof.
  unfold loop_body.
  destruct (in_read inp) as [e|chunk] eqn:Hr.
  { by destruct (e =? EINTR). }
  destruct (Z.of_nat (length chunk) =? 0) eqn:Hz; [done|].
  assert (chunk <> []) as Hne by (intros ->; simpl in Hz; lia).
  destruct (_ >? _) eqn:Hfit.
  { intros [= <- <-]. exists chunk. repeat split; try done.
    left. split; [lia|done]. }
  destruct (find_separator INPUT_BUF_LEN cfg (jpeg_buf st ++ chunk))
    as [k|] eqn:Hk.
  - pose proof (frame_ready_frames cfg inp st (jpeg_buf st ++ chunk) k) as Hf.
    pose proof (frame_ready_state cfg inp st (jpeg_buf st ++ chunk) k) as Hs.
    destruct (frame_ready cfg inp st (jpeg_buf st ++ chunk) k)
      as [tr1 [st1|rc]]; [|done]. cbn [fst snd] in *.
    specialize (Hs st1 eq_refl).
    pose proof (accept_client_state inp st1) as Ha.
    pose proof (accept_client_frames inp st1) as Haf.
    destruct (accept_client inp st1) as [tr2 o]. cbn [fst snd] in *.
    intros [= <- ->]. destruct Ha as [Hbuf Hrun].
    exists chunk. repeat split; try done.
    { by rewrite Hrun, Hs. }
    right. right. split; [lia|]. exists k. split; [done|]. split.
    + cbn [frames_of]. by rewrite frames_of_app, Hf, Haf.
    + by rewrite Hbuf, Hs.
  - pose proof (accept_client_state inp
                  (set_jpeg_buf (jpeg_buf st ++ chunk) st)) as Ha.
    pose proof (accept_client_frames inp
                  (set_jpeg_buf (jpeg_buf st ++ chunk) st)) as Haf.
    destruct (accept_client inp _) as [tr2 o]. cbn [fst snd] in *.
    intros [= <- ->]. destruct Ha as [Hbuf Hrun].
    exists chunk. repeat split; try done.
    right. left. split; [lia|]. split; [done|]. split; [done|].
    by rewrite Hbuf.
Qed.

(** An iteration that leaves the loop leaves [jpeg_buf] as it was. *)
Lemma loop_body_break inp st tr st' :
  body inp st = (tr, Break st') ->
  jpeg_buf st' = jpeg_buf st /\ frames_of tr = [].
Proof.
  unfold loop_body.
  destruct (in_read inp) as [e|chunk] eqn:Hr.
  { destruct (e =? EINTR); [|done]. by intros [= <- <-]. }
  destruct (Z.of_nat (length chunk) =? 0); [by intros [= <- <-]|].
  destruct (_ >? _); [done|].
  destruct (find_separator INPUT_BUF_LEN cfg (jpeg_buf st ++ chunk)) as [k|].
  - destruct (frame_ready cfg inp st (jpeg_buf st ++ chunk) k)
      as [tr1 [st1|rc]]; [|done].
    unfold accept_client. destruct (in_accept inp); [|done].
    destruct (failed (in_create_rc inp)); [done|].
    destruct (failed (in_clients_lock_rc inp)); [done|].
    by destruct (failed (in_clients_unlock_rc inp)).
  - unfold accept_client. destruct (in_accept inp); [|done].
    destruct (failed (in_create_rc inp)); [done|].
    destruct (failed (in_clients_lock_rc inp)); [done|].
    by destruct (failed (in_clients_unlock_rc inp)).
Qed.

End Aftermath.

(* ================================================================== *)
(** * Invariants of the segmenter *)
(* ================================================================== *)

Lemma frames_of_main_loop_cons INPUT_BUF_LEN JPEG_BUF_LEN cfg inp rest st :
  exists tr2,
    frames_of (main_loop INPUT_BUF_LEN JPEG_BUF_LEN cfg (inp :: rest) st).1
    = (if running st
       then frames_of (loop_body INPUT_BUF_LEN JPEG_BUF_LEN cfg inp st).1
       else []) ++ tr2 /\
    (tr2 = [] \/
     exists st1,
       running st = true /\
       (loop_body INPUT_BUF_LEN JPEG_BUF_LEN cfg inp st).2 = Continue st1 /\
       tr2 = frames_of
               (main_loop INPUT_BUF_LEN JPEG_BUF_LEN cfg rest
                  (if in_signal inp then bye_handler st1 else st1)).1).
Proof.
  cbn [main_loop]. destruct (running st); [|exists []; by split; [|left]].
  destruct (loop_body _ _ _ inp st) as [tr [st1|st1|rc]]; cbn [fst snd].
  - destruct (main_loop _ _ _ rest _) as [tr' o'] eqn:Hl. cbn [fst].
    exists (frames_of tr'). split; [by rewrite frames_of_app|].
    right. exists st1. by rewrite Hl.
  - exists []. split; [by rewrite app_nil_r|by left].
  - exists []. split; [by rewrite app_nil_r|by left].
Qed.

(** A property of the frames of every iteration is a property of the
    frames of the loop. *)
Lemma main_loop_frames_ind INPUT_BUF_LEN JPEG_BUF_LEN cfg
    (P : list byte -> Prop) :
  (forall inp st f,
     f ∈ frames_of (loop_body INPUT_BUF_LEN JPEG_BUF_LEN cfg inp st).1 -> P f) ->
  forall inputs st f,
    f ∈ frames_of (main_loop INPUT_BUF_LEN JPEG_BUF_LEN cfg inputs st).1 -> P f.
Proof.
  intros Hbody inputs. induction inputs as [|inp rest IH]; intros st f.
  - simpl. by intros ?%elem_of_nil.
  - destruct (frames_of_main_loop_cons INPUT_BUF_LEN JPEG_BUF_LEN cfg inp rest st)
      as (tr2 & -> & Htr2).
    intros [Hf|Hf]%elem_of_app.
    + destruct (running st); [by eapply Hbody|by apply elem_of_nil in Hf].
    + destruct Htr2 as [->|(st1 & _ & _ & ->)];
        [by apply elem_of_nil in Hf|by eapply IH].
Qed.

(** X1.  The frames the loop hands out never exceed [JPEG_BUF_LEN - 1]
    bytes, and an accumulator that starts within [JPEG_BUF_LEN - 1] bytes
    stays within it, whatever the reads return: the [memcpy] into
    [jpeg_buf] never runs past the array. *)
Theorem accumulator_never_overflows
    (INPUT_BUF_LEN JPEG_BUF_LEN : Z) (cfg : sep_config)
    (inputs : list iter_input) (st : state) :
  jpeg_size st <= JPEG_BUF_LEN - 1 ->
  (forall f,
     f ∈ frames_of (main_loop INPUT_BUF_LEN JPEG_BUF_LEN cfg inputs st).1 ->
     Z.of_nat (length f) <= JPEG_BUF_LEN - 1) /\
  match (main_loop INPUT_BUF_LEN JPEG_BUF_LEN cfg inputs st).2 with
  | Continue st' | Break st' => jpeg_size st' <= JPEG_BUF_LEN - 1
  | Return _ => True
  end.
Proof.
  intros Hst. split.
  - apply main_loop_frames_ind. clear. intros inp st f Hf.
    destruct (loop_body_frames INPUT_BUF_LEN JPEG_BUF_LEN cfg inp st)
      as [Hnone|(chunk & k & _ & Hfit & _ & Hfr)].
    { rewrite Hnone in Hf. by apply elem_of_nil in Hf. }
    rewrite Hfr in Hf. apply list_elem_of_singleton in Hf as ->.
    rewrite length_take, length_app. unfold jpeg_size in Hfit. lia.
  - revert st Hst. induction inputs as [|inp rest IH]; intros st Hst.
    { simpl. by destruct (running st). }
    cbn [main_loop]. destruct (running st); [|done].
    destruct (loop_body _ _ _ inp st) as [tr [st1|st1|rc]] eqn:Hb;
      cbn [snd]; [| |done].
    + assert (jpeg_size st1 <= JPEG_BUF_LEN - 1) as Hst1.
      { apply loop_body_continue in Hb
          as (chunk & _ & _ & _ & [(_ & _ & Hbuf)|[(Hfit & _ & _ & Hbuf)
                                  |(Hfit & k & _ & _ & Hbuf)]]);
          unfold jpeg_size in *; rewrite Hbuf.
        - simpl. lia.
        - rewrite length_app. lia.
        - rewrite length_take, length_drop, length_app. lia. }
      specialize (IH (if in_signal inp then bye_handler st1 else st1)).
      destruct (main_loop _ _ _ rest _) as [tr' o']. cbn [snd] in *.
      apply IH. destruct (in_signal inp); [|done].
      unfold bye_handler. by destruct (negb (running st1)).
    + apply loop_body_break in Hb as [Hbuf _]. unfold jpeg_size.
      unfold jpeg_size in Hst. rewrite <- Hbuf in Hst.
      destruct (in_signal inp); [|done].
      unfold bye_handler. by destruct (negb (running st1)).
Qed.

Lemma accumulator_never_overflows_witness :
  (forall f,
     f ∈ frames_of (main_loop 8 12 (separator_setup None)
                      [feed frame_F1; feed frame_F2; feed frame_F2]
                      one_client).1 ->
     Z.of_nat (length f) <= 12 - 1) /\
  match (main_loop 8 12 (separator_setup None)
           [feed frame_F1; feed frame_F2; feed frame_F2] one_client).2 with
  | Continue st' | Break st' => jpeg_size st' <= 12 - 1
  | Return _ => True
  end.
Proof.
  apply (accumulator_never_overflows 8 12 (separator_setup None)
           [feed frame_F1; feed frame_F2; feed frame_F2] one_client).
  vm_compute. discriminate.
Defined.

(** X2.  Each [read] hands out at most one frame: the loop never hands out
    more frames than it made reads. *)
Theorem at_most_one_frame_per_read
    (INPUT_BUF_LEN JPEG_BUF_LEN : Z) (cfg : sep_config)
    (inputs : list iter_input) (st : state) :
  (length (frames_of
             (main_loop INPUT_BUF_LEN JPEG_BUF_LEN cfg inputs st).1)
   <= length inputs)%nat.
Proof.
  revert st. induction inputs as [|inp rest IH]; intros st.
  { simpl. lia. }
  destruct (frames_of_main_loop_cons INPUT_BUF_LEN JPEG_BUF_LEN cfg inp rest st)
    as (tr2 & -> & Htr2).
  rewrite length_app. cbn [length].
  assert (length tr2 <= length rest)%nat as H2.
  { destruct Htr2 as [->|(st1 & _ & _ & ->)]; [simpl; lia|apply IH]. }
  assert (length (if running st
                  then frames_of
                         (loop_body INPUT_BUF_LEN JPEG_BUF_LEN cfg inp st).1
                  else []) <= 1)%nat as H1.
  { destruct (running st); [|simpl; lia].
    destruct (loop_body_frames INPUT_BUF_LEN JPEG_BUF_LEN cfg inp st)
      as [->|(chunk & k & _ & _ & _ & ->)]; simpl; lia. }
  lia.
Qed.

(* ================================================================== *)
(** * What the split keeps *)
(* ================================================================== *)

Lemma rejoin_app cfg fs1 fs2 :
  rejoin cfg (fs1 ++ fs2) = rejoin cfg fs1 ++ rejoin cfg fs2.
Proof. unfold rejoin. by rewrite map_app, concat_app. Qed.

(** The frame, the gap and the bytes kept make up the accumulator. *)
Lemma split_rejoins INPUT_BUF_LEN opt_s buf k :
  0 <= INPUT_BUF_LEN ->
  find_separator INPUT_BUF_LEN (separator_setup opt_s) buf = Some k ->
  take (Z.to_nat (frame_size (separator_setup opt_s) k)) buf
    ++ gap (separator_setup opt_s)
    ++ take (Z.to_nat (rem_len (separator_setup opt_s)
                         (Z.of_nat (length buf)) k))
            (drop (Z.to_nat (rem_start (separator_setup opt_s) k)) buf)
  = buf.
Proof.
  intros Hpos Hk. rewrite (remainder_is_suffix INPUT_BUF_LEN) by done.
  apply find_separator_Some in Hk as (j & -> & _ & Ho & _); [|done].
  unfold frame_size, rem_start, gap, input_separator_len.
  destruct opt_s as [s|]; cbn [separator_setup auto_separator input_separator].
  - unfold occurs_at in Ho. cbn [separator_setup input_separator] in Ho.
    rewrite Nat2Z.id.
    replace (Z.to_nat (Z.of_nat j + Z.of_nat (length s)))
      with (j + length s)%nat by lia.
    assert (drop j buf = s ++ drop (j + length s) buf) as Hd.
    { rewrite <- (take_drop (length s) (drop j buf)) at 1.
      by rewrite Ho, drop_drop. }
    by rewrite <- Hd, take_drop.
  - cbn [app]. apply take_drop.
Qed.

(** X3.  As long as the input fits the accumulator (no discard), the loop
    loses no byte and alters none: the frames handed out, put end to end
    (each followed by the separator when the separator comes from [-s]),
    and then the accumulator, are the old accumulator followed by the
    bytes read. *)
Theorem stream_is_conserved
    (INPUT_BUF_LEN JPEG_BUF_LEN : Z) (opt_s : option (list byte))
    (inputs : list iter_input) (st st' : state) (tr : list event) :
  0 <= INPUT_BUF_LEN ->
  main_loop INPUT_BUF_LEN JPEG_BUF_LEN (separator_setup opt_s) inputs st
    = (tr, Continue st') ->
  jpeg_size st + Z.of_nat (length (bytes_read inputs)) <= JPEG_BUF_LEN - 1 ->
  rejoin (separator_setup opt_s) (frames_of tr) ++ jpeg_buf st'
  = jpeg_buf st ++ bytes_read inputs.
Proof.
  intros Hpos. revert st tr.
  induction inputs as [|inp rest IH]; intros st tr Hl Hfit.
  { simpl in Hl. destruct (running st); [|done]. injection Hl as <- <-.
    by rewrite app_nil_r. }
  cbn [main_loop] in Hl. destruct (running st); [|done].
  destruct (loop_body _ _ _ inp st) as [tr1 [st1|st1|rc]] eqn:Hb; [|done..].
  destruct (main_loop _ _ _ rest _) as [tr2 o2] eqn:Hl2.
  injection Hl as <- ->.
  apply loop_body_continue in Hb as (chunk & Hr & _ & _ & Hcases).
  unfold bytes_read in Hfit |- *. cbn [map concat] in Hfit |- *.
  rewrite Hr in Hfit |- *. fold (bytes_read rest) in Hfit |- *.
  rewrite length_app in Hfit.
  assert (rejoin (separator_setup opt_s) (frames_of tr1) ++ jpeg_buf st1
          = jpeg_buf st ++ chunk) as Hstep.
  { destruct Hcases as [(Hbig & _)|[(_ & _ & -> & ->)|(_ & k & Hk & -> & ->)]].
    - lia.
    - done.
    - unfold rejoin. cbn [map concat]. rewrite app_nil_r, <- app_assoc.
      by apply (split_rejoins INPUT_BUF_LEN). }
  assert (jpeg_buf (if in_signal inp then bye_handler st1 else st1)
          = jpeg_buf st1) as Hsame.
  { destruct (in_signal inp); [|done].
    unfold bye_handler. by destruct (negb (running st1)). }
  apply IH in Hl2.
  - rewrite frames_of_app, rejoin_app, <- app_assoc, Hl2, Hsame.
    by rewrite app_assoc, Hstep, <- app_assoc.
  - apply (f_equal length) in Hstep. rewrite !length_app in Hstep.
    unfold jpeg_size in *. rewrite Hsame. lia.
Qed.

Lemma stream_is_conserved_witness :
  rejoin (separator_setup None)
    (frames_of (main_loop input_buf_16k jpeg_buf_2m (separator_setup None)
                  [feed (frame_F1 ++ frame_F2); feed (tiny_jpeg ++ tiny_jpeg)]
                  one_client).1)
    ++ jpeg_buf (set_jpeg_buf (tiny_jpeg ++ tiny_jpeg) one_client)
  = jpeg_buf one_client
    ++ bytes_read [feed (frame_F1 ++ frame_F2);
                   feed (tiny_jpeg ++ tiny_jpeg)] /\
  rejoin (separator_setup (Some (bytes_of_string "--XYZ--")))
    (frames_of (main_loop input_buf_16k jpeg_buf_2m
                  (separator_setup (Some (bytes_of_string "--XYZ--")))
                  [feed (bytes_of_string "aaaa--XYZ--bbbb--XYZ--cccc")]
                  one_client).1)
    ++ jpeg_buf (set_jpeg_buf (bytes_of_string "bbbb--XYZ--cccc") one_client)
  = jpeg_buf one_client
    ++ bytes_read [feed (bytes_of_string "aaaa--XYZ--bbbb--XYZ--cccc")].
Proof.
  split.
  - apply (stream_is_conserved input_buf_16k jpeg_buf_2m None).
    + unfold input_buf_16k. lia.
    + vm_compute. reflexivity.
    + vm_compute. discriminate.
  - apply (stream_is_conserved input_buf_16k jpeg_buf_2m
             (Some (bytes_of_string "--XYZ--"))).
    + unfold input_buf_16k. lia.
    + vm_compute. reflexivity.
    + vm_compute. discriminate.
Defined.

Lemma separator_halves (acc : list byte) (j : nat) :
  occurs_at (JPEG_END ++ JPEG_START) acc j ->
  take (j + 2) acc = take j acc ++ JPEG_END /\
  exists rest, drop (j + 2) acc = JPEG_START ++ rest.
Proof.
  unfold occurs_at. intros Ho.
  change (length (JPEG_END ++ JPEG_START)) with (2 + 2)%nat in Ho.
  rewrite <- take_take_drop in Ho.
  assert (length (take 2 (drop j acc)) = 2%nat) as Hl.
  { apply (f_equal length) in Ho. rewrite length_app in Ho.
    rewrite !length_take in *.
    change (length (JPEG_END ++ JPEG_START)) with 4%nat in Ho. lia. }
  destruct (app_inj_1 _ JPEG_END _ JPEG_START Hl Ho) as [H1 H2].
  split.
  - by rewrite <- take_take_drop, H1.
  - exists (drop 2 (drop (j + 2) acc)).
    by rewrite <- H2, drop_drop, take_drop.
Qed.

(** X4.  In the automatic mode every frame the loop hands out ends with the
    end-of-image marker [FF D9], whatever the input is. *)
Theorem auto_frames_end_with_eoi
    (INPUT_BUF_LEN JPEG_BUF_LEN : Z) (inputs : list iter_input) (st : state)
    (f : list byte) :
  0 <= INPUT_BUF_LEN ->
  f ∈ frames_of (main_loop INPUT_BUF_LEN JPEG_BUF_LEN (separator_setup None)
                   inputs st).1 ->
  exists pre, f = pre ++ JPEG_END.
Proof.
  intros Hpos. revert inputs st f.
  apply (main_loop_frames_ind INPUT_BUF_LEN JPEG_BUF_LEN (separator_setup None)
           (fun f => exists pre, f = pre ++ JPEG_END)).
  intros inp st f Hf.
  destruct (loop_body_frames INPUT_BUF_LEN JPEG_BUF_LEN (separator_setup None)
              inp st) as [Hnone|(chunk & k & _ & _ & Hk & Hfr)].
  { rewrite Hnone in Hf. by apply elem_of_nil in Hf. }
  rewrite Hfr in Hf. apply list_elem_of_singleton in Hf as ->.
  apply find_separator_Some in Hk as (j & -> & _ & Ho & _); [|done].
  apply separator_halves in Ho as [Ht _].
  exists (take j (jpeg_buf st ++ chunk)). rewrite <- Ht. f_equal.
  unfold frame_size. simpl. lia.
Qed.

Lemma auto_frames_end_with_eoi_witness :
  exists pre, frame_F1 = pre ++ JPEG_END.
Proof.
  apply (auto_frames_end_with_eoi input_buf_16k jpeg_buf_2m
           [feed frame_F1; feed frame_F2] one_client frame_F1).
  - unfold input_buf_16k. lia.
  - vm_compute. apply list_elem_of_singleton. reflexivity.
Defined.

(** X5.  In the automatic mode, after an iteration that handed out a
    frame the accumulator begins with the start-of-image marker [FF D8]:
    the next frame starts where the separator was cut in two. *)
Theorem auto_remainder_starts_with_soi
    (INPUT_BUF_LEN JPEG_BUF_LEN : Z) (inp : iter_input) (st st' : state)
    (tr : list event) :
  0 <= INPUT_BUF_LEN ->
  loop_body INPUT_BUF_LEN JPEG_BUF_LEN (separator_setup None) inp st
    = (tr, Continue st') ->
  frames_of tr <> [] ->
  exists rest, jpeg_buf st' = JPEG_START ++ rest.
Proof.
  intros Hpos Hb Hfr.
  apply loop_body_continue in Hb
    as (chunk & _ & _ & _ & [(_ & Hf & _)|[(_ & _ & Hf & _)
                            |(_ & k & Hk & _ & ->)]]); [done..|].
  rewrite (remainder_is_suffix INPUT_BUF_LEN) by done.
  apply find_separator_Some in Hk as (j & -> & _ & Ho & _); [|done].
  apply separator_halves in Ho as [_ [rest Hd]].
  exists rest. rewrite <- Hd. f_equal. unfold rem_start. simpl. lia.
Qed.

Lemma auto_remainder_starts_with_soi_witness :
  exists rest, frame_F2 = JPEG_START ++ rest.
Proof.
  apply (auto_remainder_starts_with_soi input_buf_16k jpeg_buf_2m
           (feed frame_F2) (set_jpeg_buf frame_F1 one_client)
           (set_jpeg_buf frame_F2 one_client)
           [EvRead; EvFrame frame_F1; EvJpegReady 1; EvBroadcast;
            EvUnlock jpeg_mutex; EvUsleep; EvLock jpeg_mutex; EvAccept]).
  - unfold input_buf_16k. lia.
  - vm_compute. reflexivity.
  - discriminate.
Defined.

(** A frame is handed out whenever the search hits, whether or not the
    pthread calls that follow succeed. *)
Lemma loop_body_hit_frames INPUT_BUF_LEN JPEG_BUF_LEN cfg inp st chunk k :
  in_read inp = ReadBytes chunk -> chunk <> [] ->
  Z.of_nat (length chunk) <= JPEG_BUF_LEN - 1 - jpeg_size st ->
  find_separator INPUT_BUF_LEN cfg (jpeg_buf st ++ chunk) = Some k ->
  frames_of (loop_body INPUT_BUF_LEN JPEG_BUF_LEN cfg inp st).1
  = [take (Z.to_nat (frame_size cfg k)) (jpeg_buf st ++ chunk)].
Proof.
  intros Hr Hne Hfit Hk.
  destruct (loop_body_frames INPUT_BUF_LEN JPEG_BUF_LEN cfg inp st)
    as [Hnone|(chunk' & k' & Hr' & _ & Hk' & Hfr)].
  - exfalso. revert Hnone. unfold loop_body. rewrite Hr.
    assert ((Z.of_nat (length chunk) =? 0) = false) as ->.
    { destruct chunk; [done|]. simpl. lia. }
    assert ((Z.of_nat (length chunk) >? JPEG_BUF_LEN - 1 - jpeg_size st)
            = false) as -> by lia.
    rewrite Hk.
    pose proof (frame_ready_frames cfg inp st (jpeg_buf st ++ chunk) k) as Hf.
    destruct (frame_ready cfg inp st (jpeg_buf st ++ chunk) k)
      as [tr [st1|rc]]; cbn [fst] in *.
    + destruct (accept_client inp st1) as [tr' o]. cbn [fst frames_of].
      rewrite frames_of_app, Hf. discriminate.
    + cbn [frames_of]. rewrite Hf. discriminate.
  - rewrite Hr in Hr'. injection Hr' as <-.
    rewrite Hk in Hk'. injection Hk' as <-. done.
Qed.

(** X6.  While the accumulator has at most [2 * INPUT_BUF_LEN] bytes, a
    frame handed out contains no separator: the split is made at the first
    separator of the accumulator. *)
Theorem emitted_frame_has_no_separator
    (INPUT_BUF_LEN JPEG_BUF_LEN : Z) (opt_s : option (list byte))
    (inp : iter_input) (st : state) (chunk f : list byte) (i : nat) :
  0 <= INPUT_BUF_LEN ->
  in_read inp = ReadBytes chunk ->
  Z.of_nat (length (jpeg_buf st ++ chunk)) <= 2 * INPUT_BUF_LEN ->
  input_separator (separator_setup opt_s) <> [] ->
  f ∈ frames_of (loop_body INPUT_BUF_LEN JPEG_BUF_LEN
                   (separator_setup opt_s) inp st).1 ->
  ~ occurs_at (input_separator (separator_setup opt_s)) f i.
Proof.
  intros Hpos Hr Hsmall Hsep Hf Ho.
  destruct (loop_body_frames INPUT_BUF_LEN JPEG_BUF_LEN (separator_setup opt_s)
              inp st) as [Hnone|(chunk' & k & Hr' & _ & Hk & Hfr)].
  { rewrite Hnone in Hf. by apply elem_of_nil in Hf. }
  rewrite Hr in Hr'. injection Hr' as <-.
  rewrite Hfr in Hf. apply list_elem_of_singleton in Hf as ->.
  apply find_separator_Some in Hk as (j & -> & _ & _ & Hmin); [|done].
  set (acc := jpeg_buf st ++ chunk) in *.
  set (n := Z.to_nat (frame_size (separator_setup opt_s) (Z.of_nat j))) in *.
  pose proof (occurs_at_length _ _ _ Hsep Ho) as Hlen.
  rewrite length_take in Hlen.
  assert (occurs_at (input_separator (separator_setup opt_s)) acc i) as Hacc.
  { rewrite <- (take_drop n acc).
    apply occurs_at_app_l; [rewrite length_take; lia|done]. }
  apply (Hmin i); [|done]. split.
  - pose proof (window_start_spec INPUT_BUF_LEN Hpos acc). lia.
  - unfold n, frame_size in Hlen.
    destruct opt_s as [s|];
      cbn [separator_setup auto_separator input_separator] in *.
    + destruct s; [done|]. cbn [length] in Hlen. lia.
    + change (length (JPEG_END ++ JPEG_START)) with 4%nat in Hlen. lia.
Qed.

Lemma emitted_frame_has_no_separator_witness :
  ~ occurs_at (bytes_of_string "--XYZ--") (bytes_of_string "aaaa") 0.
Proof.
  apply (emitted_frame_has_no_separator input_buf_16k jpeg_buf_2m
           (Some (bytes_of_string "--XYZ--"))
           (feed (bytes_of_string "aaaa--XYZ--bbbb")) one_client
           (bytes_of_string "aaaa--XYZ--bbbb") (bytes_of_string "aaaa") 0).
  - unfold input_buf_16k. lia.
  - reflexivity.
  - vm_compute. discriminate.
  - discriminate.
  - vm_compute. apply list_elem_of_singleton. reflexivity.
Defined.

Lemma memmem_empty_needle h : memmem h [] = Some 0%nat.
Proof. by destruct h. Qed.

(** X7.  With the empty separator ([-s ""]) every read that is not empty
    and fits makes the search hit, at the start of the window: the frame
    handed out is what the accumulator holds before the window, and the
    accumulator keeps the window.  So while the accumulator has at most
    [2 * INPUT_BUF_LEN] bytes the frame is empty and the accumulator keeps
    every byte; beyond, the bytes that leave the window are handed out as
    a frame. *)
Theorem empty_separator_splits_at_window_start
    (INPUT_BUF_LEN JPEG_BUF_LEN : Z) (inp : iter_input) (st : state)
    (chunk : list byte) :
  0 <= INPUT_BUF_LEN ->
  in_read inp = ReadBytes chunk -> chunk <> [] ->
  Z.of_nat (length chunk) <= JPEG_BUF_LEN - 1 - jpeg_size st ->
  frames_of (loop_body INPUT_BUF_LEN JPEG_BUF_LEN (separator_setup (Some []))
               inp st).1
  = [take (window_start INPUT_BUF_LEN (jpeg_buf st ++ chunk))
          (jpeg_buf st ++ chunk)] /\
  (forall tr st',
     loop_body INPUT_BUF_LEN JPEG_BUF_LEN (separator_setup (Some [])) inp st
       = (tr, Continue st') ->
     jpeg_buf st'
     = drop (window_start INPUT_BUF_LEN (jpeg_buf st ++ chunk))
            (jpeg_buf st ++ chunk)) /\
  (Z.of_nat (length (jpeg_buf st ++ chunk)) <= 2 * INPUT_BUF_LEN ->
   take (window_start INPUT_BUF_LEN (jpeg_buf st ++ chunk))
        (jpeg_buf st ++ chunk) = [] /\
   drop (window_start INPUT_BUF_LEN (jpeg_buf st ++ chunk))
        (jpeg_buf st ++ chunk) = jpeg_buf st ++ chunk).
Proof.
  intros Hpos Hr Hne Hfit.
  set (acc := jpeg_buf st ++ chunk).
  set (w := window_start INPUT_BUF_LEN acc).
  assert (find_separator INPUT_BUF_LEN (separator_setup (Some [])) acc
          = Some (Z.of_nat w)) as Hk.
  { rewrite find_separator_memmem by done.
    cbn [separator_setup input_separator]. rewrite memmem_empty_needle.
    cbn. fold w. do 2 f_equal. lia. }
  split; [|split].
  - rewrite (loop_body_hit_frames _ _ _ _ _ chunk (Z.of_nat w)) by done.
    unfold frame_size. cbn [separator_setup auto_separator].
    by rewrite Nat2Z.id.
  - intros tr st' Hb.
    apply loop_body_continue in Hb
      as (chunk' & Hr' & _ & _ & Hcases).
    rewrite Hr in Hr'. injection Hr' as <-. fold acc in Hcases.
    destruct Hcases as [(Hbig & _)|[(_ & Hnone & _)|(_ & k & Hk' & _ & ->)]].
    + lia.
    + congruence.
    + rewrite Hk in Hk'. injection Hk' as <-.
      rewrite (remainder_is_suffix INPUT_BUF_LEN) by done.
      unfold rem_start, input_separator_len.
      cbn [separator_setup auto_separator input_separator length].
      f_equal. lia.
  - intros Hsmall.
    assert (w = 0%nat) as -> by (unfold w, window_start; lia).
    by rewrite take_0, drop_0.
Qed.

(** Reads of 2 bytes: with [a b c d] in the accumulator, the read of
    [e f] hands out [a b] and leaves [c d e f]. *)
Lemma empty_separator_splits_at_window_start_witness :
  frames_of (loop_body 2 12 (separator_setup (Some []))
               (feed [x0e; x0f])
               (set_jpeg_buf [x0a; x0b; x0c; x0d] one_client)).1
  = [[x0a; x0b]] /\
  (forall tr st',
     loop_body 2 12 (separator_setup (Some [])) (feed [x0e; x0f])
               (set_jpeg_buf [x0a; x0b; x0c; x0d] one_client)
       = (tr, Continue st') ->
     jpeg_buf st' = [x0c; x0d; x0e; x0f]).
Proof.
  pose proof (empty_separator_splits_at_window_start 2 12
                (feed [x0e; x0f])
                (set_jpeg_buf [x0a; x0b; x0c; x0d] one_client) [x0e; x0f])
    as H.
  destruct H as (Hf & Hacc & _).
  - lia.
  - reflexivity.
  - discriminate.
  - vm_compute. discriminate.
  - split; [exact Hf|exact Hacc].
Defined.

(* ================================================================== *)
(** * Signals *)
(* ================================================================== *)

(** X8.  When [bye_handler] runs during an iteration that would go on, the
    loop ends at the next test of [running]: no further [read] is made,
    whatever input is waiting, and [running] is 0.  A second run of the
    handler changes nothing. *)
Theorem signal_ends_loop_after_iteration
    (INPUT_BUF_LEN JPEG_BUF_LEN : Z) (cfg : sep_config)
    (inp : iter_input) (rest : list iter_input) (st st' : state)
    (tr : list event) :
  running st = true ->
  loop_body INPUT_BUF_LEN JPEG_BUF_LEN cfg inp st = (tr, Continue st') ->
  in_signal inp = true ->
  main_loop INPUT_BUF_LEN JPEG_BUF_LEN cfg (inp :: rest) st
    = (tr, Break (bye_handler st')) /\
  running (bye_handler st') = false /\
  jpeg_buf (bye_handler st') = jpeg_buf st' /\
  bye_handler (bye_handler st') = bye_handler st'.
Proof.
  intros Hrun Hb Hsig.
  assert (running (bye_handler st') = false) as Hoff.
  { unfold bye_handler. by destruct (running st') eqn:E. }
  split; [|split; [done|split]].
  - cbn [main_loop]. rewrite Hrun, Hb, Hsig.
    destruct rest; cbn [main_loop]; rewrite Hoff; by rewrite app_nil_r.
  - unfold bye_handler. by destruct (negb (running st')).
  - unfold bye_handler at 1. by rewrite Hoff.
Qed.

Lemma signal_ends_loop_after_iteration_witness :
  main_loop input_buf_16k jpeg_buf_2m (separator_setup None)
    ({| in_read := ReadBytes frame_F1;
        in_broadcast_rc := 0; in_unlock_rc := 0; in_lock_rc := 0;
        in_accept := None;
        in_create_rc := 0; in_clients_lock_rc := 0; in_clients_unlock_rc := 0;
        in_signal := true |} :: [feed frame_F2]) one_client
    = ([EvRead; EvAccept],
       Break (bye_handler (set_jpeg_buf frame_F1 one_client))) /\
  running (bye_handler (set_jpeg_buf frame_F1 one_client)) = false /\
  jpeg_buf (bye_handler (set_jpeg_buf frame_F1 one_client))
    = jpeg_buf (set_jpeg_buf frame_F1 one_client) /\
  bye_handler (bye_handler (set_jpeg_buf frame_F1 one_client))
    = bye_handler (set_jpeg_buf frame_F1 one_client).
Proof.
  apply (signal_ends_loop_after_iteration input_buf_16k jpeg_buf_2m
           (separator_setup None)).
  - reflexivity.
  - vm_compute. reflexivity.
  - reflexivity.
Defined.

(* ================================================================== *)
(** * The registry of clients *)
(* ================================================================== *)

Lemma created_app tr1 tr2 : created (tr1 ++ tr2) = created tr1 ++ created tr2.
Proof. unfold created. apply omap_app. Qed.

Lemma created_map_jpeg_ready l : created (map EvJpegReady l) = [].
Proof. by induction l. Qed.

Lemma realloc_grow (cl : list client_ptr) (client : client_ptr) :
  <[length cl := client]> (realloc cl (Z.of_nat (length cl) + 1))
  = cl ++ [client].
Proof.
  unfold realloc.
  replace (Z.to_nat (Z.of_nat (length cl) + 1)) with (length cl + 1)%nat by lia.
  rewrite resize_add, resize_all, drop_all. simpl.
  rewrite insert_app_r_alt by lia. by rewrite Nat.sub_diag.
Qed.

(** What [accept_client] does to the registry and which threads it
    creates, when it goes on. *)
Lemma accept_client_registry inp st tr st' :
  registry_wf (reg st) ->
  accept_client inp st = (tr, Continue st') ->
  match in_accept inp with
  | None => reg st' = reg st /\ created tr = []
  | Some client =>
      reg st' = {| clients := clients (reg st) ++ [client];
                   num_clients := num_clients (reg st) + 1 |} /\
      created tr = [client]
  end.
Proof.
  unfold registry_wf, accept_client. intros Hwf.
  destruct (in_accept inp) as [client|]; [|by intros [= <- <-]].
  destruct (failed (in_create_rc inp)); [done|].
  destruct (failed (in_clients_lock_rc inp)); [done|].
  destruct (failed (in_clients_unlock_rc inp)); [done|].
  intros [= <- <-]. split; [|done]. cbn [reg set_reg].
  f_equal. rewrite Hwf, Nat2Z.id. apply realloc_grow.
Qed.

(** X9.  A client that [wait_for_client] returns, and whose thread and
    registration succeed, is appended at the end of a well-formed registry:
    the earlier entries keep their places, [num_clients] is incremented and
    stays the length of the array, and the accumulator is untouched. *)
Theorem accepted_client_is_appended
    (inp : iter_input) (st st' : state) (tr : list event)
    (client : client_ptr) :
  registry_wf (reg st) ->
  in_accept inp = Some client ->
  accept_client inp st = (tr, Continue st') ->
  clients (reg st') = clients (reg st) ++ [client] /\
  num_clients (reg st') = num_clients (reg st) + 1 /\
  registry_wf (reg st') /\
  jpeg_buf st' = jpeg_buf st /\
  tr = [EvAccept; EvCreate client; EvLock clients_mutex;
        EvUnlock clients_mutex].
Proof.
  intros Hwf Ha Hacc.
  pose proof (accept_client_registry _ _ _ _ Hwf Hacc) as Hreg.
  pose proof (accept_client_state inp st) as Hst.
  rewrite Hacc in Hst. cbn [snd] in Hst. destruct Hst as [Hbuf _].
  rewrite Ha in Hreg. destruct Hreg as [Hreg _].
  rewrite Hreg. cbn [clients num_clients].
  split; [done|]. split; [done|]. split.
  { unfold registry_wf in *. cbn [clients num_clients].
    rewrite length_app. simpl. lia. }
  split; [done|].
  revert Hacc. unfold accept_client. rewrite Ha.
  destruct (failed (in_create_rc inp)); [done|].
  destruct (failed (in_clients_lock_rc inp)); [done|].
  destruct (failed (in_clients_unlock_rc inp)); [done|].
  by intros [= <- _].
Qed.

Lemma accepted_client_is_appended_witness :
  clients (reg (set_reg {| clients := [1; 2]; num_clients := 2 |} one_client))
    = clients (reg one_client) ++ [2] /\
  num_clients (reg (set_reg {| clients := [1; 2]; num_clients := 2 |}
                      one_client))
    = num_clients (reg one_client) + 1 /\
  registry_wf (reg (set_reg {| clients := [1; 2]; num_clients := 2 |}
                      one_client)) /\
  jpeg_buf (set_reg {| clients := [1; 2]; num_clients := 2 |} one_client)
    = jpeg_buf one_client /\
  [EvAccept; EvCreate 2; EvLock clients_mutex; EvUnlock clients_mutex]
    = [EvAccept; EvCreate 2; EvLock clients_mutex; EvUnlock clients_mutex].
Proof.
  apply (accepted_client_is_appended (feed_accept [] 2) one_client).
  - reflexivity.
  - reflexivity.
  - reflexivity.
Defined.

(** X10.  Registration and exit are inverse to each other: when the client
    just appended by [main] exits, [on_client_exit] gives back the registry
    as it was before the client came, provided no other entry holds the
    same pointer. *)
Theorem exit_undoes_registration
    (inp : iter_input) (st st' : state) (tr : list event)
    (client : client_ptr) :
  registry_wf (reg st) ->
  client ∉ clients (reg st) ->
  in_accept inp = Some client ->
  accept_client inp st = (tr, Continue st') ->
  on_client_exit client (reg st') = reg st.
Proof.
  intros Hwf Hni Ha Hacc.
  pose proof (accept_client_registry _ _ _ _ Hwf Hacc) as Hreg.
  rewrite Ha in Hreg. destruct Hreg as [-> _].
  unfold registry_wf in Hwf. unfold on_client_exit. cbn [clients num_clients].
  destruct (reg st) as [cl n]. cbn [clients num_clients] in *. subst n.
  f_equal; [|lia].
  rewrite (find_and_shift_found client _ cl [] []).
  - simpl. unfold realloc.
    replace (Z.to_nat (Z.of_nat (length cl) + 1 - 1)) with (length cl) by lia.
    by rewrite resize_app.
  - lia.
  - done.
  - simpl. rewrite length_app. simpl. lia.
Qed.

Lemma exit_undoes_registration_witness :
  on_client_exit 2 (reg (set_reg {| clients := [1; 2]; num_clients := 2 |}
                           one_client))
  = reg one_client.
Proof.
  apply (exit_undoes_registration (feed_accept [] 2) one_client _
           [EvAccept; EvCreate 2; EvLock clients_mutex;
            EvUnlock clients_mutex] 2).
  - reflexivity.
  - vm_compute. intros H. apply list_elem_of_singleton in H. discriminate.
  - reflexivity.
  - reflexivity.
Defined.

(** X11.  [on_client_exit] never looks at whether the registry has an
    entry: on a well-formed registry it keeps [num_clients] the length of
    the array exactly when the registry is not empty; on the empty registry
    it leaves [num_clients] at -1 with an empty array. *)
Theorem on_client_exit_keeps_count_iff_nonempty
    (client : client_ptr) (r : registry) :
  registry_wf r ->
  (registry_wf (on_client_exit client r) <-> clients r <> []) /\
  length (clients (on_client_exit client r)) = Nat.pred (length (clients r)) /\
  num_clients (on_client_exit client r) = num_clients r - 1.
Proof.
  unfold registry_wf, on_client_exit. cbn [clients num_clients].
  intros Hwf. unfold realloc. rewrite length_resize. rewrite Hwf.
  split; [|split; [lia|done]].
  destruct (clients r) as [|c cl]; simpl; split; intros H; try done; lia.
Qed.

Lemma on_client_exit_keeps_count_iff_nonempty_witness :
  (registry_wf (on_client_exit 1 {| clients := []; num_clients := 0 |})
   <-> clients {| clients := []; num_clients := 0 |} <> []) /\
  length (clients (on_client_exit 1 {| clients := []; num_clients := 0 |}))
    = Nat.pred (length (clients {| clients := []; num_clients := 0 |})) /\
  num_clients (on_client_exit 1 {| clients := []; num_clients := 0 |})
    = num_clients {| clients := []; num_clients := 0 |} - 1.
Proof.
  apply (on_client_exit_keeps_count_iff_nonempty 1
           {| clients := []; num_clients := 0 |}).
  reflexivity.
Defined.

Section Registry.

Variables INPUT_BUF_LEN JPEG_BUF_LEN : Z.
Variable cfg : sep_config.

Lemma frame_ready_created inp st buf k :
  created (frame_ready cfg inp st buf k).1 = [] /\
  forall st1, (frame_ready cfg inp st buf k).2 = inl st1 -> reg st1 = reg st.
Proof.
  split.
  - unfold frame_ready.
    destruct (failed (in_broadcast_rc inp));
      [|destruct (failed (in_unlock_rc inp));
        [|destruct (failed (in_lock_rc inp))]];
      cbn [fst]; rewrite ?created_app;
      by rewrite (created_map_jpeg_ready (live_clients st) : created
           (EvFrame _ :: map EvJpegReady (live_clients st)) = []).
  - intros st1 H. by rewrite (frame_ready_state _ _ _ _ _ _ H).
Qed.

Lemma loop_body_registry inp st tr st' :
  registry_wf (reg st) ->
  (loop_body INPUT_BUF_LEN JPEG_BUF_LEN cfg inp st = (tr, Continue st') \/
   loop_body INPUT_BUF_LEN JPEG_BUF_LEN cfg inp st = (tr, Break st')) ->
  registry_wf (reg st') /\
  clients (reg st') = clients (reg st) ++ created tr.
Proof.
  intros Hwf. unfold loop_body.
  destruct (in_read inp) as [e|chunk].
  { destruct (e =? EINTR); intros [H|H]; try done.
    injection H as <- <-. by rewrite app_nil_r. }
  destruct (Z.of_nat (length chunk) =? 0).
  { intros [H|H]; try done. injection H as <- <-. by rewrite app_nil_r. }
  destruct (Z.of_nat (length chunk) >? JPEG_BUF_LEN - 1 - jpeg_size st).
  { intros [H|H]; try done. injection H as <- <-. by rewrite app_nil_r. }
  set (buf := jpeg_buf st ++ chunk).
  assert (exists tr1 r,
            match find_separator INPUT_BUF_LEN cfg buf with
            | Some k => frame_ready cfg inp st buf k
            | None => ([], inl (set_jpeg_buf buf st))
            end = (tr1, r) /\ created tr1 = [] /\
            forall st1, r = inl st1 -> reg st1 = reg st)
    as (tr1 & r & -> & Hc1 & Hr1).
  { destruct (find_separator INPUT_BUF_LEN cfg buf) as [k|].
    - destruct (frame_ready_created inp st buf k) as [Hc Hr].
      destruct (frame_ready cfg inp st buf k) as [tr1 r]. by eexists _, _.
    - eexists _, _. split; [done|]. split; [done|]. by intros st1 [= <-]. }
  destruct r as [st1|rc]; [|by intros [H|H]].
  specialize (Hr1 st1 eq_refl).
  destruct (accept_client inp st1) as [tr2 o] eqn:Hacc.
  assert (o = Continue st' -> tr = EvRead :: tr1 ++ tr2 ->
          registry_wf (reg st') /\
          clients (reg st') = clients (reg st) ++ created tr) as Hgo.
  { intros -> ->.
    assert (registry_wf (reg st1)) as Hwf1 by by rewrite Hr1.
    pose proof (accept_client_registry _ _ _ _ Hwf1 Hacc) as Hreg.
    change (EvRead :: tr1 ++ tr2) with ([EvRead] ++ tr1 ++ tr2).
    rewrite !created_app, Hc1. cbn [created omap app].
    fold (created tr2).
    destruct (in_accept inp) as [client|]; destruct Hreg as [-> ->];
      rewrite Hr1; cbn [clients num_clients].
    - split; [|done]. unfold registry_wf in *. cbn [clients num_clients].
      rewrite length_app. simpl. lia.
    - by rewrite app_nil_r. }
  intros [H|H]; injection H as <- ->; [by apply Hgo|].
  exfalso. revert Hacc. unfold accept_client.
  destruct (in_accept inp); [|done].
  destruct (failed (in_create_rc inp)); [done|].
  destruct (failed (in_clients_lock_rc inp)); [done|].
  by destruct (failed (in_clients_unlock_rc inp)).
Qed.

(** X12.  As long as [main] does not return from inside the loop, the
    registry it leaves is the one it started from followed by the clients
    whose thread it created, in the order of their creation, and
    [num_clients] is the length of the array: the main thread only ever
    appends. *)
Theorem registry_grows_by_created_clients
    (inputs : list iter_input) (st st' : state) (tr : list event) :
  registry_wf (reg st) ->
  (main_loop INPUT_BUF_LEN JPEG_BUF_LEN cfg inputs st = (tr, Continue st') \/
   main_loop INPUT_BUF_LEN JPEG_BUF_LEN cfg inputs st = (tr, Break st')) ->
  registry_wf (reg st') /\
  clients (reg st') = clients (reg st) ++ created tr.
Proof.
  revert st tr. induction inputs as [|inp rest IH]; intros st tr Hwf.
  - cbn [main_loop]. destruct (running st);
      intros [H|H]; simplify_eq; by rewrite app_nil_r.
  - cbn [main_loop]. destruct (running st).
    2:{ intros [H|H]; simplify_eq. by rewrite app_nil_r. }
    destruct (loop_body INPUT_BUF_LEN JPEG_BUF_LEN cfg inp st)
      as [tr1 o] eqn:Hb.
    destruct o as [st1|st1|rc].
    + destruct (loop_body_registry inp st tr1 st1 Hwf (or_introl Hb))
        as [Hwf1 Hcl1].
      set (st2 := if in_signal inp then bye_handler st1 else st1).
      assert (reg st2 = reg st1) as Hreg2.
      { unfold st2, bye_handler.
        destruct (in_signal inp); [|done]. by destruct (running st1). }
      destruct (main_loop INPUT_BUF_LEN JPEG_BUF_LEN cfg rest st2)
        as [tr2 o2] eqn:Hl.
      clearbody st2. intros H.
      assert (tr = tr1 ++ tr2 /\ (o2 = Continue st' \/ o2 = Break st'))
        as [-> Ho2].
      { destruct H as [H|H]; injection H as <- ->; auto. }
      destruct (IH st2 tr2) as [Hwf' Hcl']; [by rewrite Hreg2| |].
      { destruct Ho2 as [->| ->]; auto. }
      split; [done|].
      by rewrite Hcl', Hreg2, Hcl1, created_app, app_assoc.
    + intros [H|H]; [done|]. injection H as <- <-.
      destruct (loop_body_registry inp st tr1 st1 Hwf (or_intror Hb))
        as [Hwf1 Hcl1].
      assert (reg (if in_signal inp then bye_handler st1 else st1) = reg st1)
        as ->; [|done].
      unfold bye_handler.
      destruct (in_signal inp); [|done]. by destruct (running st1).
    + by intros [H|H].
Qed.

End Registry.

Lemma registry_grows_by_created_clients_witness :
  registry_wf (reg (set_reg {| clients := [1; 2]; num_clients := 2 |}
                      (set_jpeg_buf frame_F1 one_client))) /\
  clients (reg (set_reg {| clients := [1; 2]; num_clients := 2 |}
                  (set_jpeg_buf frame_F1 one_client)))
  = clients (reg one_client)
    ++ created [EvRead; EvAccept; EvCreate 2; EvLock clients_mutex;
                EvUnlock clients_mutex].
Proof.
  apply (registry_grows_by_created_clients input_buf_16k jpeg_buf_2m
           (separator_setup None) [feed_accept frame_F1 2] one_client).
  - reflexivity.
  - left. vm_compute. reflexivity.
Defined.

(* ================================================================== *)
(** * The use of the mutexes *)
(* ================================================================== *)

Lemma orderly_app tr1 tr2 j c :
  orderly (tr1 ++ tr2) j c =
  orderly tr1 j c
  && orderly tr2 (holds jpeg_mutex tr1 j) (holds clients_mutex tr1 c).
Proof.
  revert j c; induction tr1 as [|e tr1 IH]; intros j c; [done|].
  destruct e as [[]|[]| | | | | | | | | | |[]|]; simpl;
    rewrite ?IH, ?andb_assoc; done.
Qed.

Lemma orderly_jpeg_ready l tr :
  orderly (map EvJpegReady l ++ tr) true false = orderly tr true false.
Proof. by induction l. Qed.

Lemma orderly_stop_client l tr :
  orderly (map EvStopClient l ++ tr) true false = orderly tr true false.
Proof. by induction l. Qed.

Lemma orderly_join l tr :
  orderly (map EvJoin l ++ tr) false false = orderly tr false false.
Proof. by induction l. Qed.

Lemma frame_ready_orderly cfg inp st buf k :
  orderly (frame_ready cfg inp st buf k).1 true false = true.
Proof.
  unfold frame_ready.
  destruct (failed (in_broadcast_rc inp));
    [|destruct (failed (in_unlock_rc inp));
      [|destruct (failed (in_lock_rc inp))]];
    cbn [fst app orderly andb];
    [rewrite <- (app_nil_r (map _ _))|..];
    by rewrite orderly_jpeg_ready.
Qed.

Lemma accept_client_orderly inp st :
  orderly (accept_client inp st).1 true false = true.
Proof.
  unfold accept_client.
  destruct (in_accept inp); [|done].
  destruct (failed (in_create_rc inp)); [done|].
  destruct (failed (in_clients_lock_rc inp)); [done|].
  by destruct (failed (in_clients_unlock_rc inp)).
Qed.

Lemma orderly_after tr1 tr2 :
  keeps_locks tr1 false ->
  orderly tr1 true false = true -> orderly tr2 true false = true ->
  orderly (tr1 ++ tr2) true false = true.
Proof.
  intros [_ Hh] H1 H2. destruct (Hh eq_refl) as [Hj Hc].
  by rewrite orderly_app, H1, Hj, Hc.
Qed.

Section Orderly.

Variables INPUT_BUF_LEN JPEG_BUF_LEN : Z.
Variable cfg : sep_config.

Lemma loop_body_orderly inp st :
  orderly (loop_body INPUT_BUF_LEN JPEG_BUF_LEN cfg inp st).1 true false
  = true.
Proof.
  unfold loop_body.
  destruct (in_read inp) as [e|input_buf].
  { by destruct (e =? EINTR). }
  destruct (Z.of_nat (length input_buf) =? 0); [done|].
  destruct (_ >? _); [done|].
  set (buf := jpeg_buf st ++ input_buf).
  assert (exists tr r,
    match find_separator INPUT_BUF_LEN cfg buf with
    | Some k => frame_ready cfg inp st buf k
    | None => ([], inl (set_jpeg_buf buf st))
    end = (tr, r) /\ orderly tr true false = true /\
    keeps_locks tr (match r with inl _ => false | inr _ => true end))
    as (tr & r & -> & Ho & Hk).
  { destruct (find_separator INPUT_BUF_LEN cfg buf) as [k|].
    - pose proof (frame_ready_orderly cfg inp st buf k).
      pose proof (frame_ready_locks cfg inp st buf k).
      destruct (frame_ready cfg inp st buf k) as [tr r]. by eexists _, _.
    - by eexists _, _. }
  destruct r as [st1|rc]; [|done].
  pose proof (accept_client_orderly inp st1) as Ha.
  destruct (accept_client inp st1) as [tr' o]. cbn [fst snd] in *.
  by apply orderly_after.
Qed.

Lemma main_loop_orderly inputs st :
  orderly (main_loop INPUT_BUF_LEN JPEG_BUF_LEN cfg inputs st).1 true false
  = true.
Proof.
  revert st; induction inputs as [|inp rest IH]; intros st; cbn [main_loop].
  - by destruct (running st).
  - destruct (running st); [|done].
    pose proof (loop_body_orderly inp st) as Hb.
    pose proof (loop_body_locks INPUT_BUF_LEN JPEG_BUF_LEN cfg inp st) as Hk.
    destruct (loop_body _ _ _ inp st) as [tr o]. cbn [fst snd] in *.
    destruct o as [st'| |]; [|done..].
    specialize (IH (if in_signal inp then bye_handler st' else st')).
    destruct (main_loop _ _ _ rest _) as [tr' o']. cbn [fst snd] in *.
    by apply orderly_after.
Qed.

End Orderly.

Lemma shutdown_orderly sd st : orderly (shutdown sd st).1 true false = true.
Proof.
  unfold shutdown.
  destruct (failed (sd_broadcast_rc sd)); [|destruct (failed (sd_unlock_rc sd));
    [|destruct (failed (sd_destroy_clients_rc sd));
      [|destruct (failed (sd_destroy_jpeg_rc sd));
        [|destruct (failed (sd_cond_destroy_rc sd))]]]]; cbn [fst];
    rewrite <- ?app_assoc; cbn [app orderly andb].
  - rewrite <- (app_nil_r (map _ _)). by rewrite orderly_stop_client.
  - by rewrite orderly_stop_client.
  - rewrite orderly_stop_client. cbn [orderly andb negb].
    rewrite <- (app_nil_r (map _ _)). by rewrite orderly_join.
  - rewrite orderly_stop_client. cbn [orderly andb negb].
    by rewrite orderly_join.
  - rewrite orderly_stop_client. cbn [orderly andb negb].
    by rewrite orderly_join.
  - rewrite orderly_stop_client. cbn [orderly andb negb].
    by rewrite orderly_join.
Qed.

Lemma main_from_lock_orderly INPUT_BUF_LEN JPEG_BUF_LEN opt_s lock_rc
    inputs sd st :
  orderly
    (main_from_lock INPUT_BUF_LEN JPEG_BUF_LEN opt_s lock_rc inputs sd st).1
    false false = true.
Proof.
  unfold main_from_lock. destruct (failed lock_rc); [done|].
  pose proof (main_loop_orderly INPUT_BUF_LEN JPEG_BUF_LEN
                (separator_setup opt_s) inputs st) as Ho.
  pose proof (main_loop_locks INPUT_BUF_LEN JPEG_BUF_LEN (separator_setup opt_s)
                inputs st) as Hk.
  destruct (main_loop _ _ _ inputs st) as [tr o]. cbn [fst snd] in *.
  destruct o as [st'|st'|rc]; [done| |done].
  pose proof (shutdown_orderly sd st') as Hs.
  destruct (shutdown sd st') as [tr' rc]. cbn [fst snd orderly negb andb] in *.
  by apply orderly_after.
Qed.

(** The test [orderly] makes at an event of the trace. *)
Lemma orderly_event tr pre e post :
  orderly tr false false = true -> tr = pre ++ e :: post ->
  orderly [e] (held_after jpeg_mutex pre) (held_after clients_mutex pre)
  = true.
Proof.
  intros Ho ->. rewrite orderly_app in Ho.
  apply andb_true_iff in Ho as [_ Ho]. unfold held_after.
  destruct e as [[]|[]| | | | | | | | | | |[]|]; simpl in *;
    try done; apply andb_true_iff in Ho as [-> _]; done.
Qed.

(** X13.  The main thread never locks a mutex it already holds and never
    unlocks one it does not hold, on any run: with any inputs, any failing
    call and any signal. *)
Theorem main_thread_locks_free_unlocks_held
    (INPUT_BUF_LEN JPEG_BUF_LEN : Z) (opt_s : option (list byte))
    (lock_rc : Z) (inputs : list iter_input) (sd : shutdown_input)
    (st : state) (pre post : list event) (e : event) (m : mutex) :
  (main_from_lock INPUT_BUF_LEN JPEG_BUF_LEN opt_s lock_rc inputs sd st).1
    = pre ++ e :: post ->
  (e = EvLock m -> held_after m pre = false) /\
  (e = EvUnlock m -> held_after m pre = true).
Proof.
  intros Htr.
  pose proof (orderly_event _ pre e post
                (main_from_lock_orderly INPUT_BUF_LEN JPEG_BUF_LEN opt_s
                   lock_rc inputs sd st) Htr) as Ho.
  split; intros ->; destruct m; simpl in Ho;
    apply andb_true_iff in Ho as [Ho _]; by destruct (held_after _ pre).
Qed.

Lemma main_thread_locks_free_unlocks_held_witness :
  (EvUnlock jpeg_mutex = EvLock jpeg_mutex ->
   held_after jpeg_mutex
     [EvLock jpeg_mutex; EvRead; EvClose; EvStopClient 1; EvBroadcast]
   = false) /\
  (EvUnlock jpeg_mutex = EvUnlock jpeg_mutex ->
   held_after jpeg_mutex
     [EvLock jpeg_mutex; EvRead; EvClose; EvStopClient 1; EvBroadcast]
   = true).
Proof.
  apply (main_thread_locks_free_unlocks_held input_buf_16k jpeg_buf_2m None 0
           [feed []] sd_ok one_client
           [EvLock jpeg_mutex; EvRead; EvClose; EvStopClient 1; EvBroadcast]
           [EvJoin 1; EvDestroy clients_mutex; EvDestroy jpeg_mutex;
            EvCondDestroy]).
  reflexivity.
Defined.

(** X14.  The main thread sleeps ([usleep]) and waits for a client thread
    ([pthread_join]) only while it does not hold [jpeg_mutex], and it
    destroys a mutex only while it does not hold it. *)
Theorem main_thread_blocks_without_jpeg_mutex
    (INPUT_BUF_LEN JPEG_BUF_LEN : Z) (opt_s : option (list byte))
    (lock_rc : Z) (inputs : list iter_input) (sd : shutdown_input)
    (st : state) (pre post : list event) (e : event) :
  (main_from_lock INPUT_BUF_LEN JPEG_BUF_LEN opt_s lock_rc inputs sd st).1
    = pre ++ e :: post ->
  (e = EvUsleep \/ (exists c, e = EvJoin c) ->
   held_after jpeg_mutex pre = false) /\
  (forall m, e = EvDestroy m -> held_after m pre = false).
Proof.
  intros Htr.
  pose proof (orderly_event _ pre e post
                (main_from_lock_orderly INPUT_BUF_LEN JPEG_BUF_LEN opt_s
                   lock_rc inputs sd st) Htr) as Ho.
  split.
  - intros [->|[c ->]]; simpl in Ho;
      apply andb_true_iff in Ho as [Ho _]; by destruct (held_after _ pre).
  - intros m ->. destruct m; simpl in Ho;
      apply andb_true_iff in Ho as [Ho _]; by destruct (held_after _ pre).
Qed.

Lemma main_thread_blocks_without_jpeg_mutex_witness :
  (EvJoin 1 = EvUsleep \/ (exists c, EvJoin 1 = EvJoin c) ->
   held_after jpeg_mutex
     [EvLock jpeg_mutex; EvRead; EvClose; EvStopClient 1; EvBroadcast;
      EvUnlock jpeg_mutex] = false) /\
  (forall m, EvJoin 1 = EvDestroy m ->
   held_after m
     [EvLock jpeg_mutex; EvRead; EvClose; EvStopClient 1; EvBroadcast;
      EvUnlock jpeg_mutex] = false).
Proof.
  apply (main_thread_blocks_without_jpeg_mutex input_buf_16k jpeg_buf_2m None 0
           [feed []] sd_ok one_client
           [EvLock jpeg_mutex; EvRead; EvClose; EvStopClient 1; EvBroadcast;
            EvUnlock jpeg_mutex]
           [EvDestroy clients_mutex; EvDestroy jpeg_mutex; EvCondDestroy]).
  reflexivity.
Defined.

(** X15.  A frame is published to the clients only under [jpeg_mutex]:
    the frame in [jpeg_buf], every [jpeg_ready] flag, every [running] flag
    cleared at shutdown and every [pthread_cond_broadcast] happen while the
    main thread holds [jpeg_mutex]. *)
Theorem main_thread_publishes_under_jpeg_mutex
    (INPUT_BUF_LEN JPEG_BUF_LEN : Z) (opt_s : option (list byte))
    (lock_rc : Z) (inputs : list iter_input) (sd : shutdown_input)
    (st : state) (pre post : list event) (e : event) :
  (main_from_lock INPUT_BUF_LEN JPEG_BUF_LEN opt_s lock_rc inputs sd st).1
    = pre ++ e :: post ->
  ((exists f, e = EvFrame f) \/ (exists c, e = EvJpegReady c) \/
   e = EvBroadcast \/ (exists c, e = EvStopClient c)) ->
  held_after jpeg_mutex pre = true.
Proof.
  intros Htr He.
  pose proof (orderly_event _ pre e post
                (main_from_lock_orderly INPUT_BUF_LEN JPEG_BUF_LEN opt_s
                   lock_rc inputs sd st) Htr) as Ho.
  destruct He as [[f ->]|[[c ->]|[->|[c ->]]]]; simpl in Ho;
    (destruct (held_after jpeg_mutex pre); [done|by simpl in Ho]).
Qed.

Lemma main_thread_publishes_under_jpeg_mutex_witness :
  held_after jpeg_mutex
    [EvLock jpeg_mutex; EvRead; EvFrame frame_F1] = true.
Proof.
  apply (main_thread_publishes_under_jpeg_mutex input_buf_16k jpeg_buf_2m
           None 0 [feed (frame_F1 ++ frame_F2)] sd_ok one_client
           [EvLock jpeg_mutex; EvRead; EvFrame frame_F1]
           [EvBroadcast; EvUnlock jpeg_mutex; EvUsleep; EvLock jpeg_mutex;
            EvAccept]
           (EvJpegReady 1)).
  - reflexivity.
  - right. left. by exists 1.
Defined.

(** X16.  The main thread walks the registry without [clients_mutex]: it
    sets the [jpeg_ready] flags, clears the [running] flags and joins the
    client threads while it does not hold the mutex under which
    [on_client_exit] shrinks the array. *)
Theorem main_thread_walks_registry_without_clients_mutex
    (INPUT_BUF_LEN JPEG_BUF_LEN : Z) (opt_s : option (list byte))
    (lock_rc : Z) (inputs : list iter_input) (sd : shutdown_input)
    (st : state) (pre post : list event) (e : event) :
  (main_from_lock INPUT_BUF_LEN JPEG_BUF_LEN opt_s lock_rc inputs sd st).1
    = pre ++ e :: post ->
  ((exists c, e = EvJpegReady c) \/ (exists c, e = EvStopClient c) \/
   (exists c, e = EvJoin c)) ->
  held_after clients_mutex pre = false.
Proof.
  intros Htr He.
  pose proof (orderly_event _ pre e post
                (main_from_lock_orderly INPUT_BUF_LEN JPEG_BUF_LEN opt_s
                   lock_rc inputs sd st) Htr) as Ho.
  destruct He as [[c ->]|[[c ->]|[c ->]]]; simpl in Ho;
    (destruct (held_after clients_mutex pre); [|done]);
    by rewrite !andb_false_r in Ho.
Qed.

Lemma main_thread_walks_registry_without_clients_mutex_witness :
  held_after clients_mutex
    [EvLock jpeg_mutex; EvRead; EvFrame frame_F1] = false.
Proof.
  apply (main_thread_walks_registry_without_clients_mutex input_buf_16k
           jpeg_buf_2m None 0 [feed (frame_F1 ++ frame_F2)] sd_ok one_client
           [EvLock jpeg_mutex; EvRead; EvFrame frame_F1]
           [EvBroadcast; EvUnlock jpeg_mutex; EvUsleep; EvLock jpeg_mutex;
            EvAccept]
           (EvJpegReady 1)).
  - reflexivity.
  - left. by exists 1.
Defined.

(* ================================================================== *)
(** * The exit status *)
(* ================================================================== *)

Lemma not_failed rc : failed rc = false -> rc = 0.
Proof. unfold failed. intros H. apply negb_false_iff in H. lia. Qed.

Lemma frame_ready_return cfg inp st buf k rc :
  (frame_ready cfg inp st buf k).2 = inr rc -> rc = -1.
Proof.
  unfold frame_ready.
  destruct (failed (in_broadcast_rc inp)); [by intros [= <-]|].
  destruct (failed (in_unlock_rc inp)); [by intros [= <-]|].
  destruct (failed (in_lock_rc inp)); [by intros [= <-]|done].
Qed.

Lemma accept_client_return inp st rc :
  (accept_client inp st).2 = Return rc -> rc = -1.
Proof.
  unfold accept_client.
  destruct (in_accept inp); [|done].
  destruct (failed (in_create_rc inp)); [by intros [= <-]|].
  destruct (failed (in_clients_lock_rc inp)); [by intros [= <-]|].
  destruct (failed (in_clients_unlock_rc inp)); [by intros [= <-]|done].
Qed.

Lemma loop_body_return INPUT_BUF_LEN JPEG_BUF_LEN cfg inp st rc :
  (loop_body INPUT_BUF_LEN JPEG_BUF_LEN cfg inp st).2 = Return rc -> rc = -1.
Proof.
  unfold loop_body.
  destruct (in_read inp) as [e|chunk].
  { destruct (e =? EINTR); [done|by intros [= <-]]. }
  destruct (Z.of_nat (length chunk) =? 0); [done|].
  destruct (_ >? _); [done|].
  destruct (find_separator _ _ _) as [k|].
  - pose proof (frame_ready_return cfg inp st (jpeg_buf st ++ chunk) k) as Hf.
    destruct (frame_ready _ _ _ _ _) as [tr [st1|rc']]; cbn [snd] in *.
    + pose proof (accept_client_return inp st1) as Ha.
      destruct (accept_client inp st1) as [tr' o]. cbn [snd] in *.
      exact (Ha rc).
    + intros [= <-]. by apply Hf.
  - pose proof (accept_client_return inp
                  (set_jpeg_buf (jpeg_buf st ++ chunk) st)) as Ha.
    destruct (accept_client inp _) as [tr' o]. cbn [snd] in *.
    exact (Ha rc).
Qed.

Lemma main_loop_return INPUT_BUF_LEN JPEG_BUF_LEN cfg inputs st rc :
  (main_loop INPUT_BUF_LEN JPEG_BUF_LEN cfg inputs st).2 = Return rc ->
  rc = -1.
Proof.
  revert st; induction inputs as [|inp rest IH]; intros st; cbn [main_loop].
  - by destruct (running st).
  - destruct (running st); [|done].
    pose proof (loop_body_return INPUT_BUF_LEN JPEG_BUF_LEN cfg inp st) as Hb.
    destruct (loop_body _ _ _ inp st) as [tr [st'|st'|rc']]; cbn [snd] in *.
    + specialize (IH (if in_signal inp then bye_handler st' else st')).
      destruct (main_loop _ _ _ rest _) as [tr' o']. cbn [snd] in *.
      exact IH.
    + done.
    + intros [= <-]. by apply Hb.
Qed.

Lemma shutdown_status sd st :
  ((shutdown sd st).2 = 0 \/ (shutdown sd st).2 = -1) /\
  ((shutdown sd st).2 = 0 -> shutdown_succeeds sd).
Proof.
  unfold shutdown, shutdown_succeeds.
  destruct (failed (sd_broadcast_rc sd)) eqn:H1; [by split; [right|]|].
  destruct (failed (sd_unlock_rc sd)) eqn:H2; [by split; [right|]|].
  destruct (failed (sd_destroy_clients_rc sd)) eqn:H3; [by split; [right|]|].
  destruct (failed (sd_destroy_jpeg_rc sd)) eqn:H4; [by split; [right|]|].
  destruct (failed (sd_cond_destroy_rc sd)) eqn:H5; [by split; [right|]|].
  split; [by left|]. intros _. auto 10 using not_failed.
Qed.

(** X17.  [main] returns 0 or -1, and it returns 0 only on one path: the
    first lock succeeded, the loop was left through [break] or the test of
    [running] (never through a [return]), and every call of the shutdown
    succeeded; the trace then ends with the whole shutdown: the socket is
    closed, the clients found in the registry are stopped and woken, the
    clients still found there are joined, and the mutexes and the
    condition variable are destroyed.  Provided no client leaves through
    [on_client_exit] meanwhile, the clients stopped and the clients joined
    are all the registered clients. *)
Theorem exit_status_zero_needs_full_shutdown
    (INPUT_BUF_LEN JPEG_BUF_LEN : Z) (opt_s : option (list byte))
    (lock_rc : Z) (inputs : list iter_input) (sd : shutdown_input)
    (st : state) (tr : list event) (rc : Z) :
  main_from_lock INPUT_BUF_LEN JPEG_BUF_LEN opt_s lock_rc inputs sd st
    = (tr, Some rc) ->
  (rc = 0 \/ rc = -1) /\
  (rc = 0 ->
   lock_rc = 0 /\ shutdown_succeeds sd /\
   exists tr_loop st',
     main_loop INPUT_BUF_LEN JPEG_BUF_LEN (separator_setup opt_s) inputs st
       = (tr_loop, Break st') /\
     tr = EvLock jpeg_mutex :: tr_loop
          ++ EvClose :: map EvStopClient (stopped sd st').1
          ++ [EvBroadcast; EvUnlock jpeg_mutex]
          ++ map EvJoin (joined sd st')
          ++ [EvDestroy clients_mutex; EvDestroy jpeg_mutex; EvCondDestroy] /\
     (no_client_exits sd ->
      (stopped sd st').1 = live_clients st' /\
      joined sd st' = live_clients st')).
Proof.
  unfold main_from_lock.
  destruct (failed lock_rc) eqn:Hlock.
  { intros [= <- <-]. by split; [right|]. }
  apply not_failed in Hlock.
  pose proof (main_loop_return INPUT_BUF_LEN JPEG_BUF_LEN
                (separator_setup opt_s) inputs st) as Hret.
  destruct (main_loop _ _ _ inputs st) as [tr_loop [st'|st'|rc']];
    cbn [snd] in *; [done| |].
  - pose proof (shutdown_status sd st') as [Hrc Hok].
    destruct (shutdown sd st') as [tr' rc'] eqn:Hsd. cbn [snd] in *.
    intros [= <- <-]. split; [done|].
    intros ->. specialize (Hok eq_refl). split; [done|]. split; [done|].
    exists tr_loop, st'. split; [done|]. split.
    + rewrite (shutdown_all_ok sd st' Hok) in Hsd. by injection Hsd as <-.
    + intros Hno. by destruct (shutdown_no_exits sd st' Hno) as [-> ->].
  - intros [= <- <-]. rewrite (Hret rc' eq_refl). by split; [right|].
Qed.

Lemma exit_status_zero_needs_full_shutdown_witness :
  (0 = 0 \/ 0 = -1) /\
  (0 = 0 ->
   0 = 0 /\ shutdown_succeeds sd_ok /\
   exists tr_loop st',
     main_loop input_buf_16k jpeg_buf_2m (separator_setup None) [feed []]
               one_client
       = (tr_loop, Break st') /\
     [EvLock jpeg_mutex; EvRead; EvClose; EvStopClient 1; EvBroadcast;
      EvUnlock jpeg_mutex; EvJoin 1; EvDestroy clients_mutex;
      EvDestroy jpeg_mutex; EvCondDestroy]
     = EvLock jpeg_mutex :: tr_loop
          ++ EvClose :: map EvStopClient (stopped sd_ok st').1
          ++ [EvBroadcast; EvUnlock jpeg_mutex]
          ++ map EvJoin (joined sd_ok st')
          ++ [EvDestroy clients_mutex; EvDestroy jpeg_mutex; EvCondDestroy] /\
     (no_client_exits sd_ok ->
      (stopped sd_ok st').1 = live_clients st' /\
      joined sd_ok st' = live_clients st')).
Proof.
  apply (exit_status_zero_needs_full_shutdown input_buf_16k jpeg_buf_2m None 0
           [feed []] sd_ok one_client).
  reflexivity.
Defined.

(* ================================================================== *)
(** * Clients that leave during the shutdown *)
(* ================================================================== *)

Lemma on_client_exit_head (c : client_ptr) (l : list client_ptr)
    (r : registry) :
  registry_wf r -> clients r = c :: l ->
  on_client_exit c r = {| clients := l; num_clients := num_clients r - 1 |}.
Proof.
  unfold registry_wf, on_client_exit. intros Hwf Hcl. f_equal.
  rewrite Hwf, Nat2Z.id, Hcl.
  rewrite (find_and_shift_found c _ [] l []);
    [|simpl; lia|apply not_elem_of_nil|done].
  simpl. unfold realloc.
  replace (Z.to_nat (Z.of_nat (S (length l)) - 1)) with (length l) by lia.
  by rewrite resize_app.
Qed.

Lemma walk_pass cs leaving fuel i r :
  walk (cs :: leaving) (S fuel) i r
  = match registered (exits cs r) !! i with
    | Some c =>
        let '(l, r') := walk leaving fuel (S i) (exits cs r) in (c :: l, r')
    | None => ([], exits cs r)
    end.
Proof. reflexivity. Qed.

(** A pass before which the clients [cs] leave, followed by passes during
    which no client leaves. *)
Lemma walk_first_exits cs leaving fuel i r :
  Forall (fun cs => cs = []) leaving ->
  (length (registered (exits cs r)) - i < S fuel)%nat ->
  walk (cs :: leaving) (S fuel) i r
  = (drop i (registered (exits cs r)), exits cs r).
Proof.
  intros Hl Hf. rewrite walk_pass.
  destruct (registered (exits cs r) !! i) as [x|] eqn:Hi.
  - pose proof (lookup_lt_Some _ _ _ Hi).
    rewrite walk_no_exits by (done || lia).
    by rewrite (drop_S _ _ _ Hi).
  - apply lookup_ge_None in Hi. by rewrite drop_ge.
Qed.

(** X23.  The join loop of the shutdown skips a client when the client it
    waits for leaves the registry: if the first registered client goes
    through [on_client_exit] while [main] is in its [pthread_join] (and
    no other client leaves), the entries move back by one, [i] moves on
    by one, and the client that was second in the registry is never
    joined, though it was stopped like the others. *)
Theorem join_loop_skips_client_after_exit
    (sd : shutdown_input) (st : state) (c c' : client_ptr)
    (more : list client_ptr) :
  registry_wf (reg st) ->
  clients (reg st) = c :: c' :: more ->
  Forall (fun cs => cs = []) (sd_stop_exits sd) ->
  sd_join_exits sd = [[]; [c]] ->
  (stopped sd st).1 = c :: c' :: more /\
  joined sd st = c :: more.
Proof.
  intros Hwf Hcl Hstop Hjoin.
  assert (registered (reg st) = c :: c' :: more) as Hreg.
  { unfold registered. rewrite Hwf, Nat2Z.id, <- Hcl. apply take_ge. lia. }
  assert (stopped sd st = (c :: c' :: more, reg st)) as Hst.
  { unfold stopped. rewrite walk_no_exits; [by rewrite Hreg|done|].
    unfold walk_fuel. rewrite Hreg, Hwf, Hcl. simpl. lia. }
  split; [by rewrite Hst|].
  unfold joined. rewrite Hst, Hjoin. cbn [fst snd].
  unfold walk_fuel.
  replace (Z.to_nat (num_clients (reg st))) with (S (S (length more)))
    by (rewrite Hwf, Hcl; simpl; lia).
  rewrite walk_pass. change (exits [] (reg st)) with (reg st).
  rewrite Hreg. change ((c :: c' :: more) !! 0%nat) with (Some c).
  assert (registered (exits [c] (reg st)) = c' :: more) as Hreg1.
  { cbn [exits foldl]. rewrite (on_client_exit_head c (c' :: more)) by done.
    unfold registered. cbn [clients num_clients].
    apply take_ge. rewrite Hwf, Hcl. simpl. lia. }
  rewrite walk_first_exits; [|done|rewrite Hreg1; simpl; lia].
  by rewrite Hreg1.
Qed.

(** Three clients, at addresses 1, 2 and 3: the client at 2 is not
    joined. *)
Lemma join_loop_skips_client_after_exit_witness :
  (stopped
     {| sd_broadcast_rc := 0; sd_unlock_rc := 0; sd_destroy_clients_rc := 0;
        sd_destroy_jpeg_rc := 0; sd_cond_destroy_rc := 0;
        sd_stop_exits := []; sd_join_exits := [[]; [1]] |}
     (set_reg {| clients := [1; 2; 3]; num_clients := 3 |} one_client)).1
  = [1; 2; 3] /\
  joined
    {| sd_broadcast_rc := 0; sd_unlock_rc := 0; sd_destroy_clients_rc := 0;
       sd_destroy_jpeg_rc := 0; sd_cond_destroy_rc := 0;
       sd_stop_exits := []; sd_join_exits := [[]; [1]] |}
    (set_reg {| clients := [1; 2; 3]; num_clients := 3 |} one_client)
  = [1; 3].
Proof.
  apply (join_loop_skips_client_after_exit
           {| sd_broadcast_rc := 0; sd_unlock_rc := 0;
              sd_destroy_clients_rc := 0; sd_destroy_jpeg_rc := 0;
              sd_cond_destroy_rc := 0;
              sd_stop_exits := []; sd_join_exits := [[]; [1]] |}
           (set_reg {| clients := [1; 2; 3]; num_clients := 3 |} one_client)
           1 2 [3]).
  - reflexivity.
  - reflexivity.
  - constructor.
  - reflexivity.
Defined.

(* ================================================================== *)
(** * The options, one after the other *)
(* ================================================================== *)

(** The options are read from left to right, and nothing is read after
    one that makes [main] return. *)
Lemma read_options_app l1 l2 g :
  Cli.read_options (l1 ++ l2) g =
  match Cli.read_options l1 g with
  | Cli.Go g' => Cli.read_options l2 g'
  | Cli.Exit rc => Cli.Exit rc
  end.
Proof.
  revert g; induction l1 as [|[c a] l1 IH]; intros g; [done|].
  cbn [app Cli.read_options].
  destruct (Ascii.eqb c "d"); [apply IH|].
  destruct (Ascii.eqb c "h"); [done|].
  destruct (Ascii.eqb c "l"); [apply IH|].
  destruct (Ascii.eqb c "p").
  { destruct (Cli.strtol a) as [v [|]]; [apply IH|done]. }
  destruct (Ascii.eqb c "q"); [apply IH|].
  destruct (Ascii.eqb c "s"); [apply IH|].
  destruct (Ascii.eqb c "t"); [|done].
  destruct (Cli.strtol a) as [v [|]]; [apply IH|done].
Qed.

(** What one option does to the log level, the separator and
    [listen_localhost], when [main] goes on. *)
Lemma read_options_one o g g' :
  Cli.read_options [o] g = Cli.Go g' ->
  Cli.log_level g' = default (Cli.log_level g) (verbosity_of o) /\
  Cli.input_separator g'
  = match separator_of o with
    | Some s => Some s
    | None => Cli.input_separator g
    end /\
  Cli.listen_localhost g' = (if is_opt_l o then 1 else Cli.listen_localhost g).
Proof.
  destruct o as [c a].
  unfold verbosity_of, separator_of, is_opt_l. cbn [fst snd Cli.read_options].
  destruct (Ascii.eqb_spec c "d") as [->|Hd]; [by intros [= <-]|].
  destruct (Ascii.eqb_spec c "h") as [->|Hh]; [done|].
  destruct (Ascii.eqb_spec c "l") as [->|Hl]; [by intros [= <-]|].
  destruct (Ascii.eqb_spec c "p") as [->|Hp].
  { destruct (Cli.strtol a) as [v [|]]; [by intros [= <-]|done]. }
  destruct (Ascii.eqb_spec c "q") as [->|Hq]; [by intros [= <-]|].
  destruct (Ascii.eqb_spec c "s") as [->|Hs]; [by intros [= <-]|].
  destruct (Ascii.eqb_spec c "t") as [->|Ht]; [|done].
  destruct (Cli.strtol a) as [v [|]]; [by intros [= <-]|done].
Qed.

Lemma last_omap_snoc {A B} (f : A -> option B) (l : list A) (x : A) :
  last (omap f (l ++ [x]))
  = match f x with Some v => Some v | None => last (omap f l) end.
Proof.
  rewrite omap_app. simpl. destruct (f x) as [v|].
  - apply last_snoc.
  - by rewrite app_nil_r.
Qed.

(** X18.  Among the options that set the same global the last one wins:
    when [main] goes on after the options, the log level is the one of the
    last [-d] or [-q], the separator the argument of the last [-s]; [-l]
    cannot be undone by any option. *)
Theorem options_last_one_wins
    (opts : list (ascii * string)) (g g' : Cli.globals) :
  Cli.read_options opts g = Cli.Go g' ->
  Cli.log_level g'
  = default (Cli.log_level g) (last (omap verbosity_of opts)) /\
  Cli.input_separator g'
  = match last (omap separator_of opts) with
    | Some s => Some s
    | None => Cli.input_separator g
    end /\
  Cli.listen_localhost g'
  = (if existsb is_opt_l opts then 1 else Cli.listen_localhost g).
Proof.
  revert g'. induction opts as [|o opts IH] using rev_ind; intros g'.
  { by intros [= <-]. }
  rewrite read_options_app.
  destruct (Cli.read_options opts g) as [g1|rc]; [|done].
  destruct (IH g1 eq_refl) as (IH1 & IH2 & IH3).
  intros (H1 & H2 & H3)%read_options_one.
  rewrite !last_omap_snoc, existsb_app. cbn [existsb].
  rewrite H1, H2, H3, IH1, IH2, IH3, orb_false_r.
  split; [by destruct (verbosity_of o)|].
  split; [by destruct (separator_of o)|].
  destruct (is_opt_l o); [by rewrite orb_true_r|by rewrite orb_false_r].
Qed.

(** [streameye -q -s AB -l -d -s CD]. *)
Lemma options_last_one_wins_witness :
  Cli.log_level {| Cli.log_level := 2; Cli.listen_localhost := 1;
                   Cli.tcp_port := 0; Cli.input_separator := Some "CD";
                   Cli.client_read_timeout := 10 |}
  = default (Cli.log_level Cli.initial)
      (last (omap verbosity_of
               [("q"%char, ""); ("s"%char, "AB"); ("l"%char, "");
                ("d"%char, ""); ("s"%char, "CD")])) /\
  Cli.input_separator {| Cli.log_level := 2; Cli.listen_localhost := 1;
                         Cli.tcp_port := 0; Cli.input_separator := Some "CD";
                         Cli.client_read_timeout := 10 |}
  = match last (omap separator_of
                  [("q"%char, ""); ("s"%char, "AB"); ("l"%char, "");
                   ("d"%char, ""); ("s"%char, "CD")]) with
    | Some s => Some s
    | None => Cli.input_separator Cli.initial
    end /\
  Cli.listen_localhost {| Cli.log_level := 2; Cli.listen_localhost := 1;
                          Cli.tcp_port := 0; Cli.input_separator := Some "CD";
                          Cli.client_read_timeout := 10 |}
  = (if existsb is_opt_l
          [("q"%char, ""); ("s"%char, "AB"); ("l"%char, "");
           ("d"%char, ""); ("s"%char, "CD")]
     then 1 else Cli.listen_localhost Cli.initial).
Proof.
  apply (options_last_one_wins
           [("q"%char, ""); ("s"%char, "AB"); ("l"%char, "");
            ("d"%char, ""); ("s"%char, "CD")] Cli.initial).
  reflexivity.
Defined.

(** X19.  [main] returns from the options with 0 or -1, and with 0 exactly
    when a [-h] is reached: a [-h] with only well-formed options before
    it.  Whatever follows the [-h] is not looked at. *)
Theorem help_exits_zero_iff_reached
    (opts : list (ascii * string)) (g : Cli.globals) :
  (forall rc, Cli.main_options opts g = Cli.Exit rc -> rc = 0 \/ rc = -1) /\
  (Cli.main_options opts g = Cli.Exit 0 <->
   exists l1 o l2 g1,
     opts = l1 ++ o :: l2 /\ is_opt_h o = true /\
     Cli.read_options l1 g = Cli.Go g1).
Proof.
  unfold Cli.main_options.
  assert (forall rc, Cli.read_options opts g = Cli.Exit rc ->
            (rc = 0 \/ rc = -1) /\
            (rc = 0 -> exists l1 o l2 g1,
               opts = l1 ++ o :: l2 /\ is_opt_h o = true /\
               Cli.read_options l1 g = Cli.Go g1)) as Hexit.
  { revert g. induction opts as [|[c a] opts IH]; intros g rc; [done|].
    assert (forall f,
              Cli.read_options [(c, a)] g = Cli.Go (f g) ->
              Cli.read_options opts (f g) = Cli.Exit rc ->
              (rc = 0 \/ rc = -1) /\
              (rc = 0 -> exists l1 o l2 g1,
                 (c, a) :: opts = l1 ++ o :: l2 /\ is_opt_h o = true /\
                 Cli.read_options l1 g = Cli.Go g1)) as Hstep.
    { intros f Hone Hr. destruct (IH _ _ Hr) as [H01 Hhelp]. split; [done|].
      intros Hrc. destruct (Hhelp Hrc) as (l1 & o & l2 & g1 & -> & Ho & Hl1).
      exists ((c, a) :: l1), o, l2, g1. split; [done|]. split; [done|].
      change ((c, a) :: l1) with ([(c, a)] ++ l1).
      by rewrite read_options_app, Hone. }
    revert Hstep. cbn [Cli.read_options].
    destruct (Ascii.eqb c "d");
      [intros Hstep; by apply (Hstep (Cli.set_log_level 2))|].
    destruct (Ascii.eqb c "h") eqn:Hh.
    { intros _ [= <-]. split; [by left|]. intros _.
      by exists [], (c, a), opts, g. }
    destruct (Ascii.eqb c "l");
      [intros Hstep; by apply (Hstep (Cli.set_listen_localhost 1))|].
    destruct (Ascii.eqb c "p").
    { destruct (Cli.strtol a) as [v [|]].
      - intros Hstep. by apply (Hstep (Cli.set_tcp_port (Cli.int_of_long v))).
      - intros _ [= <-]. by split; [right|]. }
    destruct (Ascii.eqb c "q");
      [intros Hstep; by apply (Hstep (Cli.set_log_level 0))|].
    destruct (Ascii.eqb c "s");
      [intros Hstep; by apply (Hstep (Cli.set_input_separator (Some a)))|].
    destruct (Ascii.eqb c "t").
    { destruct (Cli.strtol a) as [v [|]].
      - intros Hstep.
        by apply (Hstep (Cli.set_client_read_timeout (Cli.int_of_long v))).
      - intros _ [= <-]. by split; [right|]. }
    intros _ [= <-]. by split; [right|]. }
  split.
  - intros rc. destruct (Cli.read_options opts g) as [g'|rc'] eqn:Hr; [done|].
    intros [= <-]. by apply Hexit.
  - split.
    + destruct (Cli.read_options opts g) as [g'|rc'] eqn:Hr; [done|].
      intros [= ->]. by apply (Hexit 0).
    + intros (l1 & [c a] & l2 & g1 & -> & Ho & Hl1).
      rewrite read_options_app, Hl1. cbn [Cli.read_options].
      unfold is_opt_h in Ho. cbn [fst] in Ho.
      apply Ascii.eqb_eq in Ho as ->. done.
Qed.

(** [streameye -q -h -p x]. *)
Lemma help_exits_zero_iff_reached_witness :
  (forall rc,
     Cli.main_options [("q"%char, ""); ("h"%char, ""); ("p"%char, "x")]
                      Cli.initial = Cli.Exit rc ->
     rc = 0 \/ rc = -1) /\
  (Cli.main_options [("q"%char, ""); ("h"%char, ""); ("p"%char, "x")]
                    Cli.initial = Cli.Exit 0 <->
   exists l1 o l2 g1,
     [("q"%char, ""); ("h"%char, ""); ("p"%char, "x")] = l1 ++ o :: l2 /\
     is_opt_h o = true /\
     Cli.read_options l1 Cli.initial = Cli.Go g1).
Proof.
  apply (help_exits_zero_iff_reached
           [("q"%char, ""); ("h"%char, ""); ("p"%char, "x")] Cli.initial).
Defined.

(** X20.  Starting from the initial log level 1, no option can silence the
    errors: after the options [ERROR] always writes, [INFO] writes unless
    the last of [-d], [-q] is [-q], and [DEBUG] writes only when the last
    of them is [-d]. *)
Theorem errors_are_always_logged
    (opts : list (ascii * string)) (g g' : Cli.globals) :
  Cli.log_level g = 1 ->
  Cli.read_options opts g = Cli.Go g' ->
  logged (Cli.log_level g') SevError = true /\
  (logged (Cli.log_level g') SevInfo = false
   <-> last (omap verbosity_of opts) = Some 0) /\
  (logged (Cli.log_level g') SevDebug = true
   <-> last (omap verbosity_of opts) = Some 2).
Proof.
  intros Hg Hr.
  assert (Cli.log_level g'
          = default (Cli.log_level g) (last (omap verbosity_of opts))) as ->.
  { clear Hg. revert g' Hr.
    induction opts as [|o opts IH] using rev_ind; intros g'.
    { by intros [= <-]. }
    rewrite read_options_app.
    destruct (Cli.read_options opts g) as [g1|rc]; [|done].
    intros (H1 & _)%read_options_one.
    rewrite last_omap_snoc, H1, (IH g1 eq_refl).
    by destruct (verbosity_of o). }
  rewrite Hg.
  assert (Forall (fun v => v = 0 \/ v = 2) (omap verbosity_of opts)) as Hall.
  { clear. induction opts as [|[c a] opts IH]; [done|].
    change (omap verbosity_of ((c, a) :: opts))
      with (match verbosity_of (c, a) with
            | Some v => v :: omap verbosity_of opts
            | None => omap verbosity_of opts
            end).
    unfold verbosity_of at 1. cbn [fst].
    destruct (Ascii.eqb c "d"); [constructor; auto|].
    destruct (Ascii.eqb c "q"); [constructor; auto|done]. }
  destruct (last (omap verbosity_of opts)) as [v|] eqn:Hlast.
  - apply last_Some in Hlast as [l' Hl']. rewrite Hl' in Hall.
    rewrite Forall_app, Forall_singleton in Hall. destruct Hall as [_ Hv].
    destruct Hv as [-> | ->]; cbn; (split; [done|]); split;
      split; congruence.
  - cbn. split; [done|]. split; split; congruence.
Qed.

(** [streameye -d -q]. *)
Lemma errors_are_always_logged_witness :
  logged (Cli.log_level (Cli.set_log_level 0 Cli.initial)) SevError = true /\
  (logged (Cli.log_level (Cli.set_log_level 0 Cli.initial)) SevInfo = false
   <-> last (omap verbosity_of [("d"%char, ""); ("q"%char, "")]) = Some 0) /\
  (logged (Cli.log_level (Cli.set_log_level 0 Cli.initial)) SevDebug = true
   <-> last (omap verbosity_of [("d"%char, ""); ("q"%char, "")]) = Some 2).
Proof.
  apply (errors_are_always_logged [("d"%char, ""); ("q"%char, "")]
           Cli.initial).
  - reflexivity.
  - reflexivity.
Defined.

(* ================================================================== *)
(** * The listening socket *)
(* ================================================================== *)

(** X21.  [init_server] returns the descriptor of the socket exactly when
    all five calls succeed, and -1 as soon as one fails: a failure is
    never answered with a descriptor, and no negative value other than -1
    is returned. *)
Theorem init_server_fails_iff_a_call_fails
    (listen_localhost tcp_port : Z) (env : server_env) :
  (server_env_ok env ->
   (init_server listen_localhost tcp_port env).2 = socket_rc env /\
   0 <= (init_server listen_localhost tcp_port env).2) /\
  (~ server_env_ok env ->
   (init_server listen_localhost tcp_port env).2 = -1).
Proof.
  unfold init_server, server_env_ok.
  destruct (Z.ltb_spec (socket_rc env) 0); [split; [lia|done]|].
  destruct (Z.ltb_spec (setsockopt_rc env) 0); [split; [lia|done]|].
  destruct (Z.ltb_spec (bind_rc env) 0); [split; [lia|done]|].
  destruct (Z.ltb_spec (listen_rc env) 0); [split; [lia|done]|].
  destruct (Z.ltb_spec (fcntl_rc env) 0); [split; [lia|done]|].
  cbn [snd]. split; [done|]. intros Hn. exfalso. apply Hn. lia.
Qed.

(** X22.  When a call after [socket] fails, [init_server] closes the
    socket, except when the failing call is [setsockopt]: then it returns
    with the descriptor still open.  When every call succeeds nothing is
    closed. *)
Theorem init_server_closes_socket_unless_setsockopt_fails
    (listen_localhost tcp_port : Z) (env : server_env) :
  0 <= socket_rc env ->
  (~ server_env_ok env ->
   (SysClose (socket_rc env) ∈ (init_server listen_localhost tcp_port env).1
    <-> 0 <= setsockopt_rc env)) /\
  (server_env_ok env ->
   forall fd, SysClose fd ∉ (init_server listen_localhost tcp_port env).1).
Proof.
  unfold init_server, server_env_ok. intros Hs.
  destruct (Z.ltb_spec (socket_rc env) 0); [lia|].
  destruct (Z.ltb_spec (setsockopt_rc env) 0).
  { split; [|lia]. intros _. cbn [fst]. split; [|lia].
    intros Hin. repeat (apply elem_of_cons in Hin as [Hin|Hin]; [done|]).
    by apply elem_of_nil in Hin. }
  destruct (Z.ltb_spec (bind_rc env) 0).
  { split; [|lia]. intros _. cbn [fst app]. split; [done|]. intros _.
    do 3 apply list_elem_of_further. apply list_elem_of_here. }
  destruct (Z.ltb_spec (listen_rc env) 0).
  { split; [|lia]. intros _. cbn [fst app]. split; [done|]. intros _.
    do 4 apply list_elem_of_further. apply list_elem_of_here. }
  destruct (Z.ltb_spec (fcntl_rc env) 0).
  { split; [|lia]. intros _. cbn [fst app]. split; [done|]. intros _.
    do 5 apply list_elem_of_further. apply list_elem_of_here. }
  split; [intros Hn; exfalso; apply Hn; lia|].
  intros _ fd Hin. cbn [fst app] in Hin.
  repeat (apply elem_of_cons in Hin as [Hin|Hin]; [done|]).
  by apply elem_of_nil in Hin.
Qed.

(** [socket] returns 3 and [setsockopt] fails. *)
Lemma init_server_closes_socket_unless_setsockopt_fails_witness :
  (~ server_env_ok {| socket_rc := 3; setsockopt_rc := -1; bind_rc := 0;
                      listen_rc := 0; fcntl_rc := 0 |} ->
   (SysClose 3 ∈ (init_server 0 8080
                    {| socket_rc := 3; setsockopt_rc := -1; bind_rc := 0;
                       listen_rc := 0; fcntl_rc := 0 |}).1
    <-> 0 <= -1)) /\
  (server_env_ok {| socket_rc := 3; setsockopt_rc := -1; bind_rc := 0;
                    listen_rc := 0; fcntl_rc := 0 |} ->
   forall fd,
     SysClose fd ∉ (init_server 0 8080
                      {| socket_rc := 3; setsockopt_rc := -1; bind_rc := 0;
                         listen_rc := 0; fcntl_rc := 0 |}).1).
Proof.
  apply (init_server_closes_socket_unless_setsockopt_fails 0 8080
           {| socket_rc := 3; setsockopt_rc := -1; bind_rc := 0;
              listen_rc := 0; fcntl_rc := 0 |}).
  simpl. lia.
Defined.
